(** * In-process infrastructure primitives: LRU cache, async queue, rate limiter

    A shallow embedding of [src/cache/LRUCache.ts] (createLRUCache), of the
    async queue (createAsyncQueue), of the burst rate limiter
    (createBurstRateLimiter) and of the concurrent manager and the
    operations of the user service, followed by the properties of the
    specification that were checked against them and by further
    properties of the code.

    Conventions.
    - JavaScript [number]s that hold timestamps, byte sizes and priorities are
      modelled as [Z]; counters that only count up from 0 are [nat].
    - Every [Date.now()] read of the source is an explicit argument of the
      function that performs the read, so nothing is assumed about the clock.
    - A [Map<string, X>] is a [gmap string X]; arrays are lists. *)

From Stdlib Require Import ZArith QArith Lia.
From stdpp Require Import gmap strings list fin_maps sorting pretty.

Local Open Scope Z_scope.

(** JavaScript's [a || b] on an optional number: [undefined] and [0] are falsy. *)
Definition js_or (a : option Z) (b : Z) : Z :=
  match a with
  | Some x => if x =? 0 then b else x
  | None => b
  end.

(* ===================================================================== *)
(** * The cache: types *)
(* ===================================================================== *)

Module CacheEntry.
Record t (T : Type) := mk {
  data : T;
  expiresAt : Z;
  lastAccessed : Z;
  size : Z;
}.
Arguments mk {T}.
Arguments data {T}.
Arguments expiresAt {T}.
Arguments lastAccessed {T}.
Arguments size {T}.
End CacheEntry.

Module CacheStats.
Record t := mk {
  hits : nat;
  misses : nat;
  size : nat;
  totalSizeBytes : Z;
  averageResponseTime : Q;
  evictions : nat;
  staleEntriesCleaned : nat;
}.
End CacheStats.

(** The options are whole numbers (specification, section 6: [int > 0]);
    a fractional or missing [maxSize] is not among the options of this
    model. *)
Module CacheOptions.
Record t := mk {
  maxSize : Z;
  ttl : Z;
  cleanupInterval : Z;
}.
End CacheOptions.

Module Cache.

(** [defaultOptions] of createLRUCache. *)
Definition defaultOptions : CacheOptions.t :=
  CacheOptions.mk 100 60000 10000.

Section WithData.
Context {T : Type}.
(** [calculateSize]: byte length of the JSON serialisation of the data,
    or 1024 when serialisation throws.  The serialiser is outside the
    model, so the function is a parameter. *)
Variable calculateSize : T → Z.
(** [data !== null] test of getOrSet on what [get] returned. *)
Variable isNull : T → bool.
Variable config : CacheOptions.t.

(** The closure variables of createLRUCache.  A pending fetch is
    identified by the number of the promise that was registered. *)
Record State := mkState {
  cache : gmap string (CacheEntry.t T);
  accessOrder : list string;
  pendingFetches : gmap string nat;
  stats : CacheStats.t;
  totalResponseTime : Z;
  totalRequests : nat;
}.

Definition initStats : CacheStats.t := CacheStats.mk 0 0 0 0 0%Q 0 0.

Definition init : State := mkState ∅ [] ∅ initStats 0 0.

(** Field updates. *)
Definition withCache (f : gmap string (CacheEntry.t T) → gmap string (CacheEntry.t T))
    (s : State) : State :=
  mkState (f (cache s)) (accessOrder s) (pendingFetches s) (stats s)
          (totalResponseTime s) (totalRequests s).

Definition withAccessOrder (f : list string → list string) (s : State) : State :=
  mkState (cache s) (f (accessOrder s)) (pendingFetches s) (stats s)
          (totalResponseTime s) (totalRequests s).

Definition withPending (f : gmap string nat → gmap string nat) (s : State) : State :=
  mkState (cache s) (accessOrder s) (f (pendingFetches s)) (stats s)
          (totalResponseTime s) (totalRequests s).

Definition withStats (f : CacheStats.t → CacheStats.t) (s : State) : State :=
  mkState (cache s) (accessOrder s) (pendingFetches s) (f (stats s))
          (totalResponseTime s) (totalRequests s).

Definition addHit (st : CacheStats.t) : CacheStats.t :=
  CacheStats.mk (S (CacheStats.hits st)) (CacheStats.misses st) (CacheStats.size st)
    (CacheStats.totalSizeBytes st) (CacheStats.averageResponseTime st)
    (CacheStats.evictions st) (CacheStats.staleEntriesCleaned st).

Definition addMiss (st : CacheStats.t) : CacheStats.t :=
  CacheStats.mk (CacheStats.hits st) (S (CacheStats.misses st)) (CacheStats.size st)
    (CacheStats.totalSizeBytes st) (CacheStats.averageResponseTime st)
    (CacheStats.evictions st) (CacheStats.staleEntriesCleaned st).

Definition addEviction (st : CacheStats.t) : CacheStats.t :=
  CacheStats.mk (CacheStats.hits st) (CacheStats.misses st) (CacheStats.size st)
    (CacheStats.totalSizeBytes st) (CacheStats.averageResponseTime st)
    (S (CacheStats.evictions st)) (CacheStats.staleEntriesCleaned st).

Definition addCleaned (n : nat) (st : CacheStats.t) : CacheStats.t :=
  CacheStats.mk (CacheStats.hits st) (CacheStats.misses st) (CacheStats.size st)
    (CacheStats.totalSizeBytes st) (CacheStats.averageResponseTime st)
    (CacheStats.evictions st) (CacheStats.staleEntriesCleaned st + n)%nat.

Definition addBytes (d : Z) (st : CacheStats.t) : CacheStats.t :=
  CacheStats.mk (CacheStats.hits st) (CacheStats.misses st) (CacheStats.size st)
    (CacheStats.totalSizeBytes st + d) (CacheStats.averageResponseTime st)
    (CacheStats.evictions st) (CacheStats.staleEntriesCleaned st).

Definition setSize (n : nat) (st : CacheStats.t) : CacheStats.t :=
  CacheStats.mk (CacheStats.hits st) (CacheStats.misses st) n
    (CacheStats.totalSizeBytes st) (CacheStats.averageResponseTime st)
    (CacheStats.evictions st) (CacheStats.staleEntriesCleaned st).

(** [stats.size = cache.size] *)
Definition syncSize (s : State) : State :=
  withStats (setSize (size (cache s))) s.

(** [Array.prototype.indexOf] *)
Fixpoint indexOf (key : string) (l : list string) : option nat :=
  match l with
  | [] => None
  | x :: r => if decide (x = key) then Some 0%nat else S <$> indexOf key r
  end.

(** [removeFromAccessOrder]: splice out the first occurrence, if any. *)
Definition removeFromAccessOrder (key : string) (s : State) : State :=
  match indexOf key (accessOrder s) with
  | Some index => withAccessOrder (delete index) s
  | None => s
  end.

(** [updateAccessOrder]: remove, then [unshift] at the front. *)
Definition updateAccessOrder (key : string) (s : State) : State :=
  withAccessOrder (cons key) (removeFromAccessOrder key s).

(** [evictLRU]: pop the tail of [accessOrder]; drop its entry if there is one. *)
Definition evictLRU (s : State) : State :=
  match last (accessOrder s) with
  | None => s
  | Some lruKey =>
      let s1 := withAccessOrder (λ l, removelast l) s in
      match cache s1 !! lruKey with
      | Some entry =>
          let s2 := withStats (addBytes (- CacheEntry.size entry)) s1 in
          let s3 := withCache (delete lruKey) s2 in
          syncSize (withStats addEviction s3)
      | None => s1
      end
  end.

(** [updateStats] *)
Definition updateStats (responseTime : Z) (s : State) : State :=
  mkState (cache s) (accessOrder s) (pendingFetches s) (stats s)
          (totalResponseTime s + responseTime) (S (totalRequests s)).

(** [deleteEntry] *)
Definition deleteEntry (key : string) (s : State) : bool * State :=
  match cache s !! key with
  | Some entry =>
      let s1 := withStats (addBytes (- CacheEntry.size entry)) s in
      let s2 := removeFromAccessOrder key s1 in
      let s3 := withCache (delete key) s2 in
      (true, syncSize s3)
  | None => (false, s)
  end.

(** [get].  [nowCheck] is the clock read of the expiry test, [nowTouch]
    the read stored into [lastAccessed]. *)
Definition get (key : string) (nowCheck nowTouch : Z) (s : State) : option T * State :=
  match cache s !! key with
  | None => (None, withStats addMiss s)
  | Some entry =>
      if nowCheck >? CacheEntry.expiresAt entry then
        (None, withStats addMiss (deleteEntry key s).2)
      else
        let s1 := updateAccessOrder key s in
        let entry' := CacheEntry.mk (CacheEntry.data entry) (CacheEntry.expiresAt entry)
                        nowTouch (CacheEntry.size entry) in
        let s2 := withCache (<[key := entry']>) s1 in
        (Some (CacheEntry.data entry), withStats addHit s2)
  end.

(** The entry built at the top of [set]. *)
Definition newEntry (data : T) (customTtl size_ : option Z) (now : Z) : CacheEntry.t T :=
  let ttl := js_or customTtl (CacheOptions.ttl config) in
  let entrySize := js_or size_ (calculateSize data) in
  CacheEntry.mk data (now + ttl) now entrySize.

(** [set]; [size_] is the optional [size] argument. *)
Definition set (key : string) (data : T) (customTtl size_ : option Z) (now : Z)
    (s : State) : State :=
  let entry := newEntry data customTtl size_ now in
  let entrySize := CacheEntry.size entry in
  let s1 :=
    if (Z.of_nat (size (cache s)) >=? CacheOptions.maxSize config)
       && negb (bool_decide (is_Some (cache s !! key)))
    then evictLRU s else s in
  let isUpdate := bool_decide (is_Some (cache s1 !! key)) in
  let s2 := withCache (<[key := entry]>) s1 in
  let s3 := updateAccessOrder key s2 in
  let s4 := syncSize s3 in
  if isUpdate then
    (* [oldEntry = cache.get(key)] is read after [cache.set(key, entry)] *)
    match cache s4 !! key with
    | Some oldEntry =>
        withStats (addBytes entrySize)
          (withStats (addBytes (- CacheEntry.size oldEntry)) s4)
    | None => withStats (addBytes entrySize) s4
    end
  else withStats (addBytes entrySize) s4.

(** [delete] of the public interface ([deleteFn]). *)
Definition deleteFn (key : string) (s : State) : bool * State :=
  deleteEntry key s.

(** [clear].  [totalResponseTime] and [totalRequests] are not reset. *)
Definition clear (s : State) : State :=
  mkState ∅ [] ∅ initStats (totalResponseTime s) (totalRequests s).

(** [getStats] *)
Definition getStats (s : State) : CacheStats.t :=
  let st := stats s in
  let totalRequests := (CacheStats.hits st + CacheStats.misses st)%nat in
  let averageResponseTime :=
    if (0 <? totalRequests)%nat
    then (CacheStats.averageResponseTime st / inject_Z (Z.of_nat totalRequests))%Q
    else 0%Q in
  CacheStats.mk (CacheStats.hits st) (CacheStats.misses st) (CacheStats.size st)
    (CacheStats.totalSizeBytes st) averageResponseTime
    (CacheStats.evictions st) (CacheStats.staleEntriesCleaned st).

(** [has] *)
Definition has (key : string) (now : Z) (s : State) : bool * State :=
  match cache s !! key with
  | None => (false, s)
  | Some entry =>
      if now >? CacheEntry.expiresAt entry then (false, (deleteEntry key s).2)
      else (true, s)
  end.

(** One iteration of the loop of [cleanupStaleEntries]. *)
Definition cleanupVisit (now : Z) (acc : State * nat)
    (kv : string * CacheEntry.t T) : State * nat :=
  if now >? CacheEntry.expiresAt kv.2
  then ((deleteEntry kv.1 acc.1).2, S acc.2)
  else acc.

(** [cleanupStaleEntries]: the background sweep. *)
Definition cleanupStaleEntries (now : Z) (s : State) : State :=
  let r := foldl (cleanupVisit now) (s, 0%nat) (map_to_list (cache s)) in
  if (0 <? r.2)%nat then withStats (addCleaned r.2) r.1 else r.1.

(** ** Synchronous operations as data

    The operations a caller can perform in one synchronous step, each
    with the clock values it reads. *)
Inductive Op :=
| OpSet (key : string) (data : T) (customTtl size_ : option Z) (now : Z)
| OpGet (key : string) (nowCheck nowTouch : Z)
| OpHas (key : string) (now : Z)
| OpDelete (key : string)
| OpClear
| OpCleanup (now : Z).

Definition exec (o : Op) (s : State) : State :=
  match o with
  | OpSet key data customTtl size_ now => set key data customTtl size_ now s
  | OpGet key nowCheck nowTouch => (get key nowCheck nowTouch s).2
  | OpHas key now => (has key now s).2
  | OpDelete key => (deleteFn key s).2
  | OpClear => clear s
  | OpCleanup now => cleanupStaleEntries now s
  end.

(** The state after a history of operations on a fresh cache; the most
    recent operation is at the head of the history. *)
Fixpoint replay (h : list Op) : State :=
  match h with
  | [] => init
  | o :: h' => exec o (replay h')
  end.

(** The key an operation uses in the sense of the eviction policy: [set]
    writes its key, [get] reads its key when it is a hit.  [has],
    [delete], [clear] and the sweep use nothing. *)
Definition touched (o : Op) (s : State) : option string :=
  match o with
  | OpSet key _ _ _ _ => Some key
  | OpGet key nowCheck nowTouch =>
      if (get key nowCheck nowTouch s).1 is Some _ then Some key else None
  | _ => None
  end.

(** How many operations ago [key] was last used ([None]: never). *)
Fixpoint age (h : list Op) (key : string) : option nat :=
  match h with
  | [] => None
  | o :: h' =>
      if decide (touched o (replay h') = Some key) then Some 0%nat
      else S <$> age h' key
  end.

(** ** getOrSet and its in-flight fetches

    [getOrSet] is an [async] function: a call runs synchronously up to
    its first [await], and the rest runs when the awaited promise
    settles.  The event loop runs one such piece at a time, so the
    pieces are modelled as atomic steps on a [World]: the closure state
    plus the fetch promises created so far.  The supplier [fetchFn] is
    an asynchronous unit of work: invoking it yields a promise that the
    environment settles later ([settleFetch]), unless the call [fetchFn()]
    itself throws. *)
Context {E : Type}.

Inductive Outcome :=
| Fulfilled (value : T)
| Rejected (reason : E).

(** One [fetchPromise]: what its closure captured, and its state.  A
    record is created exactly when [fetchFn()] is invoked. *)
Record Fetch := mkFetch {
  fetchKey : string;
  fetchTtl : option Z;
  fetchStart : Z;
  fetchOutcome : option Outcome;
  fetchResumed : bool;
}.

Record World := mkWorld {
  st : State;
  fetches : list Fetch;
}.

Definition initWorld : World := mkWorld init [].

(** What a call of [getOrSet] hands back at the end of its synchronous
    part: a value (cache hit), or the fetch promise it now awaits. *)
Inductive CallResult :=
| Returned (value : T)
| Awaits (promise : nat).

(** How the call [fetchFn()] ends: it throws before it has returned a
    promise, or it returns one. *)
Inductive SupplierCall :=
| Throws (reason : E)
| ReturnsPromise.

(** The state of [fetchPromise] when the call of the async function that
    makes it returns: that function runs up to its first [await], which
    is [await fetchFn()]; when [fetchFn()] throws, it leaves through
    [finally] and the promise is rejected there and then. *)
Definition initialOutcome (call : SupplierCall) : option Outcome :=
  match call with
  | Throws reason => Some (Rejected reason)
  | ReturnsPromise => None
  end.

(** What the miss path does to [pendingFetches] before [getOrSet]
    awaits: [pendingFetches.set(key, fetchPromise)], preceded by the
    [pendingFetches.delete(key)] of the [finally] block when [fetchFn()]
    threw. *)
Definition register (key : string) (p : nat) (call : SupplierCall)
    (pending : gmap string nat) : gmap string nat :=
  match call with
  | Throws _ => <[key := p]> (delete key pending)
  | ReturnsPromise => <[key := p]> pending
  end.

(** The miss path of [getOrSet]: invoke the supplier, register the
    promise in [pendingFetches]. *)
Definition startFetch (key : string) (customTtl : option Z) (startTime : Z)
    (call : SupplierCall) (s : State) (fs : list Fetch) : CallResult * World :=
  let p := length fs in
  (Awaits p,
   mkWorld (withPending (register key p call) s)
           (fs ++ [mkFetch key customTtl startTime (initialOutcome call) false])).

(** [getOrSet], up to [await fetchPromise]; [call] is what [fetchFn()]
    does if the call gets to invoke it. *)
Definition getOrSet (key : string) (customTtl : option Z) (call : SupplierCall)
    (startTime nowCheck nowTouch nowEnd : Z) (w : World) : CallResult * World :=
  match pendingFetches (st w) !! key with
  | Some p => (Awaits p, w)
  | None =>
      let r := get key nowCheck nowTouch (st w) in
      match r.1 with
      | Some cachedData =>
          if isNull cachedData
          then startFetch key customTtl startTime call r.2 (fetches w)
          else (Returned cachedData,
                mkWorld (updateStats (nowEnd - startTime) r.2) (fetches w))
      | None => startFetch key customTtl startTime call r.2 (fetches w)
      end
  end.

Definition setOutcome (o : Outcome) (f : Fetch) : Fetch :=
  mkFetch (fetchKey f) (fetchTtl f) (fetchStart f) (Some o) (fetchResumed f).

Definition setResumed (f : Fetch) : Fetch :=
  mkFetch (fetchKey f) (fetchTtl f) (fetchStart f) (fetchOutcome f) true.

(** The body of [fetchPromise] after [await fetchFn()]: on success the
    data is stored with its computed size; the [finally] block removes
    the registration in both cases.  A settled promise stays as it is. *)
Definition settleFetch (p : nat) (o : Outcome) (now : Z) (w : World) : World :=
  match fetches w !! p with
  | Some f =>
      match fetchOutcome f with
      | Some _ => w
      | None =>
          let s1 :=
            match o with
            | Fulfilled data =>
                set (fetchKey f) data (fetchTtl f) (Some (calculateSize data)) now (st w)
            | Rejected _ => st w
            end in
          mkWorld (withPending (delete (fetchKey f)) s1)
                  (<[p := setOutcome o f]> (fetches w))
      end
  | None => w
  end.

(** The call that started fetch [p], after [await fetchPromise]: on
    success it records its latency; on failure the exception leaves the
    function before [updateStats]. *)
Definition resumeCaller (p : nat) (nowEnd : Z) (w : World) : World :=
  match fetches w !! p with
  | Some f =>
      match fetchOutcome f, fetchResumed f with
      | Some (Fulfilled _), false =>
          mkWorld (updateStats (nowEnd - fetchStart f) (st w))
                  (<[p := setResumed f]> (fetches w))
      | Some (Rejected _), false =>
          mkWorld (st w) (<[p := setResumed f]> (fetches w))
      | _, _ => w
      end
  | None => w
  end.

(** What every caller that awaits promise [p] observes. *)
Definition observe (r : CallResult) (w : World) : option Outcome :=
  match r with
  | Returned v => Some (Fulfilled v)
  | Awaits p => f ← fetches w !! p; fetchOutcome f
  end.

(** Number of supplier invocations made so far for [key]. *)
Definition supplierRuns (key : string) (w : World) : nat :=
  length (filter (λ f, fetchKey f = key) (fetches w)).

Inductive Event :=
| EvOp (o : Op)
| EvGetOrSet (key : string) (customTtl : option Z) (call : SupplierCall)
             (startTime nowCheck nowTouch nowEnd : Z)
| EvSettle (p : nat) (o : Outcome) (now : Z)
| EvResume (p : nat) (nowEnd : Z).

Definition step (e : Event) (w : World) : World :=
  match e with
  | EvOp o => mkWorld (exec o (st w)) (fetches w)
  | EvGetOrSet key customTtl call startTime nowCheck nowTouch nowEnd =>
      (getOrSet key customTtl call startTime nowCheck nowTouch nowEnd w).2
  | EvSettle p o now => settleFetch p o now w
  | EvResume p nowEnd => resumeCaller p nowEnd w
  end.

(** The world after a list of events, first event first. *)
Definition runEvents (es : list Event) (w : World) : World :=
  foldl (λ w e, step e w) w es.

End WithData.
End Cache.

(* ===================================================================== *)
(** * The async queue *)
(* ===================================================================== *)

Module Queue.
Section WithTask.
Context {Task : Type}.
(** A task is a function that returns a promise, as its type
    [() => Promise<T>] says.  What invoking it does to this queue before
    it returns its promise: the [enqueue] calls it makes synchronously
    (task, priority, id).  A task that does not touch the queue has none.
    A call [item.task()] that throws before it returns a promise is not
    among the tasks of this model. *)
Variable syncSubmits : Task → list (Task * Z * string).
Variable maxConcurrent : Z.

(** A [QueueItem].  [uid] is the identity of the JavaScript object (two
    items may carry the same caller-chosen [id]); [resolve] and [reject]
    belong to the promise returned for this object. *)
Record QueueItem := mkItem {
  uid : nat;
  id : string;
  task : Task;
  priority : Z;
}.

(** The closure variables of createAsyncQueue, and the operations that
    are running: [inFlight] maps the item of a started operation to
    whether its [then]/[catch] callback has run; [dispatched] logs every
    invocation of a task, latest first. *)
Record State := mkState {
  queue : list QueueItem;
  isProcessing : bool;
  activeWorkers : Z;
  completedTasks : nat;
  failedTasks : nat;
  nextUid : nat;
  inFlight : gmap nat bool;
  dispatched : list nat;
}.

Definition init : State := mkState [] false 0 0 0 0 ∅ [].

Definition withQueue (f : list QueueItem → list QueueItem) (s : State) : State :=
  mkState (f (queue s)) (isProcessing s) (activeWorkers s) (completedTasks s)
          (failedTasks s) (nextUid s) (inFlight s) (dispatched s).

Definition withProcessing (b : bool) (s : State) : State :=
  mkState (queue s) b (activeWorkers s) (completedTasks s)
          (failedTasks s) (nextUid s) (inFlight s) (dispatched s).

(** The insertion loop of [enqueue]: splice the item in before the first
    queued item of strictly lower priority, push it at the back when
    there is none. *)
Fixpoint insertItem (item : QueueItem) (q : list QueueItem) : list QueueItem :=
  match q with
  | [] => [item]
  | x :: r =>
      if priority x <? priority item then item :: x :: r
      else x :: insertItem item r
  end.

(** The promise executor of [enqueue] without its final [processQueue()]. *)
Definition submit (t : Task) (p : Z) (taskId : string) (s : State) : State :=
  let item := mkItem (nextUid s) taskId t p in
  mkState (insertItem item (queue s)) (isProcessing s) (activeWorkers s)
          (completedTasks s) (failedTasks s) (S (nextUid s)) (inFlight s)
          (dispatched s).

(** [activeWorkers++; item.task()...]: the operation starts.  The
    [enqueue] calls the task makes while [processQueue] is on the stack
    find [isProcessing] set, so their [processQueue()] returns at its
    guard and only the insertion remains. *)
Definition startTask (item : QueueItem) (s : State) : State :=
  let s1 :=
    mkState (queue s) (isProcessing s) (activeWorkers s + 1) (completedTasks s)
            (failedTasks s) (nextUid s) (<[uid item := false]> (inFlight s))
            (uid item :: dispatched s) in
  foldl (λ s' '(t, p, i), submit t p i s') s1 (syncSubmits (task item)).

(** The [while] loop of [processQueue]. *)
Fixpoint dispatchLoop (fuel : nat) (s : State) : State :=
  match fuel with
  | O => s
  | S fuel' =>
      match queue s with
      | [] => s
      | item :: rest =>
          if activeWorkers s <? maxConcurrent
          then dispatchLoop fuel' (startTask item (withQueue (λ _, rest) s))
          else s
      end
  end.

(** [processQueue].  Every iteration of the loop raises [activeWorkers]
    by one, so [maxConcurrent - activeWorkers] iterations are enough. *)
Definition processQueue (s : State) : State :=
  if isProcessing s || (activeWorkers s >=? maxConcurrent) then s
  else
    let s1 := withProcessing true s in
    let s2 := dispatchLoop (Z.to_nat (maxConcurrent - activeWorkers s1)) s1 in
    withProcessing false s2.

(** [enqueue] called from outside a task; [generated] is the id built from
    the clock and the random source when no [id] is given. *)
Definition enqueue (t : Task) (p : Z) (id_ : option string) (generated : string)
    (s : State) : State :=
  processQueue (submit t p (default generated id_) s).

(** The [then] ([ok = true]) or [catch] callback of a started operation. *)
Definition settleTask (u : nat) (ok : bool) (s : State) : State :=
  match inFlight s !! u with
  | Some false =>
      mkState (queue s) (isProcessing s) (activeWorkers s)
              (if ok then S (completedTasks s) else completedTasks s)
              (if ok then failedTasks s else S (failedTasks s))
              (nextUid s) (<[u := true]> (inFlight s)) (dispatched s)
  | _ => s
  end.

(** [activeWorkers--; isProcessing = false]: the operation is over. *)
Definition releaseWorker (u : nat) (s : State) : State :=
  mkState (queue s) false (activeWorkers s - 1) (completedTasks s)
          (failedTasks s) (nextUid s) (delete u (inFlight s)) (dispatched s).

(** The [finally] callback of a started operation. *)
Definition finalizeTask (u : nat) (s : State) : State :=
  match inFlight s !! u with
  | Some true => processQueue (releaseWorker u s)
  | _ => s
  end.

(** [clear] *)
Definition clear (s : State) : State := withQueue (λ _, []) s.

Inductive Event :=
| EvEnqueue (t : Task) (p : Z) (id_ : option string) (generated : string)
| EvSettle (u : nat) (ok : bool)
| EvFinally (u : nat)
| EvClear.

Definition step (e : Event) (s : State) : State :=
  match e with
  | EvEnqueue t p id_ generated => enqueue t p id_ generated s
  | EvSettle u ok => settleTask u ok s
  | EvFinally u => finalizeTask u s
  | EvClear => clear s
  end.

(** The state after a history of events on a fresh queue, latest first. *)
Fixpoint replay (h : list Event) : State :=
  match h with
  | [] => init
  | e :: h' => step e (replay h')
  end.

End WithTask.
End Queue.

(* ===================================================================== *)
(** * The rate limiter *)
(* ===================================================================== *)

Module RateLimit.

Record RateLimitConfig := mkConfig {
  maxRequests : Z;
  timeWindow : Z;
  burstCapacity : Z;
  burstWindow : Z;
}.

Record RateLimitData := mkData {
  timestamps : list Z;
  burstTimestamps : list Z;
}.

(** A JavaScript number that is an integer or [Infinity] (what
    [Math.min()] of no arguments returns). *)
Inductive JsNum :=
| Finite (z : Z)
| Infinity.

Record RateLimitResult := mkResult {
  allowed : bool;
  retryAfter : JsNum;
  remaining : Z;
  limit : Z;
  reset : JsNum;
}.

(** [Math.min(...l)] *)
Fixpoint Math_min (l : list Z) : JsNum :=
  match l with
  | [] => Infinity
  | t :: r =>
      match Math_min r with
      | Finite m => Finite (Z.min t m)
      | Infinity => Finite t
      end
  end.

(** [Math.ceil(x / 1000)] for an integer [x]. *)
Definition ceilSeconds (x : Z) : Z := - ((- x) / 1000).

(** [Math.ceil((oldest + window - now) / 1000)] *)
Definition retryAfterOf (oldest : JsNum) (window now : Z) : JsNum :=
  match oldest with
  | Finite o => Finite (ceilSeconds (o + window - now))
  | Infinity => Infinity
  end.

(** [now + retryAfter * 1000] *)
Definition resetOf (now : Z) (retry : JsNum) : JsNum :=
  match retry with
  | Finite r => Finite (now + r * 1000)
  | Infinity => Infinity
  end.

Section WithConfig.
Variable config : RateLimitConfig.

Definition deny (now window : Z) (pruned : list Z) : RateLimitResult :=
  let oldest := Math_min pruned in
  let retry := retryAfterOf oldest window now in
  mkResult false retry 0 (maxRequests config) (resetOf now retry).

(** [isAllowed].  [userData] is the record held by the map when the
    client is known, so the two pruning assignments are visible in the
    map even when the request is denied; for an unknown client the
    record is fresh and is stored only by [requests.set]. *)
Definition isAllowed (ip : string) (now : Z) (requests : gmap string RateLimitData)
    : RateLimitResult * gmap string RateLimitData :=
  let userData := default (mkData [] []) (requests !! ip) in
  let ts := filter (λ t, now - t < timeWindow config) (timestamps userData) in
  let bts := filter (λ t, now - t < burstWindow config) (burstTimestamps userData) in
  let requests1 := alter (λ _, mkData ts bts) ip requests in
  if Z.of_nat (length bts) >=? burstCapacity config then
    (deny now (burstWindow config) bts, requests1)
  else if Z.of_nat (length ts) >=? maxRequests config then
    (deny now (timeWindow config) ts, requests1)
  else
    let ts' := ts ++ [now] in
    let bts' := bts ++ [now] in
    (mkResult true (Finite 0)
              (Z.max 0 (maxRequests config - Z.of_nat (length ts')))
              (maxRequests config) (Finite (now + timeWindow config)),
     <[ip := mkData ts' bts']> requests).

(** [cleanup]: prune every record, drop the ones left empty. *)
Definition cleanup (now : Z) (requests : gmap string RateLimitData)
    : gmap string RateLimitData :=
  omap (λ d,
          let ts := filter (λ t, now - t < timeWindow config) (timestamps d) in
          let bts := filter (λ t, now - t < burstWindow config) (burstTimestamps d) in
          if bool_decide (ts = [] ∧ bts = []) then None else Some (mkData ts bts))
       requests.

Inductive Event :=
| EvCheck (ip : string) (now : Z)
| EvCleanup (now : Z).

Definition step (e : Event) (requests : gmap string RateLimitData)
    : gmap string RateLimitData :=
  match e with
  | EvCheck ip now => (isAllowed ip now requests).2
  | EvCleanup now => cleanup now requests
  end.

(** The map after a history of events on a fresh limiter, latest first. *)
Fixpoint replay (h : list Event) : gmap string RateLimitData :=
  match h with
  | [] => ∅
  | e :: h' => step e (replay h')
  end.

End WithConfig.
End RateLimit.

(* ===================================================================== *)
(** * Concrete instances of the three components *)
(* ===================================================================== *)

Module CacheRuns.

(** A cache of numbers with the default options; every value serialises
    to two bytes, none is null, failures carry a message. *)
Definition calculateSize (data : nat) : Z := 2.
Definition isNull (data : nat) : bool := false.
Definition config : CacheOptions.t := Cache.defaultOptions.

Definition replay := Cache.replay calculateSize config.
Definition run := Cache.runEvents (E:=string) calculateSize isNull config.

(** [set("a", 7, undefined, 10)] at time 0, then
    [set("a", 7, undefined, 20)] at time 1. *)
Definition overwrite : list Cache.Op :=
  [Cache.OpSet "a" 7%nat None (Some 20) 1; Cache.OpSet "a" 7%nat None (Some 10) 0].

(** [getOrSet("a", supplier)] at time 0 misses; the supplier resolves with
    7 at time 3; the call resumes at time 5 and records its latency. *)
Definition missThenFetch : list (Cache.Event (T:=nat) (E:=string)) :=
  [Cache.EvGetOrSet "a" None Cache.ReturnsPromise 0 0 0 0;
   Cache.EvSettle 0 (Cache.Fulfilled 7%nat) 3;
   Cache.EvResume 0 5].

(** The scenario of section 8: [maxSize = 2]; [set a], [set b], [get a],
    [set c]. *)
Definition two : CacheOptions.t := CacheOptions.mk 2 60000 10000.
Definition scenario : list Cache.Op :=
  [Cache.OpGet "a" 2 2; Cache.OpSet "b" 2%nat None None 1;
   Cache.OpSet "a" 1%nat None None 0].

End CacheRuns.

Module QueueRuns.

(** Tasks are numbered; task 0 does nothing to the queue, any other task
    submits task 0 with priority 5 while it starts. *)
Definition syncSubmits (t : nat) : list (nat * Z * string) :=
  match t with
  | O => []
  | S _ => [(0%nat, 5, "child")]
  end.

Definition maxConcurrent : Z := 1.

(** Five submissions with priorities 0, 0, 5, 5, 1 on a queue that runs
    one operation at a time. *)
Definition submissions : list (Queue.Event (Task:=nat)) :=
  [Queue.EvEnqueue 0%nat 1 (Some "d") "generated";
   Queue.EvEnqueue 0%nat 5 (Some "c") "generated";
   Queue.EvEnqueue 0%nat 5 (Some "b") "generated";
   Queue.EvEnqueue 0%nat 0 (Some "z") "generated";
   Queue.EvEnqueue 0%nat 0 (Some "a") "generated"].

Definition replay := Queue.replay syncSubmits maxConcurrent.

End QueueRuns.

Module RateLimitRuns.

(** The limiter of the middleware: 10 requests a minute, 5 per 10 s. *)
Definition config : RateLimit.RateLimitConfig :=
  RateLimit.mkConfig 10 60000 5 10000.

(** Five checks of one client within half a second. *)
Definition fiveChecks : list RateLimit.Event :=
  [RateLimit.EvCheck "client" 400; RateLimit.EvCheck "client" 300;
   RateLimit.EvCheck "client" 200; RateLimit.EvCheck "client" 100;
   RateLimit.EvCheck "client" 0].

End RateLimitRuns.

(* ===================================================================== *)
(** * Facts about the list operations of the cache *)
(* ===================================================================== *)

Section ListFacts.

(** The list left by [removeFromAccessOrder]. *)
Definition removeKey (key : string) (l : list string) : list string :=
  match Cache.indexOf key l with
  | Some index => delete index l
  | None => l
  end.

Lemma removeKey_cons key x r :
  removeKey key (x :: r) = if decide (x = key) then r else x :: removeKey key r.
Proof.
  unfold removeKey. simpl. destruct (decide (x = key)) as [->|Hne]; [done|].
  destruct (Cache.indexOf key r); simpl; done.
Qed.

Lemma removeKey_sublist key l : removeKey key l `sublist_of` l.
Proof.
  unfold removeKey. destruct (Cache.indexOf key l); [apply sublist_delete|done].
Qed.

Lemma removeKey_elem_of key l k :
  NoDup l → k ∈ removeKey key l ↔ k ∈ l ∧ k ≠ key.
Proof.
  induction l as [|x r IH]; intros Hnd.
  - unfold removeKey; simpl. set_solver.
  - rewrite removeKey_cons. apply NoDup_cons in Hnd as [Hx Hr].
    destruct (decide (x = key)) as [->|Hne].
    + rewrite elem_of_cons. split.
      * intros Hk. split; [by right|]. intros ->. done.
      * intros [[->|Hk] Hne]; done.
    + rewrite !elem_of_cons, IH by done. naive_solver.
Qed.

Lemma removeKey_not_elem_of key l : key ∉ l → removeKey key l = l.
Proof.
  induction l as [|x r IH]; [done|]. rewrite removeKey_cons.
  rewrite not_elem_of_cons. intros [Hne Hr].
  destruct (decide (x = key)); [congruence|]. by rewrite IH.
Qed.

Lemma removeKey_length key l :
  key ∈ l → S (length (removeKey key l)) = length l.
Proof.
  induction l as [|x r IH]; [by intros ?%elem_of_nil|].
  rewrite removeKey_cons. intros Hk.
  destruct (decide (x = key)) as [->|Hne]; [done|].
  apply elem_of_cons in Hk as [->|Hk]; [done|]. simpl. by rewrite IH.
Qed.

Lemma StronglySorted_sublist {A} (R : relation A) (l1 l2 : list A) :
  l1 `sublist_of` l2 → StronglySorted R l2 → StronglySorted R l1.
Proof.
  induction 1 as [|x l1 l2 Hsub IH|x l1 l2 Hsub IH]; intros Hs.
  - constructor.
  - apply StronglySorted_inv in Hs as [Hs Hall]. constructor; [by apply IH|].
    rewrite Forall_forall in Hall |- *. intros y Hy. apply Hall.
    by eapply elem_of_sublist.
  - apply StronglySorted_inv in Hs as [Hs _]. by apply IH.
Qed.

Lemma removelast_snoc {A} (l : list A) x : removelast (l ++ [x]) = l.
Proof. by rewrite removelast_last. Qed.

End ListFacts.

(* ===================================================================== *)
(** * The cache: invariants of the synchronous operations *)
(* ===================================================================== *)

(** Unfolds the field updates of the cache state, and nothing else. *)
Ltac cache_simpl :=
  cbn [fst snd Cache.cache Cache.accessOrder Cache.stats Cache.pendingFetches
       Cache.totalResponseTime Cache.totalRequests
       Cache.withStats Cache.withCache Cache.withAccessOrder Cache.withPending
       Cache.updateAccessOrder Cache.syncSize Cache.updateStats].

Section CacheInvariants.
Context {T : Type}.
Variable calculateSize : T → Z.
Variable config : CacheOptions.t.

Abbreviation State := (Cache.State (T:=T)).
Implicit Types s : State.

(** The recency list holds exactly the keys of the entry map, once each. *)
Definition Inv (s : State) : Prop :=
  NoDup (Cache.accessOrder s) ∧
  (∀ k, k ∈ Cache.accessOrder s ↔ is_Some (Cache.cache s !! k)).

(** The entry count respects the configured maximum. *)
Definition Bounded (s : State) : Prop :=
  Z.of_nat (size (Cache.cache s)) ≤ CacheOptions.maxSize config.

Lemma Inv_size s : Inv s → size (Cache.cache s) = length (Cache.accessOrder s).
Proof.
  intros [Hnd Hk].
  rewrite <- (size_dom (D := gset string)).
  rewrite <- (size_list_to_set (C := gset string)) by done.
  f_equal. apply set_eq. intros k.
  rewrite elem_of_dom, elem_of_list_to_set. by rewrite Hk.
Qed.

Lemma Inv_init : Inv Cache.init.
Proof.
  split; simpl; [constructor|]. intros k. rewrite lookup_empty.
  split; [by intros ?%elem_of_nil | by intros [? ?]].
Qed.

Lemma Inv_withStats f s : Inv s → Inv (Cache.withStats f s).
Proof. done. Qed.

Lemma accessOrder_remove key s :
  Cache.accessOrder (Cache.removeFromAccessOrder key s)
  = removeKey key (Cache.accessOrder s).
Proof.
  unfold Cache.removeFromAccessOrder, removeKey.
  by destruct (Cache.indexOf key (Cache.accessOrder s)).
Qed.

Lemma cache_remove key s :
  Cache.cache (Cache.removeFromAccessOrder key s) = Cache.cache s.
Proof.
  unfold Cache.removeFromAccessOrder.
  by destruct (Cache.indexOf key (Cache.accessOrder s)).
Qed.

Lemma stats_remove key s :
  Cache.stats (Cache.removeFromAccessOrder key s) = Cache.stats s.
Proof.
  unfold Cache.removeFromAccessOrder.
  by destruct (Cache.indexOf key (Cache.accessOrder s)).
Qed.

Lemma pending_remove key s :
  Cache.pendingFetches (Cache.removeFromAccessOrder key s) = Cache.pendingFetches s.
Proof.
  unfold Cache.removeFromAccessOrder.
  by destruct (Cache.indexOf key (Cache.accessOrder s)).
Qed.

Ltac cache_norm :=
  repeat (progress (cache_simpl;
                    rewrite ?cache_remove, ?accessOrder_remove, ?pending_remove,
                            ?stats_remove)).

(** ** deleteEntry *)

Lemma deleteEntry_cache key s :
  Cache.cache (Cache.deleteEntry key s).2 = delete key (Cache.cache s).
Proof.
  unfold Cache.deleteEntry. destruct (Cache.cache s !! key) eqn:Hk; simpl.
  - by rewrite cache_remove.
  - by rewrite delete_id.
Qed.

Lemma deleteEntry_accessOrder key s :
  Inv s →
  Cache.accessOrder (Cache.deleteEntry key s).2 = removeKey key (Cache.accessOrder s).
Proof.
  intros [Hnd Hk]. unfold Cache.deleteEntry.
  destruct (Cache.cache s !! key) eqn:Hc; simpl.
  - by rewrite accessOrder_remove.
  - rewrite removeKey_not_elem_of; [done|]. rewrite Hk, Hc. by intros [? ?].
Qed.

Lemma deleteEntry_pending key s :
  Cache.pendingFetches (Cache.deleteEntry key s).2 = Cache.pendingFetches s.
Proof.
  unfold Cache.deleteEntry. destruct (Cache.cache s !! key); simpl; [|done].
  by rewrite pending_remove.
Qed.

Lemma deleteEntry_counters key s :
  let st := Cache.stats s in
  let st' := Cache.stats (Cache.deleteEntry key s).2 in
  CacheStats.hits st' = CacheStats.hits st ∧
  CacheStats.misses st' = CacheStats.misses st ∧
  CacheStats.evictions st' = CacheStats.evictions st ∧
  CacheStats.staleEntriesCleaned st' = CacheStats.staleEntriesCleaned st ∧
  CacheStats.averageResponseTime st' = CacheStats.averageResponseTime st.
Proof.
  unfold Cache.deleteEntry. destruct (Cache.cache s !! key); simpl; [|done].
  by rewrite stats_remove.
Qed.

Lemma Inv_deleteEntry key s : Inv s → Inv (Cache.deleteEntry key s).2.
Proof.
  intros HI. pose proof HI as [Hnd Hk]. split.
  - rewrite deleteEntry_accessOrder by done.
    eapply sublist_NoDup; eauto using removeKey_sublist.
  - intros k. rewrite deleteEntry_accessOrder, deleteEntry_cache by done.
    rewrite removeKey_elem_of by done. rewrite Hk.
    destruct (decide (k = key)) as [->|Hne].
    + rewrite lookup_delete_eq. split; [by intros [_ ?] | by intros [? ?]].
    + rewrite lookup_delete_ne by done. naive_solver.
Qed.

Lemma Bounded_deleteEntry key s : Bounded s → Bounded (Cache.deleteEntry key s).2.
Proof.
  unfold Bounded. rewrite deleteEntry_cache. intros Hb.
  pose proof (map_size_delete key (Cache.cache s)) as Hsz.
  destruct (Cache.cache s !! key); simpl in Hsz; lia.
Qed.

(** ** Operations that use a key *)

Lemma Inv_touch s s' key e :
  Inv s →
  Cache.cache s' = <[key := e]> (Cache.cache s) →
  Cache.accessOrder s' = key :: removeKey key (Cache.accessOrder s) →
  Inv s'.
Proof.
  intros [Hnd Hk] Hc Ha. split.
  - rewrite Ha. apply NoDup_cons. split.
    + rewrite removeKey_elem_of by done. by intros [_ ?].
    + eapply sublist_NoDup; eauto using removeKey_sublist.
  - intros k. rewrite Ha, Hc, elem_of_cons, removeKey_elem_of, Hk by done.
    destruct (decide (k = key)) as [->|Hne].
    + rewrite lookup_insert_eq. split; [by eexists | by left].
    + rewrite lookup_insert_ne by done. naive_solver.
Qed.

Lemma size_touch s s' key e :
  Cache.cache s' = <[key := e]> (Cache.cache s) →
  size (Cache.cache s') =
    if Cache.cache s !! key is Some _ then size (Cache.cache s)
    else S (size (Cache.cache s)).
Proof.
  intros ->. rewrite map_size_insert. by destruct (Cache.cache s !! key).
Qed.

(** ** get *)

Lemma get_absent key nowCheck nowTouch s :
  Cache.cache s !! key = None →
  Cache.get key nowCheck nowTouch s = (None, Cache.withStats Cache.addMiss s).
Proof. intros H. unfold Cache.get. by rewrite H. Qed.

Lemma get_expired key nowCheck nowTouch s entry :
  Cache.cache s !! key = Some entry →
  nowCheck > CacheEntry.expiresAt entry →
  Cache.get key nowCheck nowTouch s
  = (None, Cache.withStats Cache.addMiss (Cache.deleteEntry key s).2).
Proof.
  intros H Hgt. unfold Cache.get. rewrite H.
  destruct (Z.gtb_spec nowCheck (CacheEntry.expiresAt entry)); [done|lia].
Qed.

Lemma get_live key nowCheck nowTouch s entry :
  Cache.cache s !! key = Some entry →
  nowCheck ≤ CacheEntry.expiresAt entry →
  Cache.get key nowCheck nowTouch s
  = (Some (CacheEntry.data entry),
     Cache.withStats Cache.addHit
       (Cache.withCache
          (<[key := CacheEntry.mk (CacheEntry.data entry) (CacheEntry.expiresAt entry)
                      nowTouch (CacheEntry.size entry)]>)
          (Cache.updateAccessOrder key s))).
Proof.
  intros H Hle. unfold Cache.get. rewrite H.
  destruct (Z.gtb_spec nowCheck (CacheEntry.expiresAt entry)); [lia|done].
Qed.

(** The three cases of [get], by the entry found and the clock. *)
Lemma get_cases key nowCheck nowTouch s :
  (Cache.cache s !! key = None ∧
   Cache.get key nowCheck nowTouch s = (None, Cache.withStats Cache.addMiss s)) ∨
  (∃ entry, Cache.cache s !! key = Some entry ∧
     nowCheck > CacheEntry.expiresAt entry ∧
     Cache.get key nowCheck nowTouch s
     = (None, Cache.withStats Cache.addMiss (Cache.deleteEntry key s).2)) ∨
  (∃ entry, Cache.cache s !! key = Some entry ∧
     nowCheck ≤ CacheEntry.expiresAt entry ∧
     Cache.get key nowCheck nowTouch s
     = (Some (CacheEntry.data entry),
        Cache.withStats Cache.addHit
          (Cache.withCache
             (<[key := CacheEntry.mk (CacheEntry.data entry)
                         (CacheEntry.expiresAt entry) nowTouch
                         (CacheEntry.size entry)]>)
             (Cache.updateAccessOrder key s)))).
Proof.
  destruct (Cache.cache s !! key) as [entry|] eqn:H.
  - destruct (Z_gt_le_dec nowCheck (CacheEntry.expiresAt entry)).
    + right; left. exists entry. eauto using get_expired.
    + right; right. exists entry. eauto using get_live.
  - left. eauto using get_absent.
Qed.

Lemma Inv_get key nowCheck nowTouch s :
  Inv s → Inv (Cache.get key nowCheck nowTouch s).2.
Proof.
  intros HI.
  destruct (get_cases key nowCheck nowTouch s)
    as [[_ ->]|[(entry & _ & _ & ->)|(entry & _ & _ & ->)]]; simpl.
  - done.
  - apply Inv_withStats, Inv_deleteEntry, HI.
  - eapply (Inv_touch s _ key); [exact HI| |].
    + cbn [snd Cache.cache Cache.withStats Cache.withCache Cache.updateAccessOrder
           Cache.withAccessOrder]. by rewrite cache_remove.
    + cbn [snd Cache.accessOrder Cache.withStats Cache.withCache
           Cache.updateAccessOrder Cache.withAccessOrder].
      by rewrite accessOrder_remove.
Qed.

Lemma Bounded_get key nowCheck nowTouch s :
  Bounded s → Bounded (Cache.get key nowCheck nowTouch s).2.
Proof.
  intros Hb.
  destruct (get_cases key nowCheck nowTouch s)
    as [[_ ->]|[(entry & _ & _ & ->)|(entry & Hk & _ & ->)]]; simpl.
  - done.
  - by apply (Bounded_deleteEntry key) in Hb.
  - unfold Bounded in *.
    cbn [snd Cache.cache Cache.withStats Cache.withCache Cache.updateAccessOrder
         Cache.withAccessOrder]. rewrite cache_remove.
    rewrite map_size_insert, Hk. done.
Qed.

(** ** has *)

Lemma has_cases key now s :
  (Cache.cache s !! key = None ∧ Cache.has key now s = (false, s)) ∨
  (∃ entry, Cache.cache s !! key = Some entry ∧
     now > CacheEntry.expiresAt entry ∧
     Cache.has key now s = (false, (Cache.deleteEntry key s).2)) ∨
  (∃ entry, Cache.cache s !! key = Some entry ∧
     now ≤ CacheEntry.expiresAt entry ∧
     Cache.has key now s = (true, s)).
Proof.
  unfold Cache.has. destruct (Cache.cache s !! key) as [entry|] eqn:H.
  - destruct (Z.gtb_spec now (CacheEntry.expiresAt entry)).
    + right; left. exists entry. split_and!; [done|lia|done].
    + right; right. exists entry. split_and!; [done|lia|done].
  - by left.
Qed.

Lemma Inv_has key now s : Inv s → Inv (Cache.has key now s).2.
Proof.
  intros HI.
  destruct (has_cases key now s)
    as [[_ ->]|[(entry & _ & _ & ->)|(entry & _ & _ & ->)]]; simpl;
    auto using Inv_deleteEntry.
Qed.

Lemma Bounded_has key now s : Bounded s → Bounded (Cache.has key now s).2.
Proof.
  intros HI.
  destruct (has_cases key now s)
    as [[_ ->]|[(entry & _ & _ & ->)|(entry & _ & _ & ->)]]; simpl;
    auto using Bounded_deleteEntry.
Qed.

(** ** evictLRU *)

Lemma evictLRU_nonempty s l lruKey :
  Inv s → Cache.accessOrder s = l ++ [lruKey] →
  ∃ entry, Cache.cache s !! lruKey = Some entry ∧
    Cache.evictLRU s =
      Cache.syncSize
        (Cache.withStats Cache.addEviction
           (Cache.withCache (delete lruKey)
              (Cache.withStats (Cache.addBytes (- CacheEntry.size entry))
                 (Cache.withAccessOrder (λ l, removelast l) s)))).
Proof.
  intros [Hnd Hk] Ha.
  destruct (proj1 (Hk lruKey)) as [entry He].
  { rewrite Ha. set_solver. }
  exists entry. split; [done|].
  unfold Cache.evictLRU. rewrite Ha, last_snoc. cache_simpl. by rewrite He.
Qed.

Lemma Inv_evictLRU s : Inv s → Inv (Cache.evictLRU s).
Proof.
  intros HI. destruct (Cache.accessOrder s) as [|x r] eqn:Ha using rev_ind.
  { unfold Cache.evictLRU. by rewrite Ha. }
  clear IHr. destruct (evictLRU_nonempty s r x HI Ha) as (entry & He & ->).
  destruct HI as [Hnd Hk]. rewrite Ha in Hnd, Hk.
  apply NoDup_app in Hnd as (Hr & Hx & _).
  split; cache_simpl; rewrite Ha, removelast_snoc; [done|].
  intros k. destruct (decide (k = x)) as [->|Hne].
  - rewrite lookup_delete_eq. split; [|by intros [? ?]].
    intros Hin. exfalso. eapply Hx; [done|]. set_solver.
  - rewrite lookup_delete_ne by done. rewrite <- Hk. set_solver.
Qed.

(** ** set *)

(** The state [set] works on after its capacity check. *)
Definition afterCapacityCheck (key : string) (s : State) : State :=
  if (Z.of_nat (size (Cache.cache s)) >=? CacheOptions.maxSize config)
     && negb (bool_decide (is_Some (Cache.cache s !! key)))
  then Cache.evictLRU s else s.

Lemma set_cache key data customTtl size_ now s :
  Cache.cache (Cache.set calculateSize config key data customTtl size_ now s)
  = <[key := Cache.newEntry calculateSize config data customTtl size_ now]>
      (Cache.cache (afterCapacityCheck key s)).
Proof.
  unfold Cache.set. fold (afterCapacityCheck key s).
  destruct (bool_decide _); [|by cache_norm].
  cache_norm. rewrite lookup_insert_eq. by cache_norm.
Qed.

Lemma set_accessOrder key data customTtl size_ now s :
  Cache.accessOrder (Cache.set calculateSize config key data customTtl size_ now s)
  = key :: removeKey key (Cache.accessOrder (afterCapacityCheck key s)).
Proof.
  unfold Cache.set. fold (afterCapacityCheck key s).
  destruct (bool_decide _); [|by cache_norm].
  cache_norm. rewrite lookup_insert_eq. by cache_norm.
Qed.

Lemma set_pending key data customTtl size_ now s :
  Cache.pendingFetches (Cache.set calculateSize config key data customTtl size_ now s)
  = Cache.pendingFetches s.
Proof.
  assert (Cache.pendingFetches (afterCapacityCheck key s) = Cache.pendingFetches s)
    as Hp.
  { unfold afterCapacityCheck. destruct (_ && _); [|done].
    unfold Cache.evictLRU. destruct (last _); [|done]. cache_simpl.
    by destruct (_ !! _). }
  unfold Cache.set. fold (afterCapacityCheck key s).
  destruct (bool_decide _); [|by cache_norm].
  cache_norm. rewrite lookup_insert_eq. by cache_norm.
Qed.

Lemma Inv_afterCapacityCheck key s : Inv s → Inv (afterCapacityCheck key s).
Proof.
  unfold afterCapacityCheck. destruct (_ && _); auto using Inv_evictLRU.
Qed.

Lemma Inv_set key data customTtl size_ now s :
  Inv s → Inv (Cache.set calculateSize config key data customTtl size_ now s).
Proof.
  intros HI. eapply Inv_touch.
  - apply (Inv_afterCapacityCheck key), HI.
  - apply set_cache.
  - apply set_accessOrder.
Qed.

(** Which of the three paths [set] takes. *)
Lemma afterCapacityCheck_cases key s :
  Inv s → 0 < CacheOptions.maxSize config →
  (is_Some (Cache.cache s !! key) ∧ afterCapacityCheck key s = s) ∨
  (Cache.cache s !! key = None ∧
   Z.of_nat (size (Cache.cache s)) < CacheOptions.maxSize config ∧
   afterCapacityCheck key s = s) ∨
  (Cache.cache s !! key = None ∧
   CacheOptions.maxSize config ≤ Z.of_nat (size (Cache.cache s)) ∧
   ∃ l lruKey entry,
     Cache.accessOrder s = l ++ [lruKey] ∧
     Cache.cache s !! lruKey = Some entry ∧
     afterCapacityCheck key s =
       Cache.syncSize
         (Cache.withStats Cache.addEviction
            (Cache.withCache (delete lruKey)
               (Cache.withStats (Cache.addBytes (- CacheEntry.size entry))
                  (Cache.withAccessOrder (λ l, removelast l) s))))).
Proof.
  intros HI Hpos. unfold afterCapacityCheck.
  destruct (Cache.cache s !! key) as [e|] eqn:Hk.
  { left. split; [by eexists|].
    rewrite bool_decide_eq_true_2 by (by eexists). by rewrite andb_false_r. }
  right. rewrite bool_decide_eq_false_2 by (by intros [? ?]). rewrite andb_true_r.
  destruct (Z.geb_spec (Z.of_nat (size (Cache.cache s))) (CacheOptions.maxSize config))
    as [Hge|Hlt].
  - right. split_and!; [done|lia|].
    destruct (Cache.accessOrder s) as [|x r] eqn:Ha using rev_ind.
    { exfalso. rewrite (Inv_size s HI), Ha in Hge. simpl in Hge. lia. }
    clear IHr. destruct (evictLRU_nonempty s r x HI Ha) as (entry & He & Hev).
    by exists r, x, entry.
  - left. done.
Qed.

Lemma Bounded_set key data customTtl size_ now s :
  0 < CacheOptions.maxSize config →
  Inv s → Bounded s →
  Bounded (Cache.set calculateSize config key data customTtl size_ now s).
Proof.
  intros Hpos HI Hb. unfold Bounded in *. rewrite set_cache, map_size_insert.
  destruct (afterCapacityCheck_cases key s HI Hpos)
    as [[[e He] ->]|[(Hk & Hlt & ->)|(Hk & Hge & l & lruKey & entry & Ha & He & ->)]].
  - by rewrite He.
  - rewrite Hk. lia.
  - cache_simpl. rewrite map_size_delete, He.
    destruct (decide (key = lruKey)) as [->|Hne]; [congruence|].
    rewrite lookup_delete_ne, Hk by done. simpl.
    assert (size (Cache.cache s) ≠ 0%nat).
    { intros H0. apply map_size_empty_inv in H0. rewrite H0 in He.
      by rewrite lookup_empty in He. }
    lia.
Qed.

(** ** clear and the sweep *)

Lemma Inv_clear s : Inv (Cache.clear s).
Proof. apply Inv_init. Qed.

Lemma Bounded_clear s : 0 < CacheOptions.maxSize config → Bounded (Cache.clear s).
Proof. unfold Bounded. simpl. rewrite map_size_empty. lia. Qed.

(** A property kept by [deleteEntry] and blind to the stale-cleaned
    counter is kept by the sweep. *)
Lemma cleanup_preserves (P : State → Prop) now s :
  (∀ key s, P s → P (Cache.deleteEntry key s).2) →
  (∀ n s, P s → P (Cache.withStats (Cache.addCleaned n) s)) →
  P s → P (Cache.cleanupStaleEntries now s).
Proof.
  intros Hdel Hstats HP. unfold Cache.cleanupStaleEntries.
  assert (∀ kvs acc, P acc.1 → P (foldl (Cache.cleanupVisit now) acc kvs).1) as Hfold.
  { induction kvs as [|kv kvs IH]; intros acc Hacc; [done|]. simpl. apply IH.
    unfold Cache.cleanupVisit. destruct (_ >? _); simpl; auto. }
  specialize (Hfold (map_to_list (Cache.cache s)) (s, 0%nat) HP).
  destruct (_ <? _)%nat; auto.
Qed.

Lemma Inv_cleanup now s : Inv s → Inv (Cache.cleanupStaleEntries now s).
Proof.
  apply cleanup_preserves; auto using Inv_deleteEntry.
Qed.

Lemma Bounded_cleanup now s : Bounded s → Bounded (Cache.cleanupStaleEntries now s).
Proof.
  apply cleanup_preserves; auto using Bounded_deleteEntry.
Qed.

(** ** Every operation keeps the invariants *)

Lemma Inv_exec o s : Inv s → Inv (Cache.exec calculateSize config o s).
Proof.
  destruct o; simpl;
    auto using Inv_set, Inv_get, Inv_has, Inv_deleteEntry, Inv_clear, Inv_cleanup.
Qed.

Lemma Bounded_exec o s :
  0 < CacheOptions.maxSize config →
  Inv s → Bounded s → Bounded (Cache.exec calculateSize config o s).
Proof.
  destruct o; simpl;
    auto using Bounded_set, Bounded_get, Bounded_has, Bounded_deleteEntry,
               Bounded_clear, Bounded_cleanup.
Qed.

Lemma Inv_replay h : Inv (Cache.replay calculateSize config h).
Proof. induction h; simpl; auto using Inv_init, Inv_exec. Qed.

Lemma Bounded_replay h :
  0 < CacheOptions.maxSize config →
  Bounded (Cache.replay calculateSize config h).
Proof.
  intros Hpos. induction h; simpl.
  - unfold Bounded. simpl. rewrite map_size_empty. lia.
  - auto using Bounded_exec, Inv_replay.
Qed.

(** ** Recency: the order of [accessOrder] is the order of last use *)

Abbreviation replay := (Cache.replay calculateSize config).
Abbreviation exec := (Cache.exec calculateSize config).
Abbreviation age := (Cache.age calculateSize config).

(** [a] was used more recently than [b]. *)
Definition usedAfter (h : list (Cache.Op (T:=T))) (a b : string) : Prop :=
  ∃ x y, age h a = Some x ∧ age h b = Some y ∧ (x < y)%nat.

Definition Recency (h : list (Cache.Op (T:=T))) (l : list string) : Prop :=
  (∀ k, k ∈ l → is_Some (age h k)) ∧ StronglySorted (usedAfter h) l.

Lemma removelast_sublist {A} (l : list A) : removelast l `sublist_of` l.
Proof.
  destruct l as [|x r _] using rev_ind; [done|].
  rewrite removelast_snoc. by apply sublist_inserts_r.
Qed.

Lemma evictLRU_sublist s :
  Cache.accessOrder (Cache.evictLRU s) `sublist_of` Cache.accessOrder s.
Proof.
  unfold Cache.evictLRU. destruct (last _); [|done]. cache_simpl.
  destruct (_ !! _); cache_simpl; apply removelast_sublist.
Qed.

Lemma deleteEntry_sublist key s :
  Cache.accessOrder (Cache.deleteEntry key s).2 `sublist_of` Cache.accessOrder s.
Proof.
  unfold Cache.deleteEntry. destruct (_ !! _); [|done]. cache_norm.
  apply removeKey_sublist.
Qed.

Lemma cleanup_sublist now s :
  Cache.accessOrder (Cache.cleanupStaleEntries now s) `sublist_of` Cache.accessOrder s.
Proof.
  apply (cleanup_preserves
           (λ s', Cache.accessOrder s' `sublist_of` Cache.accessOrder s)).
  - intros key s' Hs'. etrans; [apply deleteEntry_sublist|done].
  - done.
  - done.
Qed.

(** How one operation changes the recency list: the key it uses moves to
    the front, and otherwise keys are only removed. *)
Lemma exec_accessOrder o s :
  Inv s →
  match Cache.touched o s with
  | Some k => ∃ l', Cache.accessOrder (exec o s) = k :: l' ∧
                    l' `sublist_of` Cache.accessOrder s ∧ k ∉ l'
  | None => Cache.accessOrder (exec o s) `sublist_of` Cache.accessOrder s
  end.
Proof.
  intros HI. destruct o as [key data customTtl size_ now|key nowCheck nowTouch
                            |key now|key| |now]; simpl.
  - eexists. split; [apply set_accessOrder|].
    pose proof (Inv_afterCapacityCheck key s HI) as [Hnd _].
    split.
    + etrans; [apply removeKey_sublist|]. unfold afterCapacityCheck.
      destruct (_ && _); [apply evictLRU_sublist|done].
    + rewrite removeKey_elem_of by done. by intros [_ ?].
  - destruct (get_cases key nowCheck nowTouch s)
      as [[_ ->]|[(entry & _ & _ & ->)|(entry & _ & _ & ->)]]; cache_norm.
    + done.
    + apply deleteEntry_sublist.
    + eexists. split; [done|]. split; [apply removeKey_sublist|].
      destruct HI as [Hnd _]. rewrite removeKey_elem_of by done. by intros [_ ?].
  - destruct (has_cases key now s)
      as [[_ ->]|[(entry & _ & _ & ->)|(entry & _ & _ & ->)]]; cache_norm;
      [done|apply deleteEntry_sublist|done].
  - apply deleteEntry_sublist.
  - apply sublist_nil_l.
  - apply cleanup_sublist.
Qed.

Lemma age_cons o h k :
  age (o :: h) k =
    if decide (Cache.touched o (replay h) = Some k) then Some 0%nat
    else S <$> age h k.
Proof. done. Qed.

Lemma StronglySorted_weaken {A} (R R' : relation A) (l : list A) :
  (∀ a b, a ∈ l → b ∈ l → R a b → R' a b) →
  StronglySorted R l → StronglySorted R' l.
Proof.
  induction l as [|x l IH]; intros Himp Hs; [constructor|].
  apply StronglySorted_inv in Hs as [Hs Hall]. constructor.
  - apply IH; [|done]. intros a b Ha Hb. apply Himp; by right.
  - rewrite Forall_forall in Hall |- *. intros y Hy.
    apply Himp; [by left|by right|by apply Hall].
Qed.

Lemma Recency_step o h :
  Recency h (Cache.accessOrder (replay h)) →
  Recency (o :: h) (Cache.accessOrder (replay (o :: h))).
Proof.
  intros [Hage Hsort]. simpl.
  pose proof (exec_accessOrder o (replay h) (Inv_replay h)) as Hacc.
  (* keys that the operation did not use age by one *)
  assert (∀ l, l `sublist_of` Cache.accessOrder (replay h) →
               (∀ k, k ∈ l → Cache.touched o (replay h) ≠ Some k) →
               Recency (o :: h) l) as Hrest.
  { intros l Hsub Hnot. split.
    - intros k Hk. rewrite age_cons. rewrite decide_False by auto.
      destruct (Hage k) as [x ->]; [by eapply elem_of_sublist|]. by eexists.
    - eapply StronglySorted_weaken; [|by eapply StronglySorted_sublist].
      intros a b Ha Hb (x & y & Hx & Hy & Hlt). exists (S x), (S y).
      rewrite !age_cons, !decide_False, Hx, Hy by auto. split_and!; [done..|lia]. }
  destruct (Cache.touched o (replay h)) as [k|] eqn:Ht.
  - destruct Hacc as (l' & -> & Hsub & Hk).
    destruct (Hrest l' Hsub) as [Hage' Hsort'].
    { intros k' Hk' [= ->]. done. }
    split.
    + intros k' [->|Hk']%elem_of_cons; [|by apply Hage'].
      rewrite age_cons, Ht, decide_True by done. by eexists.
    + constructor; [done|]. rewrite Forall_forall. intros b Hb.
      destruct (Hage' b Hb) as [y Hy].
      assert (b ≠ k) by (by intros ->).
      rewrite age_cons, Ht, decide_False in Hy by congruence.
      destruct (age h b) as [y'|] eqn:Hb'; [|done]. simpl in Hy.
      exists 0%nat, (S y'). rewrite !age_cons, Ht, Hb'.
      rewrite decide_True by done. rewrite decide_False by congruence.
      split_and!; [done..|lia].
  - apply Hrest; [done|]. by intros.
Qed.

Lemma Recency_replay h : Recency h (Cache.accessOrder (replay h)).
Proof.
  induction h as [|o h IH]; [|by apply Recency_step].
  split; simpl; [by intros k ?%elem_of_nil|constructor].
Qed.

Lemma set_counters key data customTtl size_ now s :
  let st := Cache.stats (afterCapacityCheck key s) in
  let st' := Cache.stats (Cache.set calculateSize config key data customTtl size_ now s) in
  CacheStats.hits st' = CacheStats.hits st ∧
  CacheStats.misses st' = CacheStats.misses st ∧
  CacheStats.evictions st' = CacheStats.evictions st ∧
  CacheStats.staleEntriesCleaned st' = CacheStats.staleEntriesCleaned st.
Proof.
  unfold Cache.set. fold (afterCapacityCheck key s).
  destruct (bool_decide _); [|by cache_norm].
  cache_norm. rewrite lookup_insert_eq. by cache_norm.
Qed.

(** ** Capacity and eviction *)

(** C2.  With a positive [maxSize], after any history of operations on a
    fresh cache (in particular any sequence of [set] calls) the number of
    live entries is at most [maxSize].  A further [set] of a key that is
    already live, or of a new key below capacity, only inserts the entry
    and evicts nothing.  A [set] of a new key at capacity removes exactly
    one other entry, the live key whose last use (by [set], or by a [get]
    that hit) is older than the last use of every other live key, and
    counts one eviction. *)
Theorem C2_capacity_and_lru_eviction (h : list (Cache.Op (T:=T))) :
  0 < CacheOptions.maxSize config →
  let s := replay h in
  Z.of_nat (size (Cache.cache s)) ≤ CacheOptions.maxSize config ∧
  ∀ key data customTtl size_ now,
    let s' := Cache.set calculateSize config key data customTtl size_ now s in
    let entry := Cache.newEntry calculateSize config data customTtl size_ now in
    Z.of_nat (size (Cache.cache s')) ≤ CacheOptions.maxSize config ∧
    (is_Some (Cache.cache s !! key) ∨
     Z.of_nat (size (Cache.cache s)) < CacheOptions.maxSize config →
       Cache.cache s' = <[key := entry]> (Cache.cache s) ∧
       CacheStats.evictions (Cache.stats s') = CacheStats.evictions (Cache.stats s)) ∧
    (Cache.cache s !! key = None →
     CacheOptions.maxSize config ≤ Z.of_nat (size (Cache.cache s)) →
       ∃ lruKey,
         last (Cache.accessOrder s) = Some lruKey ∧
         is_Some (Cache.cache s !! lruKey) ∧
         (∀ k, is_Some (Cache.cache s !! k) → k ≠ lruKey → usedAfter h k lruKey) ∧
         Cache.cache s' = <[key := entry]> (delete lruKey (Cache.cache s)) ∧
         CacheStats.evictions (Cache.stats s')
         = S (CacheStats.evictions (Cache.stats s))).
Proof.
  intros Hpos s. pose proof (Inv_replay h) as HI. fold s in HI.
  split; [by apply Bounded_replay|].
  intros key data customTtl size_ now s' entry.
  split; [apply (Bounded_replay (Cache.OpSet key data customTtl size_ now :: h) Hpos)|].
  pose proof (set_counters key data customTtl size_ now s) as (_ & _ & Hev & _).
  pose proof (set_cache key data customTtl size_ now s) as Hc.
  fold s' entry in Hc, Hev. simpl in Hev.
  destruct (afterCapacityCheck_cases key s HI Hpos)
    as [[Hsome Heq]|[(Hk & Hlt & Heq)|(Hk & Hge & l & lruKey & e & Ha & He & Heq)]];
    rewrite Heq in Hc, Hev.
  - split; [done|]. intros Hnone. destruct Hsome as [? ?]. congruence.
  - split; [done|]. intros _ Hge. lia.
  - split.
    { intros [[? ?]|Hlt]; [congruence|lia]. }
    intros _ _. exists lruKey. split_and!.
    + by rewrite Ha, last_snoc.
    + by eexists.
    + intros k Hlive Hne.
      destruct (Recency_replay h) as [_ Hsort]. fold s in Hsort. rewrite Ha in Hsort.
      eapply StronglySorted_app_1_elem_of; [exact Hsort| |by left].
      destruct HI as [_ Hkeys]. apply Hkeys in Hlive. rewrite Ha in Hlive.
      set_solver.
    + exact Hc.
    + exact Hev.
Qed.

(** ** Expiry *)

(** Every entry held for [key] expires at [x]. *)
Definition ExpiresAt (key : string) (x : Z) (s : State) : Prop :=
  ∀ e, Cache.cache s !! key = Some e → CacheEntry.expiresAt e = x.

Definition setsKey (key : string) (o : Cache.Op (T:=T)) : Prop :=
  match o with
  | Cache.OpSet k _ _ _ _ => k = key
  | _ => False
  end.

Lemma ExpiresAt_deleteEntry key x k s :
  ExpiresAt key x s → ExpiresAt key x (Cache.deleteEntry k s).2.
Proof.
  intros H e. rewrite deleteEntry_cache. intros He.
  apply lookup_delete_Some in He as [_ He]. by apply H.
Qed.

Lemma ExpiresAt_evictLRU key x s :
  ExpiresAt key x s → ExpiresAt key x (Cache.evictLRU s).
Proof.
  intros H e. unfold Cache.evictLRU.
  destruct (last _) as [lruKey|]; [|apply H]. cache_simpl.
  destruct (Cache.cache s !! lruKey); cache_simpl; [|apply H].
  intros He. apply lookup_delete_Some in He as [_ He]. by apply H.
Qed.

Lemma ExpiresAt_exec key x o s :
  ¬ setsKey key o → ExpiresAt key x s → ExpiresAt key x (exec o s).
Proof.
  intros Hno H.
  destruct o as [k data customTtl size_ now|k nowCheck nowTouch|k now|k| |now]; simpl.
  - simpl in Hno. intros e. rewrite set_cache, lookup_insert_ne by done.
    unfold afterCapacityCheck. destruct (_ && _); [|apply H].
    by apply ExpiresAt_evictLRU.
  - destruct (get_cases k nowCheck nowTouch s)
      as [[_ ->]|[(entry & _ & _ & ->)|(entry & Hk & _ & ->)]].
    + done.
    + by apply (ExpiresAt_deleteEntry key x k) in H.
    + intros e. cache_norm. destruct (decide (k = key)) as [->|Hne].
      * rewrite lookup_insert_eq. intros [= <-]. simpl. by apply H.
      * rewrite lookup_insert_ne by done. apply H.
  - destruct (has_cases k now s)
      as [[_ ->]|[(entry & _ & _ & ->)|(entry & _ & _ & ->)]];
      cbn [snd]; auto using ExpiresAt_deleteEntry.
  - by apply ExpiresAt_deleteEntry.
  - intros e. simpl. by rewrite lookup_empty.
  - apply cleanup_preserves; auto using ExpiresAt_deleteEntry.
Qed.

Lemma ExpiresAt_set key data customTtl size_ now s :
  ExpiresAt key (now + js_or customTtl (CacheOptions.ttl config))
    (Cache.set calculateSize config key data customTtl size_ now s).
Proof. intros e. rewrite set_cache, lookup_insert_eq. by intros [= <-]. Qed.

Lemma ExpiresAt_replay key x mid h :
  Forall (λ o, ¬ setsKey key o) mid →
  ExpiresAt key x (replay h) → ExpiresAt key x (replay (mid ++ h)).
Proof.
  induction 1 as [|o mid Ho Hmid IH]; intros H; [done|].
  simpl. apply ExpiresAt_exec; auto.
Qed.

Lemma get_stale key x nowCheck nowTouch s :
  Inv s → ExpiresAt key x s → nowCheck > x →
  let r := Cache.get key nowCheck nowTouch s in
  r.1 = None ∧
  CacheStats.misses (Cache.stats r.2) = S (CacheStats.misses (Cache.stats s)) ∧
  CacheStats.hits (Cache.stats r.2) = CacheStats.hits (Cache.stats s) ∧
  Cache.cache r.2 !! key = None ∧
  key ∉ Cache.accessOrder r.2.
Proof.
  intros HI Hx Hgt r. pose proof (Inv_get key nowCheck nowTouch s HI) as [_ Hkeys].
  fold r in Hkeys.
  assert (r.1 = None ∧
          CacheStats.misses (Cache.stats r.2) = S (CacheStats.misses (Cache.stats s)) ∧
          CacheStats.hits (Cache.stats r.2) = CacheStats.hits (Cache.stats s) ∧
          Cache.cache r.2 !! key = None) as (H1 & H2 & H3 & H4).
  { subst r.
    destruct (get_cases key nowCheck nowTouch s)
      as [[Hk ->]|[(entry & Hk & _ & ->)|(entry & Hk & Hle & _)]].
    - done.
    - pose proof (deleteEntry_counters key s) as (Hh & Hm & _). cache_simpl.
      simpl. rewrite Hm, Hh, deleteEntry_cache, lookup_delete_eq. done.
    - apply Hx in Hk. lia. }
  split_and!; [done..|]. rewrite Hkeys, H4. by intros [? ?].
Qed.

Lemma has_stale key x now s :
  Inv s → ExpiresAt key x s → now > x →
  let r := Cache.has key now s in
  r.1 = false ∧ Cache.cache r.2 !! key = None ∧ key ∉ Cache.accessOrder r.2.
Proof.
  intros HI Hx Hgt r. pose proof (Inv_has key now s HI) as [_ Hkeys].
  fold r in Hkeys.
  assert (r.1 = false ∧ Cache.cache r.2 !! key = None) as (H1 & H2).
  { subst r.
    destruct (has_cases key now s)
      as [[Hk ->]|[(entry & Hk & _ & ->)|(entry & Hk & Hle & _)]].
    - done.
    - simpl. by rewrite deleteEntry_cache, lookup_delete_eq.
    - apply Hx in Hk. lia. }
  split_and!; [done..|]. rewrite Hkeys, H2. by intros [? ?].
Qed.

(** C8.  Let [key] be stored by [set] at time [setTime] with effective TTL
    [t] (the custom TTL, or the default when none or 0 is given), and let
    any operations follow that do not [set] the same key again.  Once
    [now - setTime > t], [get key] returns null, counts one miss and no
    hit, and leaves no entry for [key] in the map or in the recency list;
    [has key] returns false and likewise leaves no entry.  No sweep is
    needed: the history may or may not contain one. *)
Theorem C8_expired_entry_misses
    (h mid : list (Cache.Op (T:=T))) key data customTtl size_ setTime now nowTouch :
  let t := js_or customTtl (CacheOptions.ttl config) in
  Forall (λ o, ¬ setsKey key o) mid →
  now - setTime > t →
  let s := replay (mid ++ Cache.OpSet key data customTtl size_ setTime :: h) in
  let g := Cache.get key now nowTouch s in
  let b := Cache.has key now s in
  (g.1 = None ∧
   CacheStats.misses (Cache.stats g.2) = S (CacheStats.misses (Cache.stats s)) ∧
   CacheStats.hits (Cache.stats g.2) = CacheStats.hits (Cache.stats s) ∧
   Cache.cache g.2 !! key = None ∧
   key ∉ Cache.accessOrder g.2) ∧
  (b.1 = false ∧ Cache.cache b.2 !! key = None ∧ key ∉ Cache.accessOrder b.2).
Proof.
  intros t Hmid Hgt s g b.
  assert (ExpiresAt key (setTime + t) s) as Hx.
  { apply ExpiresAt_replay; [done|]. simpl. apply ExpiresAt_set. }
  pose proof (Inv_replay (mid ++ Cache.OpSet key data customTtl size_ setTime :: h)) as HI.
  split.
  - apply (get_stale key (setTime + t) now nowTouch s HI Hx). lia.
  - apply (has_stale key (setTime + t) now s HI Hx). lia.
Qed.

(** ** has *)

(** C10.  On a live entry [has] returns true and hands back the very state
    it was given: recency list, entries (with their [lastAccessed]) and
    counters are untouched.  On an expired entry it returns false and
    deletes the entry, and the hit, miss, eviction and stale-cleaned
    counters keep their values. *)
Theorem C10_has_frame key now (s : State) entry :
  Cache.cache s !! key = Some entry →
  (now ≤ CacheEntry.expiresAt entry → Cache.has key now s = (true, s)) ∧
  (now > CacheEntry.expiresAt entry →
     let r := Cache.has key now s in
     r.1 = false ∧
     Cache.cache r.2 = delete key (Cache.cache s) ∧
     CacheStats.hits (Cache.stats r.2) = CacheStats.hits (Cache.stats s) ∧
     CacheStats.misses (Cache.stats r.2) = CacheStats.misses (Cache.stats s) ∧
     CacheStats.evictions (Cache.stats r.2) = CacheStats.evictions (Cache.stats s) ∧
     CacheStats.staleEntriesCleaned (Cache.stats r.2)
     = CacheStats.staleEntriesCleaned (Cache.stats s)).
Proof.
  intros Hk. unfold Cache.has. rewrite Hk.
  destruct (Z.gtb_spec now (CacheEntry.expiresAt entry)) as [Hgt|Hle].
  - split; [lia|]. intros _. cbn [fst snd].
    pose proof (deleteEntry_counters key s) as (? & ? & ? & ? & _).
    by rewrite deleteEntry_cache.
  - split; [done|]. lia.
Qed.

(** ** What the operations leave alone *)

Lemma get_pending key nowCheck nowTouch s :
  Cache.pendingFetches (Cache.get key nowCheck nowTouch s).2 = Cache.pendingFetches s.
Proof.
  destruct (get_cases key nowCheck nowTouch s)
    as [[_ ->]|[(entry & _ & _ & ->)|(entry & _ & _ & ->)]]; cache_norm;
    [done|apply deleteEntry_pending|done].
Qed.

Lemma has_pending key now s :
  Cache.pendingFetches (Cache.has key now s).2 = Cache.pendingFetches s.
Proof.
  destruct (has_cases key now s)
    as [[_ ->]|[(entry & _ & _ & ->)|(entry & _ & _ & ->)]]; cache_norm;
    [done|apply deleteEntry_pending|done].
Qed.

Lemma cleanup_pending now s :
  Cache.pendingFetches (Cache.cleanupStaleEntries now s) = Cache.pendingFetches s.
Proof.
  apply (cleanup_preserves (λ s', Cache.pendingFetches s' = Cache.pendingFetches s)).
  - intros key s' <-. apply deleteEntry_pending.
  - done.
  - done.
Qed.

Lemma exec_pending o s :
  o ≠ Cache.OpClear →
  Cache.pendingFetches (exec o s) = Cache.pendingFetches s.
Proof.
  destruct o; simpl; intros Hne;
    auto using set_pending, get_pending, has_pending, deleteEntry_pending,
               cleanup_pending.
  done.
Qed.

(** The field [stats.averageResponseTime] is never assigned anything but
    0: no operation changes it, and [clear] resets it to 0. *)
Definition AvgZero (s : State) : Prop :=
  CacheStats.averageResponseTime (Cache.stats s) = 0%Q.

Lemma AvgZero_withStats_counter s f :
  (∀ st, CacheStats.averageResponseTime (f st) = CacheStats.averageResponseTime st) →
  AvgZero s → AvgZero (Cache.withStats f s).
Proof. unfold AvgZero. cache_simpl. intros ->. done. Qed.

Lemma AvgZero_deleteEntry key s : AvgZero s → AvgZero (Cache.deleteEntry key s).2.
Proof.
  unfold AvgZero. pose proof (deleteEntry_counters key s) as (_ & _ & _ & _ & ->).
  done.
Qed.

Lemma AvgZero_evictLRU s : AvgZero s → AvgZero (Cache.evictLRU s).
Proof.
  unfold AvgZero, Cache.evictLRU. destruct (last _) as [lruKey|]; [|done].
  cache_simpl. by destruct (Cache.cache s !! lruKey).
Qed.

Lemma AvgZero_set key data customTtl size_ now s :
  AvgZero s → AvgZero (Cache.set calculateSize config key data customTtl size_ now s).
Proof.
  intros H.
  assert (AvgZero (afterCapacityCheck key s)) as H'.
  { unfold afterCapacityCheck. destruct (_ && _); auto using AvgZero_evictLRU. }
  unfold AvgZero in *. unfold Cache.set. fold (afterCapacityCheck key s).
  destruct (bool_decide _); [|by cache_norm].
  cache_norm. rewrite lookup_insert_eq. by cache_norm.
Qed.

Lemma AvgZero_get key nowCheck nowTouch s :
  AvgZero s → AvgZero (Cache.get key nowCheck nowTouch s).2.
Proof.
  intros H.
  destruct (get_cases key nowCheck nowTouch s)
    as [[_ ->]|[(entry & _ & _ & ->)|(entry & _ & _ & ->)]]; cbn [snd].
  - done.
  - by apply (AvgZero_deleteEntry key) in H.
  - unfold AvgZero in *. by cache_norm.
Qed.

Lemma AvgZero_exec o s : AvgZero s → AvgZero (exec o s).
Proof.
  destruct o as [key data customTtl size_ now|key nowCheck nowTouch|key now|key| |now];
    simpl; intros H.
  - by apply AvgZero_set.
  - by apply AvgZero_get.
  - destruct (has_cases key now s)
      as [[_ ->]|[(entry & _ & _ & ->)|(entry & _ & _ & ->)]]; cbn [snd];
      auto using AvgZero_deleteEntry.
  - by apply AvgZero_deleteEntry.
  - done.
  - apply cleanup_preserves; auto using AvgZero_deleteEntry.
Qed.

(** An overwriting [set] leaves the byte total as it was: the size it
    subtracts is read back from the map after the new entry was stored. *)
Lemma set_overwrite_totalSizeBytes key data customTtl size_ now s :
  is_Some (Cache.cache s !! key) →
  CacheStats.totalSizeBytes
    (Cache.stats (Cache.set calculateSize config key data customTtl size_ now s))
  = CacheStats.totalSizeBytes (Cache.stats s).
Proof.
  intros Hk. unfold Cache.set.
  rewrite (bool_decide_eq_true_2 _ Hk), andb_false_r.
  rewrite (bool_decide_eq_true_2 _ Hk).
  cache_norm. rewrite lookup_insert_eq. cache_norm. simpl. lia.
Qed.

(** ** The byte total *)

(** The sum of the sizes of the live entries. *)
Definition sumSizes (m : gmap string (CacheEntry.t T)) : Z :=
  map_fold (λ _ entry acc, CacheEntry.size entry + acc) 0 m.

Definition liveBytes (s : State) : Z := sumSizes (Cache.cache s).

(** [stats.totalSizeBytes] is the sum of the sizes of the live entries. *)
Definition BytesExact (s : State) : Prop :=
  CacheStats.totalSizeBytes (Cache.stats s) = liveBytes s.

Lemma sumSizes_insert_None m k e :
  m !! k = None → sumSizes (<[k := e]> m) = CacheEntry.size e + sumSizes m.
Proof.
  intros Hk. unfold sumSizes. rewrite map_fold_insert_L; [done| |done].
  intros. lia.
Qed.

Lemma sumSizes_delete m k e :
  m !! k = Some e → sumSizes m = CacheEntry.size e + sumSizes (delete k m).
Proof.
  intros Hk. unfold sumSizes. rewrite (map_fold_delete_L _ _ k e m); [done| |done].
  intros. lia.
Qed.

Lemma sumSizes_insert_Some m k e e' :
  m !! k = Some e →
  sumSizes (<[k := e']> m) = sumSizes m - CacheEntry.size e + CacheEntry.size e'.
Proof.
  intros Hk. rewrite <- insert_delete_eq.
  rewrite sumSizes_insert_None by apply lookup_delete_eq.
  rewrite (sumSizes_delete m k e Hk). lia.
Qed.

Lemma BytesExact_deleteEntry key s :
  BytesExact s → BytesExact (Cache.deleteEntry key s).2.
Proof.
  unfold BytesExact, liveBytes, Cache.deleteEntry.
  destruct (Cache.cache s !! key) as [e|] eqn:Hk; [|done]. cache_norm. simpl.
  rewrite (sumSizes_delete _ key e Hk). lia.
Qed.

Lemma BytesExact_evictLRU s : BytesExact s → BytesExact (Cache.evictLRU s).
Proof.
  unfold BytesExact, liveBytes, Cache.evictLRU.
  destruct (last _) as [lruKey|]; [|done]. cache_simpl.
  destruct (Cache.cache s !! lruKey) as [e|] eqn:Hk; [|done]. cache_simpl. simpl.
  rewrite (sumSizes_delete _ lruKey e Hk). lia.
Qed.

Lemma BytesExact_get key nowCheck nowTouch s :
  BytesExact s → BytesExact (Cache.get key nowCheck nowTouch s).2.
Proof.
  intros H.
  destruct (get_cases key nowCheck nowTouch s)
    as [[_ ->]|[(entry & _ & _ & ->)|(entry & Hk & _ & ->)]]; cbn [snd].
  - done.
  - by apply (BytesExact_deleteEntry key) in H.
  - unfold BytesExact, liveBytes in *. cache_norm. simpl.
    rewrite (sumSizes_insert_Some _ key entry) by done. simpl. lia.
Qed.

(** A [set] that does not overwrite a live entry keeps the total exact. *)
Lemma BytesExact_set_new key data customTtl size_ now s :
  Cache.cache s !! key = None →
  BytesExact s →
  BytesExact (Cache.set calculateSize config key data customTtl size_ now s).
Proof.
  intros Hk H.
  assert (BytesExact (afterCapacityCheck key s) ∧
          Cache.cache (afterCapacityCheck key s) !! key = None) as [H' Hk'].
  { unfold afterCapacityCheck. destruct (_ && _); [|done].
    split; [by apply BytesExact_evictLRU|].
    unfold Cache.evictLRU. destruct (last _) as [lruKey|]; [|done]. cache_simpl.
    destruct (Cache.cache s !! lruKey); cache_simpl; [|done].
    by apply lookup_delete_None; right. }
  unfold BytesExact, liveBytes in *. rewrite set_cache.
  rewrite sumSizes_insert_None by done.
  unfold Cache.set. fold (afterCapacityCheck key s).
  rewrite bool_decide_eq_false_2 by (rewrite Hk'; by intros [? ?]).
  cache_norm. simpl. lia.
Qed.

(** An overwriting [set] gives the live bytes the new size for the old one,
    and leaves the total as it was: the total stays exact only when the
    two sizes are equal. *)
Lemma set_overwrite_liveBytes key data customTtl size_ now s old :
  Cache.cache s !! key = Some old →
  let s' := Cache.set calculateSize config key data customTtl size_ now s in
  liveBytes s' = liveBytes s - CacheEntry.size old
                 + js_or size_ (calculateSize data) ∧
  CacheStats.totalSizeBytes (Cache.stats s') = CacheStats.totalSizeBytes (Cache.stats s).
Proof.
  intros Hk s'. split.
  - unfold liveBytes. subst s'. rewrite set_cache. unfold afterCapacityCheck.
    rewrite bool_decide_eq_true_2 by (by eexists). rewrite andb_false_r.
    by rewrite (sumSizes_insert_Some _ key old).
  - apply set_overwrite_totalSizeBytes. by eexists.
Qed.

(** [o] overwrites a live entry of [s]. *)
Definition overwrites (o : Cache.Op (T:=T)) (s : State) : Prop :=
  match o with
  | Cache.OpSet key _ _ _ _ => is_Some (Cache.cache s !! key)
  | _ => False
  end.

Lemma BytesExact_exec o s :
  ¬ overwrites o s → BytesExact s → BytesExact (exec o s).
Proof.
  destruct o as [key data customTtl size_ now|key nowCheck nowTouch|key now|key| |now];
    simpl; intros Hno H.
  - apply BytesExact_set_new; [|done].
    destruct (Cache.cache s !! key); [|done]. exfalso. apply Hno. by eexists.
  - by apply BytesExact_get.
  - destruct (has_cases key now s)
      as [[_ ->]|[(entry & _ & _ & ->)|(entry & _ & _ & ->)]]; cbn [snd];
      auto using BytesExact_deleteEntry.
  - by apply BytesExact_deleteEntry.
  - done.
  - apply cleanup_preserves; auto using BytesExact_deleteEntry.
Qed.

End CacheInvariants.

(* ===================================================================== *)
(** * The cache: getOrSet and its in-flight fetches *)
(* ===================================================================== *)

Section CacheWorld.
Context {T E : Type}.
Variable calculateSize : T → Z.
Variable isNull : T → bool.
Variable config : CacheOptions.t.

Abbreviation State := (Cache.State (T:=T)).
Abbreviation World := (Cache.World (T:=T) (E:=E)).
Abbreviation Event := (Cache.Event (T:=T) (E:=E)).
Abbreviation Fetch := (Cache.Fetch (T:=T) (E:=E)).
Abbreviation getOrSet := (Cache.getOrSet isNull).
Abbreviation settleFetch := (Cache.settleFetch calculateSize config).
Abbreviation step := (Cache.step calculateSize isNull config).
Abbreviation runEvents := (Cache.runEvents calculateSize isNull config).
Implicit Types (s : State) (w : World) (f : Fetch) (e : Event).
Implicit Types (call : Cache.SupplierCall (E:=E)).

(** [key] has no live entry for a caller whose expiry test reads [now]. *)
Definition NoLiveEntry (key : string) (now : Z) (s : State) : Prop :=
  ∀ entry, Cache.cache s !! key = Some entry → now > CacheEntry.expiresAt entry.

(** Every fetch for [key] that was started has settled. *)
Definition NoFetchInFlight (key : string) (w : World) : Prop :=
  ∀ q f, Cache.fetches w !! q = Some f → Cache.fetchKey f = key →
         is_Some (Cache.fetchOutcome f).

(** The events that may occur while fetch [p] is in flight: anything but
    [clear], and not yet the settlement of [p] itself. *)
Definition InWindow (p : nat) (e : Event) : Prop :=
  e ≠ Cache.EvOp Cache.OpClear ∧ ∀ o now, e ≠ Cache.EvSettle p o now.

Lemma runEvents_app es1 es2 w :
  runEvents (es1 ++ es2) w = runEvents es2 (runEvents es1 w).
Proof. unfold Cache.runEvents. apply foldl_app. Qed.

Lemma runEvents_cons e es w : runEvents (e :: es) w = runEvents es (step e w).
Proof. done. Qed.

(** ** The synchronous part of getOrSet *)

Lemma register_eq key p call (pending : gmap string nat) :
  Cache.register key p call pending !! key = Some p.
Proof. destruct call; apply lookup_insert_eq. Qed.

Lemma register_ne k key p call (pending : gmap string nat) :
  k ≠ key → Cache.register k p call pending !! key = pending !! key.
Proof.
  intros Hne. destruct call; simpl.
  - by rewrite lookup_insert_ne, lookup_delete_ne.
  - by rewrite lookup_insert_ne.
Qed.

(** On a key that is not registered, the [delete] of the [finally] block
    removes nothing. *)
Lemma register_free key p call (pending : gmap string nat) :
  pending !! key = None → Cache.register key p call pending = <[key := p]> pending.
Proof. intros Hk. destruct call; simpl; [by rewrite delete_id|done]. Qed.

Lemma getOrSet_joins key customTtl call t0 t1 t2 t3 w p :
  Cache.pendingFetches (Cache.st w) !! key = Some p →
  getOrSet key customTtl call t0 t1 t2 t3 w = (Cache.Awaits p, w).
Proof. intros H. unfold Cache.getOrSet. by rewrite H. Qed.

Lemma getOrSet_starts key customTtl call t0 t1 t2 t3 w :
  Cache.pendingFetches (Cache.st w) !! key = None →
  NoLiveEntry key t1 (Cache.st w) →
  getOrSet key customTtl call t0 t1 t2 t3 w
  = Cache.startFetch key customTtl t0 call (Cache.get key t1 t2 (Cache.st w)).2
      (Cache.fetches w).
Proof.
  intros Hp Hlive. unfold Cache.getOrSet. rewrite Hp.
  destruct (get_cases key t1 t2 (Cache.st w))
    as [[_ ->]|[(entry & _ & _ & ->)|(entry & Hk & Hle & _)]]; [done..|].
  apply Hlive in Hk. lia.
Qed.

(** Whatever path it takes, a call changes the world in one of three ways. *)
Lemma getOrSet_cases key customTtl call t0 t1 t2 t3 w :
  let r := getOrSet key customTtl call t0 t1 t2 t3 w in
  (∃ p, Cache.pendingFetches (Cache.st w) !! key = Some p ∧ r = (Cache.Awaits p, w)) ∨
  (∃ v, Cache.pendingFetches (Cache.st w) !! key = None ∧
        r = (Cache.Returned v,
             Cache.mkWorld (Cache.updateStats (t3 - t0) (Cache.get key t1 t2 (Cache.st w)).2)
                           (Cache.fetches w))) ∨
  (Cache.pendingFetches (Cache.st w) !! key = None ∧
   r = Cache.startFetch key customTtl t0 call (Cache.get key t1 t2 (Cache.st w)).2
         (Cache.fetches w)).
Proof.
  unfold Cache.getOrSet.
  destruct (Cache.pendingFetches (Cache.st w) !! key) as [p|] eqn:Hp.
  { left. by exists p. }
  right. destruct ((Cache.get key t1 t2 (Cache.st w)).1) as [v|]; [|by right].
  destruct (isNull v); [by right|]. left. by exists v.
Qed.

(** ** Counting supplier invocations *)

Lemma supplierRuns_snoc key w s f :
  Cache.supplierRuns key (Cache.mkWorld s (Cache.fetches w ++ [f])) =
    if decide (Cache.fetchKey f = key) then S (Cache.supplierRuns key w)
    else Cache.supplierRuns key w.
Proof.
  unfold Cache.supplierRuns. cbn [Cache.fetches].
  rewrite filter_app, length_app.
  rewrite filter_cons, filter_nil. destruct (decide _); simpl; lia.
Qed.

Lemma count_insert_same_key key (fs : list Fetch) q f f' :
  fs !! q = Some f → Cache.fetchKey f' = Cache.fetchKey f →
  length (filter (λ f, Cache.fetchKey f = key) (<[q := f']> fs))
  = length (filter (λ f, Cache.fetchKey f = key) fs).
Proof.
  revert q. induction fs as [|x fs IH]; intros q Hq Hkey; [done|].
  destruct q as [|q]; simpl in *.
  - injection Hq as ->. rewrite !filter_cons, Hkey. by destruct (decide _).
  - rewrite !filter_cons. destruct (decide _); simpl; by rewrite IH.
Qed.

(** ** A settled promise stays settled *)

Lemma observe_Awaits p w o :
  Cache.observe (Cache.Awaits p) w = Some o ↔
  ∃ f, Cache.fetches w !! p = Some f ∧ Cache.fetchOutcome f = Some o.
Proof.
  unfold Cache.observe. destruct (Cache.fetches w !! p) as [f|]; simpl.
  - split; [by exists f|]. by intros (f' & [= <-] & ?).
  - split; [done|]. by intros (f' & ? & ?).
Qed.

Lemma getOrSet_fetches_prefix key customTtl call t0 t1 t2 t3 w :
  ∃ suffix, Cache.fetches (getOrSet key customTtl call t0 t1 t2 t3 w).2
            = Cache.fetches w ++ suffix.
Proof.
  destruct (getOrSet_cases key customTtl call t0 t1 t2 t3 w)
    as [(p & _ & ->)|[(v & _ & ->)|(_ & ->)]]; simpl.
  - exists []. by rewrite app_nil_r.
  - exists []. by rewrite app_nil_r.
  - by eexists.
Qed.

Lemma observe_step p o e w :
  Cache.observe (Cache.Awaits p) w = Some o →
  Cache.observe (Cache.Awaits p) (step e w) = Some o.
Proof.
  rewrite !observe_Awaits. intros (f & Hf & Ho).
  destruct e as [op|key customTtl call t0 t1 t2 t3|q o' now|q nowEnd]; simpl.
  - by exists f.
  - destruct (getOrSet_fetches_prefix key customTtl call t0 t1 t2 t3 w) as [suffix ->].
    exists f. split; [|done]. by apply lookup_app_l_Some.
  - unfold Cache.settleFetch.
    destruct (Cache.fetches w !! q) as [g|] eqn:Hq; [|by exists f].
    destruct (Cache.fetchOutcome g) eqn:Hg; [by exists f|]. simpl.
    exists f. split; [|done]. rewrite list_lookup_insert_ne; [done|].
    intros ->. congruence.
  - unfold Cache.resumeCaller.
    destruct (Cache.fetches w !! q) as [g|] eqn:Hq; [|by exists f].
    destruct (decide (q = p)) as [->|Hne].
    + assert (g = f) as -> by congruence. rewrite Ho.
      destruct o as [v|r];
        (destruct (Cache.fetchResumed f); [by exists f|]); simpl;
        exists (Cache.setResumed f);
        (split; [apply list_lookup_insert_eq; by eapply lookup_lt_Some|done]).
    + destruct (Cache.fetchOutcome g) as [[v|r]|]; [| |by exists f];
        (destruct (Cache.fetchResumed g); [by exists f|]); simpl;
        exists f; by rewrite list_lookup_insert_ne.
Qed.

Lemma observe_run p o es w :
  Cache.observe (Cache.Awaits p) w = Some o →
  Cache.observe (Cache.Awaits p) (runEvents es w) = Some o.
Proof.
  revert w. induction es as [|e es IH]; intros w H; [done|].
  rewrite runEvents_cons. by apply IH, observe_step.
Qed.

(** ** Settling a fetch *)

Lemma settleFetch_pending p f o now w :
  Cache.fetches w !! p = Some f → Cache.fetchOutcome f = None →
  Cache.pendingFetches (Cache.st (settleFetch p o now w))
  = delete (Cache.fetchKey f) (Cache.pendingFetches (Cache.st w)).
Proof.
  intros Hf Ho. unfold Cache.settleFetch. rewrite Hf, Ho. cache_simpl.
  cbn [Cache.st]. cache_simpl. destruct o as [data|reason]; [|done].
  by rewrite (set_pending calculateSize config).
Qed.

Lemma settleFetch_fetches p f o now w :
  Cache.fetches w !! p = Some f → Cache.fetchOutcome f = None →
  Cache.fetches (settleFetch p o now w) = <[p := Cache.setOutcome o f]> (Cache.fetches w).
Proof. intros Hf Ho. unfold Cache.settleFetch. by rewrite Hf, Ho. Qed.

Lemma settleFetch_observe p f o now w :
  Cache.fetches w !! p = Some f → Cache.fetchOutcome f = None →
  Cache.observe (Cache.Awaits p) (settleFetch p o now w) = Some o.
Proof.
  intros Hf Ho. apply observe_Awaits. rewrite (settleFetch_fetches p f) by done.
  exists (Cache.setOutcome o f). split; [|done].
  apply list_lookup_insert_eq. by eapply lookup_lt_Some.
Qed.

Lemma settleFetch_settled p f o now w :
  Cache.fetches w !! p = Some f → is_Some (Cache.fetchOutcome f) →
  settleFetch p o now w = w.
Proof. intros Hf [o' Ho]. unfold Cache.settleFetch. by rewrite Hf, Ho. Qed.

(** ** The window in which a fetch is in flight *)

(** Fetch [p] is the fetch registered for [key], its promise is in state
    [o0] (pending, or rejected at once because the supplier threw), every
    other fetch for [key] has settled, and the supplier has run [n] times
    for [key]. *)
Definition Window (key : string) (p : nat) (o0 : option (Cache.Outcome (T:=T) (E:=E)))
    (n : nat) (w : World) : Prop :=
  Cache.pendingFetches (Cache.st w) !! key = Some p ∧
  (∃ f, Cache.fetches w !! p = Some f ∧ Cache.fetchKey f = key ∧
        Cache.fetchOutcome f = o0) ∧
  (∀ q f, q ≠ p → Cache.fetches w !! q = Some f → Cache.fetchKey f = key →
          is_Some (Cache.fetchOutcome f)) ∧
  Cache.supplierRuns key w = n.

Lemma Window_open key customTtl call t0 t1 t2 t3 w :
  Cache.pendingFetches (Cache.st w) !! key = None →
  NoFetchInFlight key w →
  NoLiveEntry key t1 (Cache.st w) →
  let r := getOrSet key customTtl call t0 t1 t2 t3 w in
  r.1 = Cache.Awaits (length (Cache.fetches w)) ∧
  Window key (length (Cache.fetches w)) (Cache.initialOutcome call)
         (S (Cache.supplierRuns key w)) r.2.
Proof.
  intros Hp Hnone Hlive r. subst r. rewrite getOrSet_starts by done.
  unfold Cache.startFetch. cbn [fst snd]. split; [done|].
  split_and!; cbn [Cache.st Cache.fetches]; cache_simpl.
  - apply register_eq.
  - eexists. split; [rewrite lookup_app_r by done; by rewrite Nat.sub_diag|done].
  - intros q f Hq Hf Hkey. apply (Hnone q f); [|done].
    apply lookup_app_Some in Hf as [Hf|[Hge Hf]]; [done|].
    apply list_lookup_singleton_Some in Hf as [Hz _]. lia.
  - rewrite supplierRuns_snoc. simpl. by rewrite decide_True.
Qed.

(** The events that leave the registration of promise [p] alone: anything
    but [clear], and not the settlement of [p] if it is pending. *)
Definition KeepsWindow (p : nat) (o0 : option (Cache.Outcome (T:=T) (E:=E)))
    (e : Event) : Prop :=
  e ≠ Cache.EvOp Cache.OpClear ∧ (o0 = None → ∀ o now, e ≠ Cache.EvSettle p o now).

Lemma InWindow_KeepsWindow p o0 e : InWindow p e → KeepsWindow p o0 e.
Proof. intros [? ?]. by split. Qed.

Lemma Window_step key p o0 n e w :
  KeepsWindow p o0 e → Window key p o0 n w → Window key p o0 n (step e w).
Proof.
  intros [Hclear Hsettle] (Hp & (fp & Hfp & Hkp & Hop) & Hothers & Hruns).
  destruct e as [op|k customTtl call t0 t1 t2 t3|q o now|q nowEnd]; simpl.
  - split_and!; cbn [Cache.st Cache.fetches]; [|by exists fp|done|done].
    rewrite (exec_pending calculateSize config); [done|]. by intros ->.
  - destruct (getOrSet_cases k customTtl call t0 t1 t2 t3 w)
      as [(p' & _ & ->)|[(v & _ & ->)|(Hk & ->)]]; cbn [snd].
    + split_and!; [done|by exists fp|done|done].
    + split_and!; cbn [Cache.st Cache.fetches]; cache_simpl;
        [by rewrite get_pending|by exists fp|done|done].
    + assert (k ≠ key) as Hne by (intros ->; congruence).
      unfold Cache.startFetch. cbn [snd].
      split_and!; cbn [Cache.st Cache.fetches]; cache_simpl.
      * by rewrite register_ne, get_pending.
      * exists fp. split; [by apply lookup_app_l_Some|done].
      * intros q f Hq Hf Hkey.
        apply lookup_app_Some in Hf as [Hf|[Hge Hf]]; [by eapply Hothers|].
        apply list_lookup_singleton_Some in Hf as [_ <-]. simpl in Hkey. done.
      * rewrite supplierRuns_snoc. simpl. by rewrite decide_False.
  - destruct (Cache.fetches w !! q) as [g|] eqn:Hq;
      [|unfold Cache.settleFetch; rewrite Hq;
        split_and!; [done|by exists fp|done|done]].
    destruct (Cache.fetchOutcome g) as [o'|] eqn:Hg.
    { rewrite (settleFetch_settled q g) by (by rewrite ?Hg).
      split_and!; [done|by exists fp|done|done]. }
    assert (q ≠ p) as Hne.
    { intros ->. assert (g = fp) as -> by congruence.
      eapply Hsettle; [congruence|done]. }
    assert (Cache.fetchKey g ≠ key) as Hgk.
    { intros Hgk. destruct (Hothers q g Hne Hq Hgk) as [? ?]. congruence. }
    split_and!.
    + rewrite (settleFetch_pending q g) by done. by rewrite lookup_delete_ne.
    + exists fp. rewrite (settleFetch_fetches q g) by done.
      by rewrite list_lookup_insert_ne.
    + intros q' f Hq' Hf Hkey. rewrite (settleFetch_fetches q g) in Hf by done.
      destruct (decide (q' = q)) as [->|Hqq].
      * rewrite list_lookup_insert_eq in Hf by (by eapply lookup_lt_Some).
        injection Hf as <-. simpl in Hkey. done.
      * rewrite list_lookup_insert_ne in Hf by done. by eapply Hothers.
    + unfold Cache.supplierRuns. rewrite (settleFetch_fetches q g) by done.
      by rewrite (count_insert_same_key key _ q g).
  - unfold Cache.resumeCaller.
    destruct (Cache.fetches w !! q) as [g|] eqn:Hq;
      [|split_and!; [done|by exists fp|done|done]].
    assert (∀ s', Cache.pendingFetches s' = Cache.pendingFetches (Cache.st w) →
              Window key p o0 n
                (Cache.mkWorld s' (<[q := Cache.setResumed g]> (Cache.fetches w))))
      as Hgoal.
    { intros s' Hs'. split_and!; cbn [Cache.st Cache.fetches].
      - by rewrite Hs'.
      - destruct (decide (q = p)) as [->|Hqp].
        + exists (Cache.setResumed g). assert (g = fp) as -> by congruence.
          split; [|done]. apply list_lookup_insert_eq. by eapply lookup_lt_Some.
        + exists fp. by rewrite list_lookup_insert_ne.
      - intros q' f Hq' Hf Hkey. destruct (decide (q' = q)) as [->|Hqq].
        + rewrite list_lookup_insert_eq in Hf by (by eapply lookup_lt_Some).
          injection Hf as <-. simpl in *. by eapply Hothers.
        + rewrite list_lookup_insert_ne in Hf by done. by eapply Hothers.
      - unfold Cache.supplierRuns. cbn [Cache.fetches].
        by rewrite (count_insert_same_key key _ q g). }
    destruct (Cache.fetchOutcome g) as [[v|r]|];
      [| |split_and!; [done|by exists fp|done|done]];
      (destruct (Cache.fetchResumed g);
       [split_and!; [done|by exists fp|done|done]|]); by apply Hgoal.
Qed.

Lemma Window_run key p o0 n es w :
  Forall (KeepsWindow p o0) es → Window key p o0 n w →
  Window key p o0 n (runEvents es w).
Proof.
  intros Hes. revert w. induction Hes as [|e es He Hes IH]; intros w Hw; [done|].
  rewrite runEvents_cons. by apply IH, Window_step.
Qed.

(** ** Histories in which clear never drops a fetch for the key *)

(** Every unsettled fetch for [key] is the one registered for [key]. *)
Definition Registered (key : string) (w : World) : Prop :=
  ∀ q f, Cache.fetches w !! q = Some f → Cache.fetchKey f = key →
         Cache.fetchOutcome f = None →
         Cache.pendingFetches (Cache.st w) !! key = Some q.

(** [clear] is only ever called when no fetch for [key] is in flight. *)
Fixpoint ClearsWhenIdle (key : string) (es : list Event) (w : World) : Prop :=
  match es with
  | [] => True
  | e :: es' =>
      (e = Cache.EvOp Cache.OpClear → NoFetchInFlight key w) ∧
      ClearsWhenIdle key es' (step e w)
  end.

Lemma Registered_step key e w :
  (e = Cache.EvOp Cache.OpClear → NoFetchInFlight key w) →
  Registered key w → Registered key (step e w).
Proof.
  intros Hclear Hreg.
  destruct e as [op|k customTtl call t0 t1 t2 t3|q0 o now|q0 nowEnd]; simpl.
  - intros q f Hf Hkey Ho. cbn [Cache.st Cache.fetches] in *.
    assert (op = Cache.OpClear ∨ op ≠ Cache.OpClear) as [->|Hop]
      by (destruct op; auto).
    + destruct (Hclear eq_refl q f Hf Hkey) as [? ?]. congruence.
    + rewrite (exec_pending calculateSize config) by done. by eapply Hreg.
  - destruct (getOrSet_cases k customTtl call t0 t1 t2 t3 w)
      as [(p' & _ & ->)|[(v & _ & ->)|(Hk & ->)]]; cbn [snd]; [done| |].
    + intros q f Hf Hkey Ho. cbn [Cache.st Cache.fetches] in *. cache_simpl.
      rewrite get_pending. by eapply Hreg.
    + unfold Cache.startFetch. cbn [snd]. intros q f Hf Hkey Ho.
      cbn [Cache.st Cache.fetches] in *. cache_simpl. rewrite get_pending.
      apply lookup_app_Some in Hf as [Hf|[Hge Hf]].
      * specialize (Hreg q f Hf Hkey Ho).
        rewrite register_ne; [done|]. intros ->. congruence.
      * apply list_lookup_singleton_Some in Hf as [Hz <-]. simpl in *. subst k.
        rewrite register_eq. f_equal. lia.
  - destruct (Cache.fetches w !! q0) as [g|] eqn:Hq0;
      [|by unfold Cache.settleFetch; rewrite Hq0].
    destruct (Cache.fetchOutcome g) as [o'|] eqn:Hg.
    { by rewrite (settleFetch_settled q0 g) by (by rewrite ?Hg). }
    intros q f Hf Hkey Ho. rewrite (settleFetch_pending q0 g) by done.
    rewrite (settleFetch_fetches q0 g) in Hf by done.
    destruct (decide (q = q0)) as [->|Hne].
    + rewrite list_lookup_insert_eq in Hf by (by eapply lookup_lt_Some).
      injection Hf as <-. done.
    + rewrite list_lookup_insert_ne in Hf by done.
      pose proof (Hreg q f Hf Hkey Ho) as Hq.
      rewrite lookup_delete_ne; [done|]. intros Heq.
      pose proof (Hreg q0 g Hq0 Heq Hg). congruence.
  - unfold Cache.resumeCaller.
    destruct (Cache.fetches w !! q0) as [g|] eqn:Hq0; [|done].
    assert (∀ s', Cache.pendingFetches s' = Cache.pendingFetches (Cache.st w) →
              Registered key
                (Cache.mkWorld s' (<[q0 := Cache.setResumed g]> (Cache.fetches w))))
      as Hgoal.
    { intros s' Hs' q f Hf Hkey Ho. cbn [Cache.st Cache.fetches] in *. rewrite Hs'.
      destruct (decide (q = q0)) as [->|Hne].
      - rewrite list_lookup_insert_eq in Hf by (by eapply lookup_lt_Some).
        injection Hf as <-. simpl in *. by eapply Hreg.
      - rewrite list_lookup_insert_ne in Hf by done. by eapply Hreg. }
    destruct (Cache.fetchOutcome g) as [[v|r]|]; [| |done];
      (destruct (Cache.fetchResumed g); [done|]); by apply Hgoal.
Qed.

Lemma Registered_run key es w :
  ClearsWhenIdle key es w → Registered key w → Registered key (runEvents es w).
Proof.
  revert w. induction es as [|e es IH]; intros w Hes Hw; [done|].
  destruct Hes as [He Hes]. rewrite runEvents_cons. by apply IH, Registered_step.
Qed.

Lemma Registered_init key : Registered key Cache.initWorld.
Proof. intros q f Hf. simpl in Hf. by rewrite lookup_nil in Hf. Qed.

(** In a history in which [clear] never dropped a fetch for [key], a key
    with no registration has no fetch in flight. *)
Lemma NoFetchInFlight_unless_dropped es key :
  ClearsWhenIdle key es Cache.initWorld →
  let w := runEvents es Cache.initWorld in
  Cache.pendingFetches (Cache.st w) !! key = None →
  NoFetchInFlight key w.
Proof.
  intros Hes w Hp q f Hf Hkey.
  pose proof (Registered_run key es _ Hes (Registered_init key) q f Hf Hkey) as Hreg.
  destruct (Cache.fetchOutcome f) as [o|]; [by eexists|].
  specialize (Hreg eq_refl). fold w in Hreg. congruence.
Qed.

(** ** Registrations without a fetch in flight *)

(** A call of [getOrSet key] whose supplier throws if it is invoked. *)
Definition throwsFor (key : string) (e : Event) : Prop :=
  ∃ customTtl reason t0 t1 t2 t3,
    e = Cache.EvGetOrSet key customTtl (Cache.Throws reason) t0 t1 t2 t3.

(** The promise registered for [key] is the promise of a fetch in
    flight. *)
Definition RegisteredInFlight (key : string) (w : World) : Prop :=
  ∀ p, Cache.pendingFetches (Cache.st w) !! key = Some p →
       ∃ f, Cache.fetches w !! p = Some f ∧ Cache.fetchKey f = key ∧
            Cache.fetchOutcome f = None.

Lemma RegisteredInFlight_step key e w :
  ¬ throwsFor key e → RegisteredInFlight key w → RegisteredInFlight key (step e w).
Proof.
  intros Hthrows Hreg.
  destruct e as [op|k customTtl call t0 t1 t2 t3|q0 o now|q0 nowEnd]; simpl.
  - intros p. cbn [Cache.st Cache.fetches].
    assert (op = Cache.OpClear ∨ op ≠ Cache.OpClear) as [->|Hop]
      by (destruct op; auto).
    + simpl. by rewrite lookup_empty.
    + rewrite (exec_pending calculateSize config) by done. apply Hreg.
  - destruct (getOrSet_cases k customTtl call t0 t1 t2 t3 w)
      as [(p' & _ & ->)|[(v & _ & ->)|(Hk & ->)]]; cbn [snd]; [done| |].
    + intros p. cbn [Cache.st Cache.fetches]. cache_simpl. rewrite get_pending.
      apply Hreg.
    + unfold Cache.startFetch. cbn [snd]. intros p.
      cbn [Cache.st Cache.fetches]. cache_simpl.
      destruct (decide (k = key)) as [->|Hne].
      * rewrite register_eq. intros [= <-].
        destruct call as [reason|]; [destruct Hthrows; by repeat eexists|].
        eexists. split; [by apply list_lookup_middle|done].
      * rewrite register_ne, get_pending by done. intros Hp.
        destruct (Hreg p Hp) as (f & Hf & ? & ?). exists f.
        split; [by apply lookup_app_l_Some|done].
  - destruct (Cache.fetches w !! q0) as [g|] eqn:Hq0;
      [|by unfold Cache.settleFetch; rewrite Hq0].
    destruct (Cache.fetchOutcome g) as [o'|] eqn:Hg.
    { by rewrite (settleFetch_settled q0 g) by (by rewrite ?Hg). }
    intros p. rewrite (settleFetch_pending q0 g), (settleFetch_fetches q0 g) by done.
    rewrite lookup_delete_Some. intros [Hne Hp].
    destruct (Hreg p Hp) as (f & Hf & Hkey & Ho). exists f.
    split; [|done]. rewrite list_lookup_insert_ne; [done|]. intros ->. congruence.
  - unfold Cache.resumeCaller.
    destruct (Cache.fetches w !! q0) as [g|] eqn:Hq0; [|done].
    assert (∀ s', Cache.pendingFetches s' = Cache.pendingFetches (Cache.st w) →
              RegisteredInFlight key
                (Cache.mkWorld s' (<[q0 := Cache.setResumed g]> (Cache.fetches w))))
      as Hgoal.
    { intros s' Hs' p. cbn [Cache.st Cache.fetches]. rewrite Hs'. intros Hp.
      destruct (Hreg p Hp) as (f & Hf & Hkey & Ho).
      destruct (decide (p = q0)) as [->|Hne].
      - exists (Cache.setResumed g). assert (g = f) as -> by congruence.
        split; [|done]. apply list_lookup_insert_eq. by eapply lookup_lt_Some.
      - exists f. by rewrite list_lookup_insert_ne. }
    destruct (Cache.fetchOutcome g) as [[v|r]|]; [| |done];
      (destruct (Cache.fetchResumed g); [done|]); by apply Hgoal.
Qed.

(** As long as no supplier for [key] has thrown, a promise is registered
    for [key] only while its fetch is in flight. *)
Lemma registered_only_in_flight_unless_thrown es key :
  Forall (λ e, ¬ throwsFor key e) es →
  RegisteredInFlight key (runEvents es Cache.initWorld).
Proof.
  assert (RegisteredInFlight key (Cache.initWorld (T:=T) (E:=E))) as H0.
  { intros p. simpl. by rewrite lookup_empty. }
  revert H0. generalize (Cache.initWorld (T:=T) (E:=E)).
  induction es as [|e es IH]; intros w Hw Hes; [done|].
  apply Forall_cons in Hes as [He Hes]. rewrite runEvents_cons.
  apply IH; [|done]. by apply RegisteredInFlight_step.
Qed.

(** ** Single flight *)

(** C3, as amended.  Let a call of [getOrSet key] find no live entry for
    [key], no promise registered for [key], and every earlier fetch for
    [key] settled (the last is the case when [clear] never dropped a fetch
    for [key]; and as long as no supplier for [key] has thrown, a promise
    is registered only while its fetch is in flight).  The call invokes
    the supplier and awaits the promise [p] of the fetch.  From then on,
    as long as [clear] is not called and [p] is not settled, whatever
    else happens (operations on any key, calls for other keys, other
    fetches settling) every further call of [getOrSet key] awaits the same
    promise [p] without invoking its supplier and without changing
    anything, so the supplier has run exactly once for [key] however many
    callers there are.  All the callers observe the same outcome: when
    the supplier returned a promise, [p] is pending, and the outcome it
    is settled with, value or failure, is what every caller observes, then
    and ever after; when the supplier threw, [p] is rejected from the
    start and every caller observes that failure. *)
Theorem C3_single_flight_without_clear
    key customTtl call t0 t1 t2 t3 (w : World) (es : list Event) :
  Cache.pendingFetches (Cache.st w) !! key = None →
  NoFetchInFlight key w →
  NoLiveEntry key t1 (Cache.st w) →
  Forall (InWindow (length (Cache.fetches w))) es →
  let p := length (Cache.fetches w) in
  let first := getOrSet key customTtl call t0 t1 t2 t3 w in
  let w' := runEvents es first.2 in
  first.1 = Cache.Awaits p ∧
  Cache.supplierRuns key w' = S (Cache.supplierRuns key w) ∧
  (∀ customTtl' call' t0' t1' t2' t3',
     getOrSet key customTtl' call' t0' t1' t2' t3' w' = (Cache.Awaits p, w')) ∧
  Cache.observe (Cache.Awaits p) w' = Cache.initialOutcome call ∧
  (∀ o es', Cache.observe (Cache.Awaits p) w' = Some o →
            Cache.observe (Cache.Awaits p) (runEvents es' w') = Some o) ∧
  (call = Cache.ReturnsPromise →
   ∀ o now es',
     Cache.observe (Cache.Awaits p) (runEvents es' (settleFetch p o now w')) = Some o).
Proof.
  intros Hp Hnone Hlive Hes p first w'.
  destruct (Window_open key customTtl call t0 t1 t2 t3 w Hp Hnone Hlive)
    as [Hfirst Hopen].
  fold first p in Hfirst, Hopen.
  pose proof (Window_run key p _ _ es first.2
                (Forall_impl _ _ _ Hes (InWindow_KeepsWindow p _)) Hopen)
    as (Hreg & (f & Hf & Hkey & Ho) & _ & Hruns).
  fold w' in Hreg, Hf, Hruns.
  split_and!; [done|done| | | |].
  - intros. by apply getOrSet_joins.
  - unfold Cache.observe. by rewrite Hf.
  - intros o es' Hobs. by apply observe_run.
  - intros -> o now es'. apply observe_run. by eapply settleFetch_observe.
Qed.

(** ** Failure of the supplier *)


(** ** The average response time *)

Lemma AvgZero_step e w : AvgZero (Cache.st w) → AvgZero (Cache.st (step e w)).
Proof.
  intros H. destruct e as [op|k customTtl call t0 t1 t2 t3|q o now|q nowEnd]; simpl.
  - by apply AvgZero_exec.
  - pose proof (AvgZero_get k t1 t2 (Cache.st w) H) as Hget.
    destruct (getOrSet_cases k customTtl call t0 t1 t2 t3 w)
      as [(p' & _ & ->)|[(v & _ & ->)|(Hk & ->)]]; cbn [snd]; done.
  - unfold Cache.settleFetch. destruct (Cache.fetches w !! q) as [g|]; [|done].
    destruct (Cache.fetchOutcome g); [done|]. cbn [Cache.st].
    destruct o as [data|reason]; [|done].
    by apply (AvgZero_set calculateSize config).
  - unfold Cache.resumeCaller. destruct (Cache.fetches w !! q) as [g|]; [|done].
    destruct (Cache.fetchOutcome g) as [[v|r]|]; [| |done];
      by destruct (Cache.fetchResumed g).
Qed.

(** Whatever latencies [updateStats] has accumulated, [getStats] reports
    an average of 0: it divides [stats.averageResponseTime], which nothing
    ever assigns, and not [totalResponseTime]. *)
Lemma getStats_average_is_zero (es : list Event) :
  let s := Cache.st (runEvents es Cache.initWorld) in
  (CacheStats.averageResponseTime (Cache.getStats s) == 0)%Q.
Proof.
  intros s.
  assert (AvgZero s) as H.
  { subst s.
    assert (AvgZero (Cache.st (Cache.initWorld (T:=T) (E:=E)))) as H0 by done.
    revert H0. generalize (Cache.initWorld (T:=T) (E:=E)).
    induction es as [|e es IH]; intros w Hw; [done|].
    rewrite runEvents_cons. by apply IH, AvgZero_step. }
  unfold Cache.getStats. cbn [CacheStats.averageResponseTime]. rewrite H.
  destruct (_ <? _)%nat; [|reflexivity]. unfold Qdiv. apply Qmult_0_l.
Qed.

End CacheWorld.

(* ===================================================================== *)
(** * The theorems on concrete runs *)
(* ===================================================================== *)

(** C1.  After [set] stores key "a" with size 10 and a second [set]
    overwrites it with size 20, the one live entry has 20 bytes while
    [getStats().totalSizeBytes] still reports 10: the prior size was not
    subtracted and the new size not added. *)
Theorem C1_overwrite_leaves_stale_byte_total :
  let s := CacheRuns.replay CacheRuns.overwrite in
  dom (Cache.cache s) = {["a"]} ∧
  liveBytes s = 20 ∧
  CacheStats.totalSizeBytes (Cache.getStats s) = 10.
Proof. vm_compute. split_and!; reflexivity. Qed.

(** C7.  After one miss whose fetch took 5 ms, the recorded latencies total
    5 and there is one miss and no hit, yet [getStats().averageResponseTime]
    is 0, not 5 / 1. *)
Theorem C7_average_response_time_reads_zero :
  let s := Cache.st (CacheRuns.run CacheRuns.missThenFetch Cache.initWorld) in
  let stats := Cache.getStats s in
  Cache.totalResponseTime s = 5 ∧
  (CacheStats.hits stats + CacheStats.misses stats = 1)%nat ∧
  CacheStats.averageResponseTime stats = 0%Q ∧
  ¬ (CacheStats.averageResponseTime stats
     == inject_Z (Cache.totalResponseTime s)
        / inject_Z (Z.of_nat (CacheStats.hits stats + CacheStats.misses stats)))%Q.
Proof.
  vm_compute. split_and!; [reflexivity..|]. intros H. discriminate H.
Qed.

(** C3, as stated, fails.  Two callers ask for "k", which has no live
    entry; [clear] runs between the two calls.  The first call's fetch is
    still in flight when the second call arrives, yet the second call
    invokes the supplier again: it has run twice, the callers await
    different promises, and they can observe different results. *)
Lemma C3_counterexample_clear_between_calls :
  let first := Cache.getOrSet CacheRuns.isNull "k" None Cache.ReturnsPromise 0 0 0 0
                 (Cache.initWorld (T:=nat) (E:=string)) in
  let cleared := CacheRuns.run [Cache.EvOp Cache.OpClear] first.2 in
  let second := Cache.getOrSet CacheRuns.isNull "k" None Cache.ReturnsPromise 1 1 1 1 cleared in
  let settled := CacheRuns.run [Cache.EvSettle 0 (Cache.Fulfilled 10%nat) 2;
                                Cache.EvSettle 1 (Cache.Fulfilled 11%nat) 3] second.2 in
  Cache.cache (Cache.st cleared) !! "k" = None ∧
  Cache.observe first.1 cleared = None ∧
  Cache.supplierRuns "k" second.2 = 2%nat ∧
  first.1 = Cache.Awaits 0 ∧
  second.1 = Cache.Awaits 1 ∧
  Cache.observe first.1 settled = Some (Cache.Fulfilled 10%nat) ∧
  Cache.observe second.1 settled = Some (Cache.Fulfilled 11%nat).
Proof. vm_compute. split_and!; reflexivity. Qed.


(** The scenario of section 8 as an instance of C2: with [maxSize = 2],
    after [set a], [set b], [get a] the cache is full, and [set c] evicts
    "b". *)
Lemma C2_witness_scenario :
  let s := Cache.replay CacheRuns.calculateSize CacheRuns.two CacheRuns.scenario in
  let s' := Cache.set CacheRuns.calculateSize CacheRuns.two "c" 3%nat None None 3 s in
  0 < CacheOptions.maxSize CacheRuns.two ∧
  Z.of_nat (size (Cache.cache s)) ≤ 2 ∧
  Cache.cache s' =
    <["c" := Cache.newEntry CacheRuns.calculateSize CacheRuns.two 3%nat None None 3]>
      (delete "b" (Cache.cache s)).
Proof.
  intros s s'.
  assert (0 < CacheOptions.maxSize CacheRuns.two) as Hpos by reflexivity.
  destruct (C2_capacity_and_lru_eviction CacheRuns.calculateSize CacheRuns.two
              CacheRuns.scenario Hpos) as [Hbound Hset].
  split; [exact Hpos|]. split; [exact Hbound|].
  destruct (Hset "c" 3%nat None None 3) as (_ & _ & Hevict).
  destruct Hevict as (lruKey & Hlast & _ & _ & Hcache & _).
  - reflexivity.
  - intros H. discriminate H.
  - assert (lruKey = "b") as -> by (vm_compute in Hlast; congruence).
    exact Hcache.
Defined.

(** An instance of C8: "a" is stored at time 0 with a TTL of 50 ms and read
    once at time 1; at time 60 it is a miss for [get] and for [has]. *)
Lemma C8_witness_ttl_50 :
  let s := Cache.replay CacheRuns.calculateSize CacheRuns.config
             ([Cache.OpGet "a" 1 1] ++ Cache.OpSet "a" 7%nat (Some 50) None 0 :: []) in
  60 - 0 > js_or (Some 50) (CacheOptions.ttl CacheRuns.config) ∧
  (Cache.get "a" 60 60 s).1 = None ∧
  (Cache.has "a" 60 s).1 = false.
Proof.
  intros s.
  assert (60 - 0 > js_or (Some 50) (CacheOptions.ttl CacheRuns.config)) as Hgt
    by reflexivity.
  assert (Forall (λ o, ¬ setsKey (T:=nat) "a" o) [Cache.OpGet "a" 1 1]) as Hmid.
  { constructor; [|constructor]. intros H. exact H. }
  destruct (C8_expired_entry_misses CacheRuns.calculateSize CacheRuns.config
              [] [Cache.OpGet "a" 1 1] "a" 7%nat (Some 50) None 0 60 60 Hmid Hgt)
    as [(Hget & _) (Hhas & _)].
  split; [exact Hgt|]. split; [exact Hget|exact Hhas].
Defined.

(** An instance of C10: "a" is stored at time 0 with the default TTL; at
    time 5 [has] answers true and returns the state unchanged. *)
Lemma C10_witness_live :
  let s := CacheRuns.replay [Cache.OpSet "a" 7%nat None None 0] in
  let entry := Cache.newEntry CacheRuns.calculateSize CacheRuns.config 7%nat None None 0 in
  Cache.cache s !! "a" = Some entry ∧ Cache.has "a" 5 s = (true, s).
Proof.
  intros s entry.
  assert (Cache.cache s !! "a" = Some entry) as Hk by reflexivity.
  split; [exact Hk|].
  apply (C10_has_frame "a" 5 s entry Hk). intros H. discriminate H.
Defined.

(** An instance of the amended C3: on a fresh cache a first call for "k"
    starts fetch 0; a second call for "k" and a [set] of another key follow
    while it is in flight; the supplier has run once. *)
Lemma C3_witness_two_callers :
  let w := Cache.initWorld (T:=nat) (E:=string) in
  let es := [Cache.EvGetOrSet "k" None Cache.ReturnsPromise 1 1 1 1;
             Cache.EvOp (Cache.OpSet "j" 4%nat None None 2)] in
  let first := Cache.getOrSet CacheRuns.isNull "k" None Cache.ReturnsPromise 0 0 0 0 w in
  Forall (InWindow 0) es ∧
  first.1 = Cache.Awaits 0 ∧
  Cache.supplierRuns "k" (CacheRuns.run es first.2) = 1%nat.
Proof.
  intros w es first.
  assert (Forall (InWindow (length (Cache.fetches w))) es) as Hes.
  { repeat constructor; intros; discriminate. }
  assert (Cache.pendingFetches (Cache.st w) !! "k" = None) as Hp by reflexivity.
  assert (NoFetchInFlight "k" w) as Hnone.
  { intros q f Hf. destruct q; discriminate Hf. }
  assert (NoLiveEntry "k" 0 (Cache.st w)) as Hlive.
  { intros entry Hentry. discriminate Hentry. }
  destruct (C3_single_flight_without_clear CacheRuns.calculateSize CacheRuns.isNull
              CacheRuns.config "k" None Cache.ReturnsPromise 0 0 0 0 w es Hp Hnone Hlive Hes)
    as (Hfirst & Hruns & _).
  split; [exact Hes|]. split; [exact Hfirst|exact Hruns].
Defined.


(* ===================================================================== *)
(** * The async queue: concurrency bound and dispatch order *)
(* ===================================================================== *)

Section QueueTheory.
Context {Task : Type}.
Variable syncSubmits : Task → list (Task * Z * string).
Variable maxConcurrent : Z.

Abbreviation State := (Queue.State (Task:=Task)).
Abbreviation QueueItem := (Queue.QueueItem (Task:=Task)).
Abbreviation startTask := (Queue.startTask syncSubmits).
Abbreviation dispatchLoop := (Queue.dispatchLoop syncSubmits maxConcurrent).
Abbreviation processQueue := (Queue.processQueue syncSubmits maxConcurrent).
Abbreviation replay := (Queue.replay syncSubmits maxConcurrent).
Implicit Types (s : State) (item x y : QueueItem) (q : list QueueItem).

(** [a] is dispatched before [b] when both are pending: [a] has the
    strictly higher priority, or the same priority and was submitted
    earlier ([submit] numbers the items in submission order). *)
Definition dispatchesBefore (a b : QueueItem) : Prop :=
  Queue.priority b < Queue.priority a ∨
  (Queue.priority a = Queue.priority b ∧ (Queue.uid a < Queue.uid b)%nat).

(** The states the queue can be in at any instant: between two callbacks,
    and at every point inside [enqueue], [processQueue] and the [finally]
    callback where one of their pieces has run. *)
Inductive Reachable : State → Prop :=
| reach_init : Reachable Queue.init
| reach_submit t p i s : Reachable s → Reachable (Queue.submit t p i s)
| reach_start item rest s :
    Reachable s → Queue.queue s = item :: rest →
    Queue.activeWorkers s < maxConcurrent →
    Reachable (startTask item (Queue.withQueue (λ _, rest) s))
| reach_flag b s : Reachable s → Reachable (Queue.withProcessing b s)
| reach_settle u ok s : Reachable s → Reachable (Queue.settleTask u ok s)
| reach_release u s :
    Reachable s → Queue.inFlight s !! u = Some true →
    Reachable (Queue.releaseWorker u s)
| reach_clear s : Reachable s → Reachable (Queue.clear s).

Lemma Reachable_dispatchLoop n s : Reachable s → Reachable (dispatchLoop n s).
Proof.
  revert s. induction n as [|n IH]; intros s Hs; [done|]. simpl.
  destruct (Queue.queue s) as [|item rest] eqn:Hq; [done|].
  destruct (Z.ltb_spec (Queue.activeWorkers s) maxConcurrent); [|done].
  apply IH. by apply reach_start.
Qed.

Lemma Reachable_processQueue s : Reachable s → Reachable (processQueue s).
Proof.
  intros Hs. unfold Queue.processQueue. destruct (_ || _); [done|].
  apply reach_flag, Reachable_dispatchLoop, reach_flag, Hs.
Qed.

Lemma Reachable_step e s :
  Reachable s → Reachable (Queue.step syncSubmits maxConcurrent e s).
Proof.
  intros Hs. destruct e as [t p i g|u ok|u|]; simpl.
  - apply Reachable_processQueue, reach_submit, Hs.
  - by apply reach_settle.
  - unfold Queue.finalizeTask.
    destruct (Queue.inFlight s !! u) as [[]|] eqn:Hu; [|done..].
    by apply Reachable_processQueue, reach_release.
  - by apply reach_clear.
Qed.

Lemma Reachable_replay h : Reachable (replay h).
Proof. induction h; simpl; auto using reach_init, Reachable_step. Qed.

(** ** The insertion loop *)

Lemma insertItem_split item q :
  ∃ l1 l2, q = l1 ++ l2 ∧
    Queue.insertItem item q = l1 ++ item :: l2 ∧
    Forall (λ x, Queue.priority item ≤ Queue.priority x) l1 ∧
    (∀ y, head l2 = Some y → Queue.priority y < Queue.priority item).
Proof.
  induction q as [|x r IH]; simpl.
  - exists [], []. split_and!; [done..|constructor|done].
  - destruct (Z.ltb_spec (Queue.priority x) (Queue.priority item)) as [Hlt|Hge].
    + exists [], (x :: r). split_and!; [done..|constructor|].
      intros y [= <-]. done.
    + destruct IH as (l1 & l2 & -> & Hins & Hall & Hhead).
      exists (x :: l1), l2. split_and!; [done|by rewrite Hins|by constructor|done].
Qed.

Lemma insertItem_perm item q : Queue.insertItem item q ≡ₚ item :: q.
Proof.
  destruct (insertItem_split item q) as (l1 & l2 & -> & -> & _).
  by rewrite Permutation_middle.
Qed.

Lemma insertItem_sorted item q :
  StronglySorted dispatchesBefore q →
  (∀ x, x ∈ q → (Queue.uid x < Queue.uid item)%nat) →
  StronglySorted dispatchesBefore (Queue.insertItem item q).
Proof.
  induction q as [|x r IH]; intros Hs Hu; simpl.
  - repeat constructor.
  - apply StronglySorted_inv in Hs as [Hs Hall].
    rewrite Forall_forall in Hall.
    destruct (Z.ltb_spec (Queue.priority x) (Queue.priority item)) as [Hlt|Hge].
    + constructor; [by constructor; [|apply Forall_forall]|].
      apply Forall_forall. intros y [->|Hy]%elem_of_cons; [by left|].
      left. destruct (Hall y Hy) as [?|[? _]]; lia.
    + constructor.
      * apply IH; [done|]. intros y Hy. apply Hu. by right.
      * apply Forall_forall. intros y Hy. rewrite insertItem_perm in Hy.
        apply elem_of_cons in Hy as [->|Hy]; [|by apply Hall].
        destruct (decide (Queue.priority item = Queue.priority x)) as [Heq|Hne].
        -- right. split; [done|]. apply Hu. by left.
        -- left. lia.
Qed.

(** ** The invariant of the queue *)

Definition QInv (s : State) : Prop :=
  Queue.activeWorkers s = Z.of_nat (size (Queue.inFlight s)) ∧
  NoDup (Queue.dispatched s ++ (Queue.uid <$> Queue.queue s)) ∧
  (∀ u, u ∈ Queue.dispatched s ++ (Queue.uid <$> Queue.queue s) →
        (u < Queue.nextUid s)%nat) ∧
  (∀ u, is_Some (Queue.inFlight s !! u) → u ∈ Queue.dispatched s) ∧
  StronglySorted dispatchesBefore (Queue.queue s).

Lemma QInv_init : QInv Queue.init.
Proof.
  split_and!; simpl.
  - by rewrite map_size_empty.
  - constructor.
  - by intros u ?%elem_of_nil.
  - intros u [? Hu]. by rewrite lookup_empty in Hu.
  - constructor.
Qed.

Lemma QInv_submit t p i s : QInv s → QInv (Queue.submit t p i s).
Proof.
  intros (Hact & Hnd & Hlt & Hfl & Hsort). unfold Queue.submit.
  set (item := Queue.mkItem (Queue.nextUid s) i t p).
  assert (Queue.uid <$> Queue.insertItem item (Queue.queue s)
          ≡ₚ Queue.nextUid s :: (Queue.uid <$> Queue.queue s)) as Hperm.
  { by rewrite insertItem_perm. }
  split_and!; simpl; [done| | |done|].
  - rewrite Hperm, <- Permutation_middle. apply NoDup_cons. split; [|done].
    intros Hin. apply Hlt in Hin. lia.
  - intros u. rewrite Hperm, <- Permutation_middle.
    intros [->|Hu]%elem_of_cons; [lia|]. apply Hlt in Hu. lia.
  - apply insertItem_sorted; [done|]. intros x Hx. simpl. apply Hlt.
    apply elem_of_app. right. by apply list_elem_of_fmap_2.
Qed.

Lemma QInv_submits (l : list (Task * Z * string)) s :
  QInv s → QInv (foldl (λ s' '(t, p, i), Queue.submit t p i s') s l).
Proof.
  revert s. induction l as [|[[t p] i] l IH]; intros s Hs; [done|].
  simpl. by apply IH, QInv_submit.
Qed.

Lemma submits_activeWorkers (l : list (Task * Z * string)) s :
  Queue.activeWorkers (foldl (λ s' '(t, p, i), Queue.submit t p i s') s l)
  = Queue.activeWorkers s.
Proof.
  revert s. induction l as [|[[t p] i] l IH]; intros s; [done|].
  simpl. by rewrite IH.
Qed.

Lemma submits_dispatched (l : list (Task * Z * string)) s :
  Queue.dispatched (foldl (λ s' '(t, p, i), Queue.submit t p i s') s l)
  = Queue.dispatched s.
Proof.
  revert s. induction l as [|[[t p] i] l IH]; intros s; [done|].
  simpl. by rewrite IH.
Qed.

Lemma QInv_start item rest s :
  QInv s → Queue.queue s = item :: rest →
  QInv (startTask item (Queue.withQueue (λ _, rest) s)).
Proof.
  intros (Hact & Hnd & Hlt & Hfl & Hsort) Hq.
  unfold Queue.startTask. apply QInv_submits.
  rewrite Hq in Hnd, Hlt, Hsort. simpl in Hnd, Hlt.
  assert (Queue.uid item ∉ Queue.dispatched s) as Hnew.
  { intros Hin. apply NoDup_app in Hnd as (_ & Hdisj & _).
    apply (Hdisj _ Hin). by left. }
  split_and!; simpl.
  - rewrite map_size_insert_None; [lia|].
    destruct (Queue.inFlight s !! Queue.uid item) eqn:Hu; [|done].
    exfalso. apply Hnew, Hfl. by eexists.
  - by rewrite Permutation_middle.
  - intros u Hu. apply Hlt. by rewrite <- Permutation_middle.
  - intros u Hu. destruct (decide (u = Queue.uid item)) as [->|Hne]; [by left|].
    rewrite lookup_insert_ne in Hu by done. right. by apply Hfl.
  - by apply StronglySorted_inv in Hsort as [? _].
Qed.

Lemma QInv_settle u ok s : QInv s → QInv (Queue.settleTask u ok s).
Proof.
  intros (Hact & Hnd & Hlt & Hfl & Hsort). unfold Queue.settleTask.
  destruct (Queue.inFlight s !! u) as [[]|] eqn:Hu; [by split_and!| |by split_and!].
  split_and!; simpl; try done.
  - rewrite map_size_insert_Some; [done|by eexists].
  - intros u' Hu'. destruct (decide (u' = u)) as [->|Hne].
    + apply Hfl. by eexists.
    + rewrite lookup_insert_ne in Hu' by done. by apply Hfl.
Qed.

Lemma QInv_release u s :
  QInv s → Queue.inFlight s !! u = Some true → QInv (Queue.releaseWorker u s).
Proof.
  intros (Hact & Hnd & Hlt & Hfl & Hsort) Hu.
  assert (size (Queue.inFlight s) ≠ 0%nat) as Hpos.
  { intros H0. apply map_size_empty_inv in H0. rewrite H0 in Hu.
    by rewrite lookup_empty in Hu. }
  split_and!; simpl; try done.
  - rewrite map_size_delete, Hu. simpl. lia.
  - intros u' [b Hu']. apply lookup_delete_Some in Hu' as [_ Hu'].
    apply Hfl. by eexists.
Qed.

Lemma QInv_clear s : QInv s → QInv (Queue.clear s).
Proof.
  intros (Hact & Hnd & Hlt & Hfl & Hsort).
  split_and!; simpl; try done.
  - rewrite app_nil_r. by apply NoDup_app in Hnd as (? & _).
  - intros u Hu. apply Hlt. rewrite app_nil_r in Hu. apply elem_of_app. by left.
  - constructor.
Qed.

Lemma QInv_Reachable s : Reachable s → QInv s.
Proof.
  induction 1;
    eauto using QInv_init, QInv_submit, QInv_start, QInv_settle, QInv_release,
                QInv_clear.
Qed.

(** The counter never passes the limit: it is raised only below it. *)
Lemma activeWorkers_bound s :
  0 ≤ maxConcurrent → Reachable s → Queue.activeWorkers s ≤ maxConcurrent.
Proof.
  intros Hmax. induction 1 as [|t p i s _ IH|item rest s _ IH Hq Hfree|b s _ IH
                               |u ok s _ IH|u s _ IH Hu|s _ IH]; simpl; try done.
  - unfold Queue.startTask. rewrite submits_activeWorkers. simpl. lia.
  - unfold Queue.settleTask. by destruct (Queue.inFlight s !! u) as [[]|].
  - lia.
Qed.

(** ** The loop runs to completion *)

Lemma startTask_activeWorkers item s :
  Queue.activeWorkers (startTask item s) = Queue.activeWorkers s + 1.
Proof. unfold Queue.startTask. by rewrite submits_activeWorkers. Qed.

Lemma startTask_dispatched item s :
  Queue.dispatched (startTask item s) = Queue.uid item :: Queue.dispatched s.
Proof. unfold Queue.startTask. by rewrite submits_dispatched. Qed.

(** With the fuel [processQueue] gives it, the loop stops only because its
    condition fails: nothing is pending, or no slot is free. *)
Lemma dispatchLoop_complete n s :
  maxConcurrent - Queue.activeWorkers s ≤ Z.of_nat n →
  let s' := dispatchLoop n s in
  Queue.queue s' = [] ∨ maxConcurrent ≤ Queue.activeWorkers s'.
Proof.
  revert s. induction n as [|n IH]; intros s Hn; simpl.
  - right. lia.
  - destruct (Queue.queue s) as [|item rest] eqn:Hq; [by left|].
    destruct (Z.ltb_spec (Queue.activeWorkers s) maxConcurrent); [|by right].
    apply IH. rewrite startTask_activeWorkers. simpl. lia.
Qed.

Lemma processQueue_complete s :
  Queue.isProcessing s = false →
  let s' := processQueue s in
  Queue.queue s' = [] ∨ maxConcurrent ≤ Queue.activeWorkers s'.
Proof.
  intros Hflag. unfold Queue.processQueue. rewrite Hflag. simpl.
  destruct (Z.geb_spec (Queue.activeWorkers s) maxConcurrent); [right; lia|].
  simpl. apply (dispatchLoop_complete _ (Queue.withProcessing true s)). simpl. lia.
Qed.

(** ** The concurrency bound *)

(** C4.  With a non-negative [maxConcurrent]: the state after any history
    of submissions, completions and [clear]s is reachable, and so is
    every state inside the dispatch loop; and in every reachable state
    the counter [activeWorkers] lies between 0 and [maxConcurrent] and
    equals the number of operations that were started and have not
    finished, no task appears twice in the log of dispatches, and no
    dispatched task is still pending (so it cannot be started again). *)
Theorem C4_concurrency_bound :
  0 ≤ maxConcurrent →
  (∀ h, Reachable (replay h)) ∧
  (∀ s n, Reachable s → Reachable (dispatchLoop n s)) ∧
  ∀ s, Reachable s →
    0 ≤ Queue.activeWorkers s ≤ maxConcurrent ∧
    Queue.activeWorkers s = Z.of_nat (size (Queue.inFlight s)) ∧
    NoDup (Queue.dispatched s) ∧
    (∀ item, item ∈ Queue.queue s → Queue.uid item ∉ Queue.dispatched s).
Proof.
  intros Hmax. split; [apply Reachable_replay|].
  split; [by intros; apply Reachable_dispatchLoop|].
  intros s Hs. pose proof (QInv_Reachable s Hs) as (Hact & Hnd & _ & _ & _).
  pose proof (activeWorkers_bound s Hmax Hs) as Hbound.
  apply NoDup_app in Hnd as (Hnd & Hdisj & _).
  split_and!; [lia|done|done|done|].
  intros item Hitem Hin. apply (Hdisj _ Hin). by apply list_elem_of_fmap_2.
Qed.

(** ** The dispatch order *)

Lemma sorted_head_first item rest :
  StronglySorted dispatchesBefore (item :: rest) →
  Forall (dispatchesBefore item) rest.
Proof. by intros [_ ?]%StronglySorted_inv. Qed.

(** C5.  In every reachable state the pending sequence is ordered by
    descending priority, and by submission order within a priority.  A
    submission puts the new item after every pending item of the same or
    a higher priority and before every pending item of strictly lower
    priority (at the back when there is none), and the result is ordered
    again.  The item at the front is dispatched before every other pending
    item: it has the strictly higher priority, or the same priority and
    the earlier submission; and an iteration of the dispatch loop takes
    exactly that item, logs it, and leaves the rest pending. *)
Theorem C5_priority_then_fifo (s : State) :
  Reachable s →
  StronglySorted dispatchesBefore (Queue.queue s) ∧
  (∀ t p i,
     let item := Queue.mkItem (Queue.nextUid s) i t p in
     ∃ l1 l2,
       Queue.queue s = l1 ++ l2 ∧
       Queue.queue (Queue.submit t p i s) = l1 ++ item :: l2 ∧
       Forall (λ x, p ≤ Queue.priority x) l1 ∧
       Forall (λ y, Queue.priority y < p) l2 ∧
       StronglySorted dispatchesBefore (l1 ++ item :: l2)) ∧
  (∀ item rest,
     Queue.queue s = item :: rest →
     Forall (dispatchesBefore item) rest ∧
     (Queue.activeWorkers s < maxConcurrent →
      let s' := startTask item (Queue.withQueue (λ _, rest) s) in
      (∀ n, dispatchLoop (S n) s = dispatchLoop n s') ∧
      Queue.dispatched s' = Queue.uid item :: Queue.dispatched s ∧
      ∃ added, Queue.queue s' ≡ₚ added ++ rest)).
Proof.
  intros Hs. pose proof (QInv_Reachable s Hs) as (_ & _ & _ & _ & Hsort).
  split; [done|]. split.
  - intros t p i item.
    pose proof (QInv_Reachable _ (reach_submit t p i s Hs)) as (_ & _ & _ & _ & Hsort').
    destruct (insertItem_split item (Queue.queue s)) as (l1 & l2 & Hq & Hins & Hl1 & Hl2).
    exists l1, l2. simpl in Hsort'. fold item in Hsort'. rewrite Hins in Hsort'.
    split_and!; [done|done|done| |done].
    rewrite Hq in Hsort. apply StronglySorted_app_1_r in Hsort.
    destruct l2 as [|y l2]; [constructor|].
    specialize (Hl2 y eq_refl). simpl in Hl2.
    apply StronglySorted_inv in Hsort as [_ Hall]. constructor; [done|].
    eapply Forall_impl; [exact Hall|]. intros z [?|[? _]]; simpl; lia.
  - intros item rest Hq. rewrite Hq in Hsort.
    split; [by apply sorted_head_first|]. intros Hfree s'. split_and!.
    + intros n. simpl. rewrite Hq.
      by destruct (Z.ltb_spec (Queue.activeWorkers s) maxConcurrent); [|lia].
    + subst s'. by rewrite startTask_dispatched.
    + subst s'. unfold Queue.startTask.
      generalize (syncSubmits (Queue.task item)). intros l.
      match goal with |- ∃ added, Queue.queue (foldl _ ?s1 l) ≡ₚ _ =>
        assert (Queue.queue s1 = rest) as Hq1 by done; revert Hq1;
        generalize s1 end.
      assert (∀ (l : list (Task * Z * string)) s1 base,
                Queue.queue s1 ≡ₚ base ++ rest →
                ∃ added, Queue.queue (foldl (λ s' '(t, p, i), Queue.submit t p i s') s1 l)
                         ≡ₚ added ++ rest) as Hfold.
      { clear. induction l as [|[[t p] i] l IH]; intros s1 base Hb; [by exists base|].
        simpl. apply (IH _ (Queue.mkItem (Queue.nextUid s1) i t p :: base)).
        simpl. by rewrite insertItem_perm, Hb. }
      intros s1 Hs1. apply (Hfold l s1 []). by rewrite Hs1.
Qed.

End QueueTheory.

(* ===================================================================== *)
(** * The rate limiter: the decision of one check *)
(* ===================================================================== *)

Section RateLimitTheory.
Variable config : RateLimit.RateLimitConfig.

Abbreviation isAllowed := (RateLimit.isAllowed config).
Abbreviation replay := (RateLimit.replay config).
Implicit Types (requests : gmap string RateLimit.RateLimitData) (l : list Z).

Lemma Math_min_spec l :
  l ≠ [] →
  ∃ oldest, RateLimit.Math_min l = RateLimit.Finite oldest ∧
            oldest ∈ l ∧ ∀ t, t ∈ l → oldest ≤ t.
Proof.
  induction l as [|t r IH]; [done|]. intros _. simpl.
  destruct r as [|t' r'].
  - exists t. simpl. split_and!; [done|by left|].
    intros t0 ->%list_elem_of_singleton. lia.
  - destruct IH as (m & -> & Hm & Hmin); [done|].
    exists (Z.min t m). split; [done|]. split.
    + destruct (Z.min_spec t m) as [[_ ->]|[_ ->]]; [by left|by right].
    + intros t0 [->|Ht0]%elem_of_cons; [lia|]. specialize (Hmin t0 Ht0). lia.
Qed.

Lemma ceilSeconds_spec x :
  1000 * (RateLimit.ceilSeconds x - 1) < x ≤ 1000 * RateLimit.ceilSeconds x.
Proof.
  unfold RateLimit.ceilSeconds.
  pose proof (Z.div_mod (- x) 1000 ltac:(lia)).
  pose proof (Z.mod_pos_bound (- x) 1000 ltac:(lia)). lia.
Qed.

(** The pruned sequences of a client at time [now]. *)
Definition sustained (ip : string) (now : Z) requests : list Z :=
  filter (λ t, now - t < RateLimit.timeWindow config)
         (RateLimit.timestamps (default (RateLimit.mkData [] []) (requests !! ip))).

Definition burst (ip : string) (now : Z) requests : list Z :=
  filter (λ t, now - t < RateLimit.burstWindow config)
         (RateLimit.burstTimestamps (default (RateLimit.mkData [] []) (requests !! ip))).

(** A denial whose [retryAfter] is the time, in whole seconds rounded up,
    until the oldest timestamp of [pruned] leaves the window. *)
Definition DeniedUntilOldestLeaves (pruned : list Z) (window now : Z)
    (r : RateLimit.RateLimitResult) : Prop :=
  RateLimit.allowed r = false ∧
  RateLimit.remaining r = 0 ∧
  RateLimit.limit r = RateLimit.maxRequests config ∧
  ∃ oldest retry,
    oldest ∈ pruned ∧ (∀ t, t ∈ pruned → oldest ≤ t) ∧
    RateLimit.retryAfter r = RateLimit.Finite retry ∧
    1000 * (retry - 1) < oldest + window - now ≤ 1000 * retry ∧
    0 < retry ∧
    RateLimit.reset r = RateLimit.Finite (now + retry * 1000).

Lemma deny_spec now window pruned :
  pruned ≠ [] → (∀ t, t ∈ pruned → now - t < window) →
  DeniedUntilOldestLeaves pruned window now (RateLimit.deny config now window pruned).
Proof.
  intros Hne Hin. destruct (Math_min_spec pruned Hne) as (oldest & Hmin & Hold & Hle).
  unfold RateLimit.deny. rewrite Hmin. simpl. split_and!; [done..|].
  exists oldest, (RateLimit.ceilSeconds (oldest + window - now)).
  pose proof (ceilSeconds_spec (oldest + window - now)).
  specialize (Hin oldest Hold). split_and!; [done..|lia|lia|lia|done].
Qed.

(** No client ever has more timestamps on record than the limits allow. *)
Definition WithinLimits requests : Prop :=
  ∀ ip d, requests !! ip = Some d →
    Z.of_nat (length (RateLimit.timestamps d)) ≤ RateLimit.maxRequests config ∧
    Z.of_nat (length (RateLimit.burstTimestamps d)) ≤ RateLimit.burstCapacity config.

Lemma length_filter_le (P : Z → Prop) `{!∀ t, Decision (P t)} l :
  (length (filter P l) ≤ length l)%nat.
Proof.
  induction l as [|t l IH]; [done|]. rewrite filter_cons.
  destruct (decide (P t)); simpl; lia.
Qed.

Lemma WithinLimits_isAllowed ip now requests :
  WithinLimits requests → WithinLimits (isAllowed ip now requests).2.
Proof.
  intros Hw. unfold RateLimit.isAllowed.
  set (d0 := default (RateLimit.mkData [] []) (requests !! ip)).
  set (ts := filter _ (RateLimit.timestamps d0)).
  set (bts := filter _ (RateLimit.burstTimestamps d0)).
  assert (WithinLimits (alter (λ _, RateLimit.mkData ts bts) ip requests)) as Hpruned.
  { intros ip' d. rewrite lookup_alter. destruct (decide (ip = ip')) as [->|]; [|apply Hw].
    destruct (requests !! ip') as [d1|] eqn:Hd1; [|done]. intros [= <-]. simpl.
    destruct (Hw ip' d1 Hd1) as [H1 H2]. subst d0 ts bts. simpl.
    pose proof (length_filter_le (λ t, now - t < RateLimit.timeWindow config)
                  (RateLimit.timestamps d1)).
    pose proof (length_filter_le (λ t, now - t < RateLimit.burstWindow config)
                  (RateLimit.burstTimestamps d1)).
    lia. }
  destruct (Z.geb_spec (Z.of_nat (length bts)) (RateLimit.burstCapacity config));
    [done|].
  destruct (Z.geb_spec (Z.of_nat (length ts)) (RateLimit.maxRequests config));
    [done|].
  cbn [snd]. intros ip' d. rewrite lookup_insert.
  destruct (decide (ip = ip')) as [->|]; [|apply Hw].
  intros [= <-]. simpl. rewrite !length_app. simpl. lia.
Qed.

Lemma WithinLimits_cleanup now requests :
  WithinLimits requests → WithinLimits (RateLimit.cleanup config now requests).
Proof.
  intros Hw ip d. unfold RateLimit.cleanup. rewrite lookup_omap.
  destruct (requests !! ip) as [d1|] eqn:Hd1; [|done]. simpl.
  destruct (bool_decide _); [done|]. intros [= <-]. simpl.
  destruct (Hw ip d1 Hd1) as [H1 H2].
  pose proof (length_filter_le (λ t, now - t < RateLimit.timeWindow config)
                (RateLimit.timestamps d1)).
  pose proof (length_filter_le (λ t, now - t < RateLimit.burstWindow config)
                (RateLimit.burstTimestamps d1)).
  lia.
Qed.

Lemma WithinLimits_replay h : WithinLimits (replay h).
Proof.
  induction h as [|[ip now|now] h IH]; simpl.
  - intros ip d. by rewrite lookup_empty.
  - by apply WithinLimits_isAllowed.
  - by apply WithinLimits_cleanup.
Qed.

(** ** The decision *)

(** C6.  With positive [maxRequests] and [burstCapacity], after any
    history of checks and sweeps, a check of client [ip] at time [now]
    works on the two recorded sequences pruned to their windows, each of
    which holds at most its limit.  If the pruned burst sequence holds
    [burstCapacity] timestamps, the request is denied, whatever the
    sustained sequence holds: [remaining] is 0 and [retryAfter] is the
    positive number of seconds, rounded up, until the oldest burst
    timestamp leaves the burst window.  Otherwise, if the pruned sustained
    sequence holds [maxRequests] timestamps, it is denied in the same way
    against the sustained window.  In both cases only the pruning is
    stored.  Otherwise [now] is appended to both sequences, the request is
    allowed, [remaining] is [maxRequests] minus the number of sustained
    timestamps now on record, and [reset] is [now + timeWindow]. *)
Theorem C6_check_decision (h : list RateLimit.Event) (ip : string) (now : Z) :
  0 < RateLimit.maxRequests config →
  0 < RateLimit.burstCapacity config →
  let requests := replay h in
  let ts := sustained ip now requests in
  let bts := burst ip now requests in
  let r := isAllowed ip now requests in
  (∀ t, t ∈ ts → now - t < RateLimit.timeWindow config) ∧
  (∀ t, t ∈ bts → now - t < RateLimit.burstWindow config) ∧
  Z.of_nat (length ts) ≤ RateLimit.maxRequests config ∧
  Z.of_nat (length bts) ≤ RateLimit.burstCapacity config ∧
  (Z.of_nat (length bts) = RateLimit.burstCapacity config →
     DeniedUntilOldestLeaves bts (RateLimit.burstWindow config) now r.1 ∧
     r.2 = alter (λ _, RateLimit.mkData ts bts) ip requests) ∧
  (Z.of_nat (length bts) < RateLimit.burstCapacity config →
   Z.of_nat (length ts) = RateLimit.maxRequests config →
     DeniedUntilOldestLeaves ts (RateLimit.timeWindow config) now r.1 ∧
     r.2 = alter (λ _, RateLimit.mkData ts bts) ip requests) ∧
  (Z.of_nat (length bts) < RateLimit.burstCapacity config →
   Z.of_nat (length ts) < RateLimit.maxRequests config →
     r.1 = RateLimit.mkResult true (RateLimit.Finite 0)
             (RateLimit.maxRequests config - Z.of_nat (length (ts ++ [now])))
             (RateLimit.maxRequests config)
             (RateLimit.Finite (now + RateLimit.timeWindow config)) ∧
     r.2 = <[ip := RateLimit.mkData (ts ++ [now]) (bts ++ [now])]> requests).
Proof.
  intros Hmax Hcap requests ts bts r.
  assert (∀ t, t ∈ ts → now - t < RateLimit.timeWindow config) as Hts.
  { intros t Ht. by apply list_elem_of_filter in Ht as [? _]. }
  assert (∀ t, t ∈ bts → now - t < RateLimit.burstWindow config) as Hbts.
  { intros t Ht. by apply list_elem_of_filter in Ht as [? _]. }
  assert (Z.of_nat (length ts) ≤ RateLimit.maxRequests config ∧
          Z.of_nat (length bts) ≤ RateLimit.burstCapacity config) as [Hlts Hlbts].
  { subst ts bts. unfold sustained, burst.
    pose proof (WithinLimits_replay h ip) as Hw. fold requests in Hw.
    destruct (requests !! ip) as [d|]; simpl; [|lia].
    destruct (Hw d eq_refl) as [H1 H2].
    pose proof (length_filter_le (λ t, now - t < RateLimit.timeWindow config)
                  (RateLimit.timestamps d)).
    pose proof (length_filter_le (λ t, now - t < RateLimit.burstWindow config)
                  (RateLimit.burstTimestamps d)).
    lia. }
  assert (∀ l, 0 < Z.of_nat (length l) → l ≠ []) as Hne.
  { intros l Hl ->. simpl in Hl. lia. }
  split_and!; [done..| | |].
  - intros Heq. subst r. unfold RateLimit.isAllowed. fold (burst ip now requests).
    fold (sustained ip now requests). fold ts bts.
    destruct (Z.geb_spec (Z.of_nat (length bts)) (RateLimit.burstCapacity config));
      [|lia].
    split; [|done]. cbn [fst]. apply deny_spec; [|done]. apply Hne. lia.
  - intros Hlt Heq. subst r. unfold RateLimit.isAllowed. fold (burst ip now requests).
    fold (sustained ip now requests). fold ts bts.
    destruct (Z.geb_spec (Z.of_nat (length bts)) (RateLimit.burstCapacity config));
      [lia|].
    destruct (Z.geb_spec (Z.of_nat (length ts)) (RateLimit.maxRequests config));
      [|lia].
    split; [|done]. cbn [fst]. apply deny_spec; [|done]. apply Hne. lia.
  - intros Hlt Hlt'. subst r. unfold RateLimit.isAllowed. fold (burst ip now requests).
    fold (sustained ip now requests). fold ts bts.
    destruct (Z.geb_spec (Z.of_nat (length bts)) (RateLimit.burstCapacity config));
      [lia|].
    destruct (Z.geb_spec (Z.of_nat (length ts)) (RateLimit.maxRequests config));
      [lia|].
    split; [|done]. cbn [fst]. f_equal. rewrite length_app. simpl. lia.
Qed.

End RateLimitTheory.


(** An instance of C4: after the five submissions one operation runs, which
    is within the limit of 1. *)
Lemma C4_witness_five_submissions :
  let s := QueueRuns.replay QueueRuns.submissions in
  0 ≤ QueueRuns.maxConcurrent ∧
  0 ≤ Queue.activeWorkers s ≤ QueueRuns.maxConcurrent ∧
  NoDup (Queue.dispatched s).
Proof.
  intros s.
  assert (0 ≤ QueueRuns.maxConcurrent) as Hmax by (intros H; discriminate H).
  destruct (C4_concurrency_bound QueueRuns.syncSubmits QueueRuns.maxConcurrent Hmax)
    as (Hreach & _ & Hall).
  destruct (Hall s (Hreach QueueRuns.submissions)) as (Hbound & _ & Hnd & _).
  split; [exact Hmax|]. split; [exact Hbound|exact Hnd].
Defined.

(** An instance of C5: after the five submissions the first task runs and
    the others wait in the order "b", "c", "d", "z".  When the running task
    finishes and its slot is released, the front item "b" comes before each
    of the others and is the one the dispatch loop starts. *)
Lemma C5_witness_five_submissions :
  let s := Queue.releaseWorker 0
             (Queue.settleTask 0 true (QueueRuns.replay QueueRuns.submissions)) in
  Reachable QueueRuns.syncSubmits QueueRuns.maxConcurrent s ∧
  Queue.id <$> Queue.queue s = ["b"; "c"; "d"; "z"] ∧
  StronglySorted dispatchesBefore (Queue.queue s) ∧
  Queue.activeWorkers s < QueueRuns.maxConcurrent ∧
  ∃ item rest,
    Queue.queue s = item :: rest ∧ Queue.id item = "b" ∧
    Forall (dispatchesBefore item) rest ∧
    Queue.dispatched
      (Queue.startTask QueueRuns.syncSubmits item (Queue.withQueue (λ _, rest) s))
    = Queue.uid item :: Queue.dispatched s.
Proof.
  intros s.
  assert (Reachable QueueRuns.syncSubmits QueueRuns.maxConcurrent s) as Hs.
  { apply reach_release; [|reflexivity]. apply reach_settle.
    apply (Reachable_replay QueueRuns.syncSubmits QueueRuns.maxConcurrent
             QueueRuns.submissions). }
  destruct (C5_priority_then_fifo QueueRuns.syncSubmits QueueRuns.maxConcurrent s Hs)
    as (Hsorted & _ & Hfront).
  assert (Queue.activeWorkers s < QueueRuns.maxConcurrent) as Hfree by reflexivity.
  split; [exact Hs|]. split; [reflexivity|]. split; [exact Hsorted|].
  split; [exact Hfree|].
  destruct (Queue.queue s) as [|item rest] eqn:Hq; [discriminate Hq|].
  exists item, rest. destruct (Hfront item rest eq_refl) as [Hbefore Hloop].
  destruct (Hloop Hfree) as (_ & Hlog & _).
  split; [reflexivity|]. split; [|split; [exact Hbefore|exact Hlog]].
  vm_compute in Hq. injection Hq as <- _. reflexivity.
Defined.

(** An instance of C6: after five checks within half a second, a sixth at
    500 ms finds the burst sequence full and is denied. *)
Lemma C6_witness_sixth_request :
  let requests := RateLimit.replay RateLimitRuns.config RateLimitRuns.fiveChecks in
  let r := RateLimit.isAllowed RateLimitRuns.config "client" 500 requests in
  0 < RateLimit.maxRequests RateLimitRuns.config ∧
  0 < RateLimit.burstCapacity RateLimitRuns.config ∧
  Z.of_nat (length (burst RateLimitRuns.config "client" 500 requests))
  = RateLimit.burstCapacity RateLimitRuns.config ∧
  RateLimit.allowed r.1 = false ∧
  RateLimit.remaining r.1 = 0.
Proof.
  intros requests r.
  assert (0 < RateLimit.maxRequests RateLimitRuns.config) as Hmax by reflexivity.
  assert (0 < RateLimit.burstCapacity RateLimitRuns.config) as Hcap by reflexivity.
  assert (Z.of_nat (length (burst RateLimitRuns.config "client" 500 requests))
          = RateLimit.burstCapacity RateLimitRuns.config) as Hfull by reflexivity.
  destruct (C6_check_decision RateLimitRuns.config RateLimitRuns.fiveChecks
              "client" 500 Hmax Hcap) as (_ & _ & _ & _ & Hburst & _).
  destruct (Hburst Hfull) as [(Hallowed & Hremaining & _) _].
  split; [exact Hmax|]. split; [exact Hcap|]. split; [exact Hfull|].
  split; [exact Hallowed|exact Hremaining].
Defined.

(* ===================================================================== *)
(** * The cache: further properties of the operations *)
(* ===================================================================== *)

(** Unfolds the field updates and the recency-list helpers. *)
Ltac cache_norm :=
  repeat (progress (cache_simpl;
                    rewrite ?cache_remove, ?accessOrder_remove, ?pending_remove,
                            ?stats_remove)).

Section CacheStructure.
Context {T E : Type}.
Variable calculateSize : T → Z.
Variable isNull : T → bool.
Variable config : CacheOptions.t.

Abbreviation State := (Cache.State (T:=T)).
Abbreviation World := (Cache.World (T:=T) (E:=E)).
Abbreviation Event := (Cache.Event (T:=T) (E:=E)).
Abbreviation exec := (Cache.exec calculateSize config).
Abbreviation step := (Cache.step calculateSize isNull config).
Abbreviation runEvents := (Cache.runEvents calculateSize isNull config).
Implicit Types (s : State) (w : World) (e : Event).

(** A property of the closure state that every synchronous operation
    keeps, and that does not depend on the registrations or on the latency
    totals, is kept by every step of the event loop. *)
Lemma step_preserves (P : State → Prop) :
  (∀ o s, P s → P (exec o s)) →
  (∀ f s, P s → P (Cache.withPending f s)) →
  (∀ r s, P s → P (Cache.updateStats r s)) →
  ∀ e w, P (Cache.st w) → P (Cache.st (step e w)).
Proof.
  intros Hexec Hpend Hlat e w HP.
  destruct e as [op|k customTtl call t0 t1 t2 t3|q o now|q nowEnd]; simpl.
  - by apply Hexec.
  - pose proof (Hexec (Cache.OpGet k t1 t2) _ HP) as Hget. simpl in Hget.
    destruct (getOrSet_cases isNull k customTtl call t0 t1 t2 t3 w)
      as [(p' & _ & ->)|[(v & _ & ->)|(Hk & ->)]]; cbn [snd Cache.st Cache.startFetch];
      auto.
  - unfold Cache.settleFetch. destruct (Cache.fetches w !! q) as [g|]; [|done].
    destruct (Cache.fetchOutcome g); [done|]. cbn [Cache.st]. apply Hpend.
    destruct o as [data|reason]; [|done].
    apply (Hexec (Cache.OpSet (Cache.fetchKey g) data (Cache.fetchTtl g)
                    (Some (calculateSize data)) now) _ HP).
  - unfold Cache.resumeCaller. destruct (Cache.fetches w !! q) as [g|]; [|done].
    destruct (Cache.fetchOutcome g) as [[v|r]|]; [| |done];
      destruct (Cache.fetchResumed g); cbn [Cache.st]; auto.
Qed.

Lemma run_preserves (P : State → Prop) :
  (∀ o s, P s → P (exec o s)) →
  (∀ f s, P s → P (Cache.withPending f s)) →
  (∀ r s, P s → P (Cache.updateStats r s)) →
  ∀ es w, P (Cache.st w) → P (Cache.st (runEvents es w)).
Proof.
  intros Hexec Hpend Hlat es. induction es as [|e es IH]; intros w HP; [done|].
  change (runEvents (e :: es) w) with (runEvents es (step e w)).
  apply IH. by apply step_preserves.
Qed.

(** [stats.size] is the number of entries. *)
Definition SizeSynced (s : State) : Prop :=
  CacheStats.size (Cache.stats s) = size (Cache.cache s).

Lemma SizeSynced_deleteEntry key s :
  SizeSynced s → SizeSynced (Cache.deleteEntry key s).2.
Proof.
  unfold SizeSynced, Cache.deleteEntry.
  destruct (Cache.cache s !! key); [|done]. by cache_norm.
Qed.

Lemma SizeSynced_exec o s : SizeSynced s → SizeSynced (exec o s).
Proof.
  intros H.
  destruct o as [key data customTtl size_ now|key nowCheck nowTouch|key now|key| |now];
    simpl.
  - unfold SizeSynced, Cache.set.
    destruct (bool_decide _); [|by cache_norm].
    cache_norm. rewrite lookup_insert_eq. by cache_norm.
  - destruct (get_cases key nowCheck nowTouch s)
      as [[_ ->]|[(entry & _ & _ & ->)|(entry & Hk & _ & ->)]]; cbn [snd].
    + done.
    + by apply (SizeSynced_deleteEntry key) in H.
    + unfold SizeSynced in *. cache_norm. simpl.
      rewrite map_size_insert_Some; [done|by eexists].
  - destruct (has_cases key now s)
      as [[_ ->]|[(entry & _ & _ & ->)|(entry & _ & _ & ->)]]; cbn [snd];
      auto using SizeSynced_deleteEntry.
  - by apply SizeSynced_deleteEntry.
  - unfold SizeSynced. simpl. by rewrite map_size_empty.
  - apply cleanup_preserves; auto using SizeSynced_deleteEntry.
Qed.

(** X1.  After any run of the event loop on a fresh cache (operations,
    [getOrSet] calls, fetches settling, callers resuming) the recency list
    has no duplicates and holds exactly the keys of the entry map, and
    [getStats().size] is the number of entries, which is also the length
    of the recency list. *)
Theorem X1_recency_list_is_key_set (es : list Event) :
  let s := Cache.st (runEvents es Cache.initWorld) in
  NoDup (Cache.accessOrder s) ∧
  (∀ k, k ∈ Cache.accessOrder s ↔ is_Some (Cache.cache s !! k)) ∧
  CacheStats.size (Cache.getStats s) = size (Cache.cache s) ∧
  size (Cache.cache s) = length (Cache.accessOrder s).
Proof.
  intros s.
  assert (Inv s) as HI.
  { apply (run_preserves Inv); [apply Inv_exec|done|done|apply Inv_init]. }
  assert (SizeSynced s) as Hsync.
  { apply (run_preserves SizeSynced); [apply SizeSynced_exec|done|done|].
    unfold SizeSynced. simpl. by rewrite map_size_empty. }
  destruct HI as [Hnd Hkeys]. split_and!; [done|done|exact Hsync|].
  by apply Inv_size.
Qed.

(** The entry count is at most [maxSize], or 1 when [maxSize] is below 1. *)
Definition Capped (s : State) : Prop :=
  Z.of_nat (size (Cache.cache s)) ≤ Z.max 1 (CacheOptions.maxSize config).

Lemma Capped_deleteEntry key s : Capped s → Capped (Cache.deleteEntry key s).2.
Proof.
  unfold Capped. rewrite deleteEntry_cache. intros Hb.
  pose proof (map_size_delete key (Cache.cache s)) as Hsz.
  destruct (Cache.cache s !! key); simpl in Hsz; lia.
Qed.

Lemma Capped_set key data customTtl size_ now s :
  Inv s → Capped s →
  Capped (Cache.set calculateSize config key data customTtl size_ now s).
Proof.
  intros HI Hc. unfold Capped in *. rewrite set_cache, map_size_insert.
  unfold afterCapacityCheck.
  destruct (Cache.cache s !! key) as [e|] eqn:Hk.
  { rewrite bool_decide_eq_true_2 by (by eexists). rewrite andb_false_r.
    by rewrite Hk. }
  rewrite bool_decide_eq_false_2 by (by intros [? ?]). rewrite andb_true_r.
  destruct (Z.geb_spec (Z.of_nat (size (Cache.cache s))) (CacheOptions.maxSize config))
    as [Hge|Hlt]; [|rewrite Hk; lia].
  destruct (Cache.accessOrder s) as [|x r _] eqn:Ha using rev_ind.
  - unfold Cache.evictLRU. rewrite Ha. simpl. rewrite Hk.
    rewrite (Inv_size s HI), Ha. simpl. lia.
  - destruct (evictLRU_nonempty s r x HI Ha) as (entry & He & ->). cache_simpl.
    rewrite map_size_delete, He.
    destruct (decide (key = x)) as [->|Hne]; [congruence|].
    rewrite lookup_delete_ne, Hk by done. simpl.
    assert (size (Cache.cache s) ≠ 0%nat).
    { intros H0. apply map_size_empty_inv in H0. rewrite H0 in He.
      by rewrite lookup_empty in He. }
    lia.
Qed.

Lemma InvCapped_exec o s :
  Inv s ∧ Capped s → Inv (exec o s) ∧ Capped (exec o s).
Proof.
  intros [HI Hc]. split; [by apply Inv_exec|].
  destruct o as [key data customTtl size_ now|key nowCheck nowTouch|key now|key| |now];
    simpl.
  - by apply Capped_set.
  - destruct (get_cases key nowCheck nowTouch s)
      as [[_ ->]|[(entry & _ & _ & ->)|(entry & Hk & _ & ->)]]; cbn [snd].
    + done.
    + by apply (Capped_deleteEntry key) in Hc.
    + unfold Capped in *. cache_norm. rewrite map_size_insert, Hk. done.
  - destruct (has_cases key now s)
      as [[_ ->]|[(entry & _ & _ & ->)|(entry & _ & _ & ->)]]; cbn [snd];
      auto using Capped_deleteEntry.
  - by apply Capped_deleteEntry.
  - unfold Capped. simpl. rewrite map_size_empty. lia.
  - apply cleanup_preserves; auto using Capped_deleteEntry.
Qed.

(** X2.  For every whole number [maxSize], zero and negative values
    included, after any run of the event loop on a fresh cache the number
    of entries is at most [maxSize], or at most 1 when [maxSize] is below
    1 (a [set] on an empty cache always stores its entry). *)
Theorem X2_entry_count_for_any_maxSize (es : list Event) :
  let s := Cache.st (runEvents es Cache.initWorld) in
  Z.of_nat (size (Cache.cache s)) ≤ Z.max 1 (CacheOptions.maxSize config).
Proof.
  intros s.
  assert (Inv s ∧ Capped s) as [_ H]; [|exact H].
  apply (run_preserves (λ s, Inv s ∧ Capped s)); [apply InvCapped_exec|done|done|].
  split; [apply Inv_init|]. unfold Capped. simpl. rewrite map_size_empty. lia.
Qed.

End CacheStructure.

Section CacheSweep.
Context {T : Type}.

Abbreviation State := (Cache.State (T:=T)).
Implicit Types (s a : State) (l : list (string * CacheEntry.t T)).

(** The counters a visit of the sweep leaves alone. *)
Definition sameCounters (s s' : State) : Prop :=
  CacheStats.hits (Cache.stats s') = CacheStats.hits (Cache.stats s) ∧
  CacheStats.misses (Cache.stats s') = CacheStats.misses (Cache.stats s) ∧
  CacheStats.evictions (Cache.stats s') = CacheStats.evictions (Cache.stats s) ∧
  CacheStats.staleEntriesCleaned (Cache.stats s')
  = CacheStats.staleEntriesCleaned (Cache.stats s) ∧
  Cache.pendingFetches s' = Cache.pendingFetches s.

Lemma sameCounters_deleteEntry key s : sameCounters s (Cache.deleteEntry key s).2.
Proof.
  pose proof (deleteEntry_counters key s) as (? & ? & ? & ? & _).
  pose proof (deleteEntry_pending key s). by split_and!.
Qed.

(** The loop of the sweep over distinct keys that are all still stored. *)
Lemma sweep_fold now l : ∀ a n,
  NoDup l.*1 →
  (∀ k e, (k, e) ∈ l → Cache.cache a !! k = Some e) →
  let r := foldl (Cache.cleanupVisit now) (a, n) l in
  (∀ k e, (k, e) ∈ l → now > CacheEntry.expiresAt e → Cache.cache r.1 !! k = None) ∧
  (∀ k, (∀ e, (k, e) ∈ l → now ≤ CacheEntry.expiresAt e) →
        Cache.cache r.1 !! k = Cache.cache a !! k) ∧
  (r.2 + size (Cache.cache r.1) = n + size (Cache.cache a))%nat ∧
  sameCounters a r.1.
Proof.
  induction l as [|[k0 e0] l IH]; intros a n Hnd Hin.
  { simpl. split_and!; [by intros k e ?%elem_of_nil|done|done|by split_and!]. }
  rewrite fmap_cons in Hnd. apply NoDup_cons in Hnd as [Hk0 Hnd].
  assert (∀ e, (k0, e) ∉ l) as Hfresh.
  { intros e He. apply Hk0. apply list_elem_of_fmap. by exists (k0, e). }
  cbn [foldl].
  assert (Cache.cleanupVisit now (a, n) (k0, e0)
          = if now >? CacheEntry.expiresAt e0
            then ((Cache.deleteEntry k0 a).2, S n) else (a, n)) as -> by done.
  destruct (Z.gtb_spec now (CacheEntry.expiresAt e0)) as [Hstale|Hlive]; cbn zeta.
  - destruct (IH (Cache.deleteEntry k0 a).2 (S n) Hnd) as (H1 & H2 & H3 & H4).
    { intros k e He. rewrite deleteEntry_cache, lookup_delete_ne; [|by intros ->; eapply Hfresh].
      apply Hin. by right. }
    rewrite deleteEntry_cache in H2, H3.
    split_and!.
    + intros k e [[= -> ->]|He]%elem_of_cons Hgt; [|by eapply H1].
      etrans; [apply H2|apply lookup_delete_eq].
      intros e He. by destruct (Hfresh e).
    + intros k Hk. etrans; [apply H2; intros e He; apply Hk; by right|].
      apply lookup_delete_ne. intros ->. specialize (Hk e0 ltac:(by left)). lia.
    + etrans; [apply H3|]. rewrite map_size_delete, (Hin k0 e0) by (by left). simpl.
      assert (size (Cache.cache a) ≠ 0%nat); [|lia].
      intros H0. apply map_size_empty_inv in H0.
      specialize (Hin k0 e0 ltac:(by left)). rewrite H0 in Hin.
      by rewrite lookup_empty in Hin.
    + pose proof (sameCounters_deleteEntry k0 a) as (? & ? & ? & ? & ?).
      destruct H4 as (? & ? & ? & ? & ?). split_and!; congruence.
  - destruct (IH a n Hnd) as (H1 & H2 & H3 & H4).
    { intros k e He. apply Hin. by right. }
    split_and!; [|by intros k Hk; apply H2; intros e He; apply Hk; right|done|done].
    intros k e [[= -> ->]|He]%elem_of_cons Hgt; [lia|by eapply H1].
Qed.

Lemma cleanup_nothing_stale now s :
  (∀ k e, Cache.cache s !! k = Some e → now ≤ CacheEntry.expiresAt e) →
  Cache.cleanupStaleEntries now s = s.
Proof.
  intros Hlive. unfold Cache.cleanupStaleEntries.
  assert (∀ l, (∀ kv, kv ∈ l → now ≤ CacheEntry.expiresAt kv.2) →
               foldl (Cache.cleanupVisit now) (s, 0%nat) l = (s, 0%nat)) as Hfold.
  { induction l as [|kv l IH]; intros Hl; [done|]. simpl.
    unfold Cache.cleanupVisit at 2.
    destruct (Z.gtb_spec now (CacheEntry.expiresAt kv.2)) as [Hgt|_].
    - specialize (Hl kv ltac:(by left)). lia.
    - apply IH. intros kv' ?. apply Hl. by right. }
  rewrite Hfold; [done|]. intros [k e] Hkv. apply elem_of_map_to_list in Hkv.
  by eapply Hlive.
Qed.

(** X3.  The background sweep at time [now] removes exactly the entries
    whose [expiresAt] is before [now] and keeps every other entry as it
    is; it adds the number of entries it removed to [staleEntriesCleaned]
    and leaves the hit, miss and eviction counters and the in-flight
    registrations alone; the recency list loses the removed keys and keeps
    the order of the others, so a list that held exactly the stored keys
    still does; an exact byte total stays exact; and a second sweep at the
    same time changes nothing. *)
Theorem X3_sweep_removes_exactly_the_expired now (s : State) :
  let s' := Cache.cleanupStaleEntries now s in
  Cache.cache s' = filter (λ kv, now ≤ CacheEntry.expiresAt kv.2) (Cache.cache s) ∧
  (CacheStats.staleEntriesCleaned (Cache.stats s')
   = CacheStats.staleEntriesCleaned (Cache.stats s)
     + (size (Cache.cache s) - size (Cache.cache s')))%nat ∧
  CacheStats.hits (Cache.stats s') = CacheStats.hits (Cache.stats s) ∧
  CacheStats.misses (Cache.stats s') = CacheStats.misses (Cache.stats s) ∧
  CacheStats.evictions (Cache.stats s') = CacheStats.evictions (Cache.stats s) ∧
  Cache.pendingFetches s' = Cache.pendingFetches s ∧
  Cache.accessOrder s' `sublist_of` Cache.accessOrder s ∧
  (Inv s → Inv s') ∧
  (BytesExact s → BytesExact s') ∧
  Cache.cleanupStaleEntries now s' = s'.
Proof.
  intros s'.
  destruct (sweep_fold now (map_to_list (Cache.cache s)) s 0%nat)
    as (H1 & H2 & H3 & H4).
  { apply NoDup_fst_map_to_list. }
  { intros k e. apply elem_of_map_to_list. }
  set (r := foldl (Cache.cleanupVisit now) (s, 0%nat) (map_to_list (Cache.cache s)))
    in *.
  assert (Cache.cache s' = Cache.cache r.1 ∧ Cache.pendingFetches s' = Cache.pendingFetches r.1
          ∧ CacheStats.hits (Cache.stats s') = CacheStats.hits (Cache.stats r.1)
          ∧ CacheStats.misses (Cache.stats s') = CacheStats.misses (Cache.stats r.1)
          ∧ CacheStats.evictions (Cache.stats s') = CacheStats.evictions (Cache.stats r.1)
          ∧ CacheStats.staleEntriesCleaned (Cache.stats s')
            = (CacheStats.staleEntriesCleaned (Cache.stats r.1) + r.2)%nat)
    as (Hc & Hp & Hh & Hm & He & Hs).
  { subst s'. unfold Cache.cleanupStaleEntries. fold r.
    destruct (Nat.ltb_spec 0 r.2); [done|]. split_and!; [done..|lia]. }
  assert (Cache.cache s'
          = filter (λ kv, now ≤ CacheEntry.expiresAt kv.2) (Cache.cache s)) as Hfilter.
  { rewrite Hc. apply map_eq. intros k. apply option_eq. intros e.
    rewrite map_lookup_filter_Some. simpl. split.
    - intros Hk. destruct (Cache.cache s !! k) as [e'|] eqn:Hk'.
      + destruct (Z_gt_le_dec now (CacheEntry.expiresAt e')) as [Hgt|Hle].
        * rewrite (H1 k e') in Hk; [done|by apply elem_of_map_to_list|done].
        * rewrite H2 in Hk.
          -- rewrite Hk' in Hk. by injection Hk as ->.
          -- intros e'' He''. apply elem_of_map_to_list in He''. congruence.
      + rewrite H2 in Hk; [congruence|].
        intros e'' He''. apply elem_of_map_to_list in He''. congruence.
    - intros [Hk Hle]. rewrite H2; [done|].
      intros e'' He''. apply elem_of_map_to_list in He''. congruence. }
  destruct H4 as (H4h & H4m & H4e & H4s & H4p).
  split_and!.
  - done.
  - rewrite Hs, H4s, Hc. lia.
  - congruence.
  - congruence.
  - congruence.
  - congruence.
  - apply cleanup_sublist.
  - apply Inv_cleanup.
  - apply cleanup_preserves; auto using BytesExact_deleteEntry.
  - apply cleanup_nothing_stale. intros k e. rewrite Hfilter.
    rewrite map_lookup_filter_Some. by intros [_ ?].
Qed.

End CacheSweep.

Section CacheKeys.
Context {T : Type}.
Variable calculateSize : T → Z.
Variable config : CacheOptions.t.

Abbreviation State := (Cache.State (T:=T)).
Abbreviation set := (Cache.set calculateSize config).
Abbreviation newEntry := (Cache.newEntry calculateSize config).
Implicit Types (s : State).

Lemma removeKey_filter key (l : list string) :
  NoDup l → removeKey key l = filter (λ x, x ≠ key) l.
Proof.
  induction l as [|x r IH]; intros Hnd; [done|].
  apply NoDup_cons in Hnd as [Hx Hnd]. rewrite removeKey_cons, filter_cons.
  destruct (decide (x = key)) as [->|Hne].
  - rewrite decide_False by (by intros ?). rewrite <- IH by done.
    by rewrite removeKey_not_elem_of.
  - rewrite decide_True by done. by rewrite IH.
Qed.

Lemma filter_removeKey key (l : list string) :
  NoDup l → filter (λ x, x ≠ key) (removeKey key l) = filter (λ x, x ≠ key) l.
Proof.
  intros Hnd. rewrite (removeKey_filter key l Hnd).
  rewrite list_filter_filter. apply list_filter_iff. tauto.
Qed.

(** X4.  [get], [has] and [delete] of one key leave every other key alone:
    its entry is the same afterwards, and the other keys keep their
    relative order in the recency list.  [delete] answers true exactly when
    an entry was stored for the key, expired or not, and then removes it;
    on a key that is not stored, [delete] and [has] change nothing at all
    and [get] changes only the miss counter. *)
Theorem X4_single_key_operations_frame key nowCheck nowTouch (s : State) :
  Inv s →
  let g := Cache.get key nowCheck nowTouch s in
  let b := Cache.has key nowCheck s in
  let d := Cache.deleteFn key s in
  (∀ k, k ≠ key →
     Cache.cache g.2 !! k = Cache.cache s !! k ∧
     Cache.cache b.2 !! k = Cache.cache s !! k ∧
     Cache.cache d.2 !! k = Cache.cache s !! k) ∧
  filter (λ x, x ≠ key) (Cache.accessOrder g.2)
  = filter (λ x, x ≠ key) (Cache.accessOrder s) ∧
  filter (λ x, x ≠ key) (Cache.accessOrder b.2)
  = filter (λ x, x ≠ key) (Cache.accessOrder s) ∧
  filter (λ x, x ≠ key) (Cache.accessOrder d.2)
  = filter (λ x, x ≠ key) (Cache.accessOrder s) ∧
  d.1 = bool_decide (is_Some (Cache.cache s !! key)) ∧
  Cache.cache d.2 !! key = None ∧
  (Cache.cache s !! key = None →
     d.2 = s ∧ b = (false, s) ∧ g = (None, Cache.withStats Cache.addMiss s)).
Proof.
  intros HI g b d. pose proof HI as [Hnd Hkeys].
  assert (∀ k, k ≠ key →
            Cache.cache (Cache.deleteEntry key s).2 !! k = Cache.cache s !! k) as Hdel.
  { intros k Hk. by rewrite deleteEntry_cache, lookup_delete_ne. }
  assert (filter (λ x, x ≠ key) (Cache.accessOrder (Cache.deleteEntry key s).2)
          = filter (λ x, x ≠ key) (Cache.accessOrder s)) as Hdelord.
  { rewrite deleteEntry_accessOrder by done. by apply filter_removeKey. }
  split_and!.
  - intros k Hk. split_and!; [| |by apply Hdel].
    + subst g. destruct (get_cases key nowCheck nowTouch s)
        as [[_ ->]|[(entry & _ & _ & ->)|(entry & _ & _ & ->)]]; cache_norm;
        [done|by apply Hdel|by rewrite lookup_insert_ne].
    + subst b. destruct (has_cases key nowCheck s)
        as [[_ ->]|[(entry & _ & _ & ->)|(entry & _ & _ & ->)]]; cbn [snd];
        [done|by apply Hdel|done].
  - subst g. destruct (get_cases key nowCheck nowTouch s)
      as [[_ ->]|[(entry & _ & _ & ->)|(entry & _ & _ & ->)]]; cache_norm;
      [done|done|].
    rewrite filter_cons, decide_False by (by intros ?). by apply filter_removeKey.
  - subst b. destruct (has_cases key nowCheck s)
      as [[_ ->]|[(entry & _ & _ & ->)|(entry & _ & _ & ->)]]; cbn [snd]; done.
  - done.
  - subst d. unfold Cache.deleteFn, Cache.deleteEntry.
    destruct (Cache.cache s !! key) as [e|]; cbn [fst]; symmetry.
    + apply bool_decide_eq_true_2. by eexists.
    + apply bool_decide_eq_false_2. by intros [? ?].
  - subst d. unfold Cache.deleteFn. rewrite deleteEntry_cache. apply lookup_delete_eq.
  - intros Hk. subst d b g. unfold Cache.deleteFn, Cache.deleteEntry, Cache.has, Cache.get.
    by rewrite Hk.
Qed.

(** X5.  What [set] stores can be read back until it expires.  After
    [set(key, data, ttl, size)] at time [now], the entry of [key] is the
    new one (the given data, expiry [now] plus the effective TTL, last
    access [now], the given size or else the computed one) and [key] is at
    the front of the recency list.  At any time up to the expiry, [has]
    answers true without changing anything, and [get] returns the data,
    counts one hit and no miss, keeps [key] at the front, and changes the
    entry only in its last access time. *)
Theorem X5_set_then_get_round_trip
    key data customTtl size_ now nowCheck nowTouch (s : State) :
  nowCheck ≤ now + js_or customTtl (CacheOptions.ttl config) →
  let s' := set key data customTtl size_ now s in
  let entry := newEntry data customTtl size_ now in
  let g := Cache.get key nowCheck nowTouch s' in
  entry = CacheEntry.mk data (now + js_or customTtl (CacheOptions.ttl config)) now
            (js_or size_ (calculateSize data)) ∧
  Cache.cache s' !! key = Some entry ∧
  head (Cache.accessOrder s') = Some key ∧
  Cache.has key nowCheck s' = (true, s') ∧
  g.1 = Some data ∧
  CacheStats.hits (Cache.stats g.2) = S (CacheStats.hits (Cache.stats s')) ∧
  CacheStats.misses (Cache.stats g.2) = CacheStats.misses (Cache.stats s') ∧
  head (Cache.accessOrder g.2) = Some key ∧
  Cache.cache g.2
  = <[key := CacheEntry.mk data (CacheEntry.expiresAt entry) nowTouch
               (CacheEntry.size entry)]> (Cache.cache s').
Proof.
  intros Hlive s' entry g.
  assert (Cache.cache s' !! key = Some entry) as Hk.
  { subst s'. rewrite set_cache. apply lookup_insert_eq. }
  assert (nowCheck ≤ CacheEntry.expiresAt entry) as Hle by done.
  split_and!.
  - done.
  - done.
  - subst s'. by rewrite set_accessOrder.
  - unfold Cache.has. rewrite Hk.
    by destruct (Z.gtb_spec nowCheck (CacheEntry.expiresAt entry)); [lia|].
  - subst g. by rewrite (get_live key nowCheck nowTouch s' entry Hk Hle).
  - subst g. rewrite (get_live key nowCheck nowTouch s' entry Hk Hle). by cache_norm.
  - subst g. rewrite (get_live key nowCheck nowTouch s' entry Hk Hle). by cache_norm.
  - subst g. rewrite (get_live key nowCheck nowTouch s' entry Hk Hle). by cache_norm.
  - subst g. rewrite (get_live key nowCheck nowTouch s' entry Hk Hle). by cache_norm.
Qed.



End CacheKeys.

Section CacheFetching.
Context {T E : Type}.
Variable calculateSize : T → Z.
Variable isNull : T → bool.
Variable config : CacheOptions.t.

Abbreviation State := (Cache.State (T:=T)).
Abbreviation World := (Cache.World (T:=T) (E:=E)).
Abbreviation Fetch := (Cache.Fetch (T:=T) (E:=E)).
Abbreviation getOrSet := (Cache.getOrSet isNull).
Abbreviation settleFetch := (Cache.settleFetch calculateSize config).
Abbreviation step := (Cache.step calculateSize isNull config).
Abbreviation newEntry := (Cache.newEntry calculateSize config).
Implicit Types (s : State) (w : World) (f : Fetch).

Lemma latency_remove key s :
  Cache.totalResponseTime (Cache.removeFromAccessOrder key s)
  = Cache.totalResponseTime s.
Proof.
  unfold Cache.removeFromAccessOrder.
  by destruct (Cache.indexOf key (Cache.accessOrder s)).
Qed.

(** The state a successful fetch leaves behind. *)
Lemma settleFetch_fulfilled p f data now w :
  Cache.fetches w !! p = Some f → Cache.fetchOutcome f = None →
  let w' := settleFetch p (Cache.Fulfilled data) now w in
  Cache.st w' =
    Cache.withPending (delete (Cache.fetchKey f))
      (Cache.set calculateSize config (Cache.fetchKey f) data (Cache.fetchTtl f)
         (Some (calculateSize data)) now (Cache.st w)) ∧
  Cache.cache (Cache.st w') !! Cache.fetchKey f
  = Some (newEntry data (Cache.fetchTtl f) (Some (calculateSize data)) now) ∧
  Cache.pendingFetches (Cache.st w') !! Cache.fetchKey f = None.
Proof.
  intros Hf Ho w'.
  assert (Cache.st w' =
            Cache.withPending (delete (Cache.fetchKey f))
              (Cache.set calculateSize config (Cache.fetchKey f) data (Cache.fetchTtl f)
                 (Some (calculateSize data)) now (Cache.st w))) as Hst.
  { subst w'. unfold Cache.settleFetch. by rewrite Hf, Ho. }
  split; [done|]. rewrite Hst. cache_simpl. split.
  - rewrite set_cache. apply lookup_insert_eq.
  - apply lookup_delete_eq.
Qed.

(** X7.  A value fetched through [getOrSet] is served from the cache while
    it is fresh.  When the supplier of an in-flight fetch resolves with
    [data] at time [now], every caller awaiting the fetch observes [data],
    the entry is stored with the TTL the starting call asked for, and the
    registration is removed.  A later [getOrSet] of the key whose expiry
    test happens no later than [now] plus the effective TTL returns [data]
    at once, provided [data] is not null: the supplier is not invoked, no
    promise is created, one hit is counted and the latency of the call is
    added to the recorded total. *)
Theorem X7_fetched_value_is_served_from_cache
    (w : World) p f data now customTtl call t0 t1 t2 t3 :
  Cache.fetches w !! p = Some f →
  Cache.fetchOutcome f = None →
  isNull data = false →
  t1 ≤ now + js_or (Cache.fetchTtl f) (CacheOptions.ttl config) →
  let key := Cache.fetchKey f in
  let w' := settleFetch p (Cache.Fulfilled data) now w in
  let r := getOrSet key customTtl call t0 t1 t2 t3 w' in
  Cache.observe (Cache.Awaits p) w' = Some (Cache.Fulfilled data) ∧
  Cache.cache (Cache.st w') !! key
  = Some (newEntry data (Cache.fetchTtl f) (Some (calculateSize data)) now) ∧
  Cache.pendingFetches (Cache.st w') !! key = None ∧
  r.1 = Cache.Returned data ∧
  Cache.fetches r.2 = Cache.fetches w' ∧
  Cache.supplierRuns key r.2 = Cache.supplierRuns key w' ∧
  CacheStats.hits (Cache.stats (Cache.st r.2))
  = S (CacheStats.hits (Cache.stats (Cache.st w'))) ∧
  Cache.totalResponseTime (Cache.st r.2)
  = Cache.totalResponseTime (Cache.st w') + (t3 - t0).
Proof.
  intros Hf Ho Hnull Hfresh key w' r.
  destruct (settleFetch_fulfilled p f data now w Hf Ho) as (_ & Hk & Hp).
  fold w' key in Hk, Hp.
  set (entry := newEntry data (Cache.fetchTtl f) (Some (calculateSize data)) now) in *.
  assert (t1 ≤ CacheEntry.expiresAt entry) as Hle by done.
  assert (r = (Cache.Returned data,
               Cache.mkWorld
                 (Cache.updateStats (t3 - t0) (Cache.get key t1 t2 (Cache.st w')).2)
                 (Cache.fetches w'))) as ->.
  { subst r. unfold Cache.getOrSet. rewrite Hp.
    rewrite (get_live key t1 t2 (Cache.st w') entry Hk Hle). cbn [fst snd].
    change (CacheEntry.data entry) with data. by rewrite Hnull. }
  rewrite (get_live key t1 t2 (Cache.st w') entry Hk Hle).
  split_and!; [by eapply settleFetch_observe|done|done|done|done|done| |].
  - cbn [fst snd Cache.st]. by cache_norm.
  - cbn [fst snd Cache.st]. cache_norm. by rewrite latency_remove.
Qed.

(** X8.  A null result is stored but never served.  When the supplier
    resolves with a value that is null, the entry is stored all the same;
    the next [getOrSet] of the key, even while the entry is fresh, reads
    it, counts a hit, and then treats the null as a miss: it invokes the
    supplier again and awaits a new promise. *)
Theorem X8_null_result_is_fetched_again
    (w : World) p f data now customTtl call t0 t1 t2 t3 :
  Cache.fetches w !! p = Some f →
  Cache.fetchOutcome f = None →
  isNull data = true →
  t1 ≤ now + js_or (Cache.fetchTtl f) (CacheOptions.ttl config) →
  let key := Cache.fetchKey f in
  let w' := settleFetch p (Cache.Fulfilled data) now w in
  let r := getOrSet key customTtl call t0 t1 t2 t3 w' in
  is_Some (Cache.cache (Cache.st w') !! key) ∧
  r.1 = Cache.Awaits (length (Cache.fetches w')) ∧
  Cache.supplierRuns key r.2 = S (Cache.supplierRuns key w') ∧
  Cache.pendingFetches (Cache.st r.2) !! key = Some (length (Cache.fetches w')) ∧
  CacheStats.hits (Cache.stats (Cache.st r.2))
  = S (CacheStats.hits (Cache.stats (Cache.st w'))).
Proof.
  intros Hf Ho Hnull Hfresh key w' r.
  destruct (settleFetch_fulfilled p f data now w Hf Ho) as (_ & Hk & Hp).
  fold w' key in Hk, Hp.
  set (entry := newEntry data (Cache.fetchTtl f) (Some (calculateSize data)) now) in *.
  assert (t1 ≤ CacheEntry.expiresAt entry) as Hle by done.
  assert (r = Cache.startFetch key customTtl t0 call (Cache.get key t1 t2 (Cache.st w')).2
                (Cache.fetches w')) as ->.
  { subst r. unfold Cache.getOrSet. rewrite Hp.
    rewrite (get_live key t1 t2 (Cache.st w') entry Hk Hle). cbn [fst snd].
    change (CacheEntry.data entry) with data. by rewrite Hnull. }
  rewrite (get_live key t1 t2 (Cache.st w') entry Hk Hle).
  unfold Cache.startFetch. cbn [fst snd Cache.st].
  split_and!.
  - by eexists.
  - done.
  - rewrite supplierRuns_snoc. simpl. by rewrite decide_True.
  - cache_simpl. apply register_eq.
  - by cache_norm.
Qed.

(** X9.  [clear] does not cancel a fetch that is in flight.  If [clear]
    runs while a fetch is in flight and the supplier then resolves with
    [data], the callers awaiting the fetch still observe [data], and the
    entry is stored in the cleared cache, where it is the only entry. *)
Theorem X9_clear_does_not_cancel_a_fetch (w : World) p f data now :
  Cache.fetches w !! p = Some f →
  Cache.fetchOutcome f = None →
  let cleared := step (Cache.EvOp Cache.OpClear) w in
  let w' := settleFetch p (Cache.Fulfilled data) now cleared in
  Cache.cache (Cache.st cleared) = ∅ ∧
  Cache.pendingFetches (Cache.st cleared) = ∅ ∧
  Cache.observe (Cache.Awaits p) cleared = None ∧
  Cache.observe (Cache.Awaits p) w' = Some (Cache.Fulfilled data) ∧
  Cache.cache (Cache.st w')
  = {[Cache.fetchKey f :=
        newEntry data (Cache.fetchTtl f) (Some (calculateSize data)) now]} ∧
  Cache.accessOrder (Cache.st w') = [Cache.fetchKey f].
Proof.
  intros Hf Ho cleared w'.
  assert (Cache.fetches cleared !! p = Some f) as Hf' by done.
  destruct (settleFetch_fulfilled p f data now cleared Hf' Ho) as (Hst & _ & _).
  fold w' in Hst.
  split_and!; [done|done| |by eapply settleFetch_observe| |].
  - unfold Cache.observe. simpl. rewrite Hf. simpl. by rewrite Ho.
  - rewrite Hst. cache_simpl. rewrite set_cache. unfold afterCapacityCheck.
    destruct (_ && _); [|done]. unfold Cache.evictLRU. done.
  - rewrite Hst. cache_simpl. rewrite set_accessOrder. unfold afterCapacityCheck.
    destruct (_ && _); [|done]. unfold Cache.evictLRU. done.
Qed.

(** X22.  A supplier that throws leaves its key registered.  Let a call of
    [getOrSet key] find no live entry, no promise registered and no fetch
    in flight for [key], and let its supplier throw before it returns a
    promise: the [finally] block runs before
    [pendingFetches.set(key, fetchPromise)], so the registration is never
    removed.  The caller observes the failure, and whatever follows short
    of [clear] (operations, other calls, any settlement) the key stays
    registered to that rejected promise: every later [getOrSet] of the
    key hands back the rejected promise and invokes no supplier, so the
    supplier count of the key stays where the failed call left it.  Only
    [clear] removes the registration. *)
Theorem X22_throwing_supplier_blocks_its_key
    key customTtl reason t0 t1 t2 t3 (w : World)
    (es : list (Cache.Event (T:=T) (E:=E))) :
  Cache.pendingFetches (Cache.st w) !! key = None →
  NoFetchInFlight key w →
  NoLiveEntry key t1 (Cache.st w) →
  Forall (λ e, e ≠ Cache.EvOp Cache.OpClear) es →
  let p := length (Cache.fetches w) in
  let first := getOrSet key customTtl (Cache.Throws reason) t0 t1 t2 t3 w in
  let w' := Cache.runEvents calculateSize isNull config es first.2 in
  first.1 = Cache.Awaits p ∧
  Cache.observe (Cache.Awaits p) first.2 = Some (Cache.Rejected reason) ∧
  Cache.pendingFetches (Cache.st w') !! key = Some p ∧
  Cache.observe (Cache.Awaits p) w' = Some (Cache.Rejected reason) ∧
  Cache.supplierRuns key w' = S (Cache.supplierRuns key w) ∧
  (∀ customTtl' call' t0' t1' t2' t3',
     getOrSet key customTtl' call' t0' t1' t2' t3' w' = (Cache.Awaits p, w')) ∧
  Cache.pendingFetches (Cache.st (step (Cache.EvOp Cache.OpClear) w')) = ∅.
Proof.
  intros Hp Hnone Hlive Hes p first w'.
  destruct (Window_open isNull key customTtl (Cache.Throws reason)
              t0 t1 t2 t3 w Hp Hnone Hlive) as [Hfirst Hopen].
  fold first p in Hfirst, Hopen.
  assert (Forall (KeepsWindow p (Some (Cache.Rejected reason))) es) as Hkeeps.
  { eapply Forall_impl; [exact Hes|]. intros e He. by split. }
  pose proof Hopen as (_ & (f0 & Hf0 & _ & Ho0) & _).
  pose proof (Window_run calculateSize isNull config key p _ _ es first.2 Hkeeps Hopen)
    as (Hreg & (f & Hf & Hkey & Ho) & _ & Hruns).
  fold w' in Hreg, Hf, Hruns.
  split_and!; [done| |done| |done| |done].
  - unfold Cache.observe. by rewrite Hf0.
  - unfold Cache.observe. by rewrite Hf.
  - intros. by apply getOrSet_joins.
Qed.

End CacheFetching.

(* ===================================================================== *)
(** * The async queue: statistics, idle slots, clear and lost tasks *)
(* ===================================================================== *)

Module AsyncQueueStats.
Record t := mk {
  queueSize : nat;
  activeWorkers : Z;
  maxConcurrent : Z;
  completedTasks : nat;
  failedTasks : nat;
  totalProcessed : nat;
}.
End AsyncQueueStats.

Module QueueApi.
Section WithTask.
Context {Task : Type}.
Variable maxConcurrent : Z.

(** [getStats] of createAsyncQueue. *)
Definition getStats (s : Queue.State (Task:=Task)) : AsyncQueueStats.t :=
  AsyncQueueStats.mk (length (Queue.queue s)) (Queue.activeWorkers s) maxConcurrent
    (Queue.completedTasks s) (Queue.failedTasks s)
    (Queue.completedTasks s + Queue.failedTasks s).

(** [getQueueItems]: a copy of the pending items. *)
Definition getQueueItems (s : Queue.State (Task:=Task))
    : list (Queue.QueueItem (Task:=Task)) :=
  Queue.queue s.

End WithTask.
End QueueApi.

Section QueueAccounting.
Context {Task : Type}.
Variable syncSubmits : Task → list (Task * Z * string).
Variable maxConcurrent : Z.

Abbreviation State := (Queue.State (Task:=Task)).
Abbreviation QueueItem := (Queue.QueueItem (Task:=Task)).
Abbreviation QEvent := (Queue.Event (Task:=Task)).
Abbreviation startTask := (Queue.startTask syncSubmits).
Abbreviation dispatchLoop := (Queue.dispatchLoop syncSubmits maxConcurrent).
Abbreviation processQueue := (Queue.processQueue syncSubmits maxConcurrent).
Abbreviation qstep := (Queue.step syncSubmits maxConcurrent).
Abbreviation replay := (Queue.replay syncSubmits maxConcurrent).
Abbreviation Reachable := (Reachable syncSubmits maxConcurrent).
Implicit Types (s : State) (item : QueueItem) (h : list QEvent).

(** ** Pieces of the code and the callbacks built from them *)

Lemma processQueue_preserves (P : State → Prop) :
  (∀ item rest s, P s → Queue.queue s = item :: rest →
                  P (startTask item (Queue.withQueue (λ _, rest) s))) →
  (∀ b s, P s → P (Queue.withProcessing b s)) →
  ∀ s, P s → P (processQueue s).
Proof.
  intros Hstart Hflag s HP. unfold Queue.processQueue.
  destruct (_ || _); [done|]. apply Hflag.
  generalize (Z.to_nat (maxConcurrent
                        - Queue.activeWorkers (Queue.withProcessing true s))).
  intros n. generalize (Hflag true s HP). generalize (Queue.withProcessing true s).
  induction n as [|n IH]; intros s' HP'; [done|]. simpl.
  destruct (Queue.queue s') as [|item rest] eqn:Hq; [done|].
  destruct (_ <? _); [|done]. apply IH. by apply Hstart.
Qed.

Lemma qstep_preserves (P : State → Prop) :
  (∀ t p i s, P s → P (Queue.submit t p i s)) →
  (∀ item rest s, P s → Queue.queue s = item :: rest →
                  P (startTask item (Queue.withQueue (λ _, rest) s))) →
  (∀ b s, P s → P (Queue.withProcessing b s)) →
  (∀ u ok s, P s → P (Queue.settleTask u ok s)) →
  (∀ u s, P s → Queue.inFlight s !! u = Some true → P (Queue.releaseWorker u s)) →
  (∀ s, P s → P (Queue.clear s)) →
  ∀ e s, P s → P (qstep e s).
Proof.
  intros Hsub Hstart Hflag Hsettle Hrel Hclear e s HP.
  destruct e as [t p i g|u ok|u|]; cbn [Queue.step].
  - unfold Queue.enqueue. apply processQueue_preserves; auto.
  - auto.
  - unfold Queue.finalizeTask.
    destruct (Queue.inFlight s !! u) as [[]|] eqn:Hu; [|done..].
    apply processQueue_preserves; auto.
  - auto.
Qed.

(** ** No idle slot while a task waits *)

Definition AtRest (s : State) : Prop :=
  Queue.isProcessing s = false ∧
  (Queue.queue s = [] ∨ maxConcurrent ≤ Queue.activeWorkers s).

Lemma AtRest_processQueue s :
  Queue.isProcessing s = false → AtRest (processQueue s).
Proof.
  intros Hflag. split; [|by apply processQueue_complete].
  unfold Queue.processQueue. rewrite Hflag. simpl. by destruct (_ >=? _).
Qed.

(** X10.  As long as every task that is started returns a promise (the
    tasks of this model; a task that throws before it returns one makes
    [processQueue] exit with [isProcessing] still set), between callbacks
    the queue never leaves a slot idle while a task waits: after any
    history of submissions, completions and [clear]s, [isProcessing] is
    false and either nothing is pending or [activeWorkers] has reached
    [maxConcurrent].  In terms of [getStats]: a positive [queueSize]
    implies [activeWorkers >= maxConcurrent]. *)
Theorem X10_no_idle_slot_while_tasks_wait h :
  let s := replay h in
  Queue.isProcessing s = false ∧
  (Queue.queue s = [] ∨ maxConcurrent ≤ Queue.activeWorkers s) ∧
  ((0 < AsyncQueueStats.queueSize (QueueApi.getStats maxConcurrent s))%nat →
   AsyncQueueStats.maxConcurrent (QueueApi.getStats maxConcurrent s)
   ≤ AsyncQueueStats.activeWorkers (QueueApi.getStats maxConcurrent s)).
Proof.
  intros s. assert (AtRest s) as [Hflag Hrest].
  { subst s. induction h as [|e h IH]; [by split; [|left]|].
    destruct IH as [Hflag Hrest]. cbn [Queue.replay].
    destruct e as [t p i g|u ok|u|]; cbn [Queue.step].
    - unfold Queue.enqueue. by apply AtRest_processQueue.
    - unfold Queue.settleTask.
      by destruct (Queue.inFlight (replay h) !! u) as [[]|].
    - unfold Queue.finalizeTask.
      destruct (Queue.inFlight (replay h) !! u) as [[]|]; [|done..].
      by apply AtRest_processQueue.
    - split; [done|by left]. }
  split_and!; [done..|]. simpl. intros Hpos.
  destruct Hrest as [Hq|?]; [|done]. rewrite Hq in Hpos. simpl in Hpos. lia.
Qed.

(** ** Every started operation is counted once *)

(** The started operations whose [then]/[catch] callback has not run. *)
Definition untallied (s : State) : nat :=
  size (filter (λ kv : nat * bool, kv.2 = false) (Queue.inFlight s)).

Definition Tallied (s : State) : Prop :=
  length (Queue.dispatched s)
  = (Queue.completedTasks s + Queue.failedTasks s + untallied s)%nat.

Lemma submits_tally (l : list (Task * Z * string)) s :
  let s' := foldl (λ s' '(t, p, i), Queue.submit t p i s') s l in
  Queue.completedTasks s' = Queue.completedTasks s ∧
  Queue.failedTasks s' = Queue.failedTasks s ∧
  Queue.inFlight s' = Queue.inFlight s ∧
  Queue.dispatched s' = Queue.dispatched s.
Proof.
  revert s. induction l as [|[[t p] i] l IH]; intros s; [done|].
  simpl. destruct (IH (Queue.submit t p i s)) as (-> & -> & -> & ->). done.
Qed.

Lemma Tallied_Reachable s : Reachable s → Tallied s.
Proof.
  induction 1 as [|t p i s _ IH|item rest s Hs IH Hq Hfree|b s _ IH
                  |u ok s _ IH|u s _ IH Hu|s _ IH]; unfold Tallied, untallied in *.
  - simpl. by rewrite map_filter_empty, map_size_empty.
  - done.
  - unfold Queue.startTask.
    match goal with |- context [foldl ?f ?s1 ?l] =>
      destruct (submits_tally l s1) as (-> & -> & -> & ->) end. simpl.
    pose proof (QInv_Reachable _ _ s Hs) as (_ & Hnd & _ & Hfl & _).
    rewrite Hq in Hnd. simpl in Hnd.
    assert (Queue.inFlight s !! Queue.uid item = None) as Hnone.
    { destruct (Queue.inFlight s !! Queue.uid item) eqn:Hu; [|done].
      exfalso. apply NoDup_app in Hnd as (_ & Hdisj & _).
      apply (Hdisj (Queue.uid item)); [apply Hfl; by eexists|by left]. }
    rewrite map_filter_insert_True by done.
    rewrite map_size_insert_None by (by rewrite map_lookup_filter, Hnone).
    rewrite IH. lia.
  - done.
  - unfold Queue.settleTask.
    destruct (Queue.inFlight s !! u) as [[]|] eqn:Hu; [done| |done]. simpl.
    rewrite map_filter_insert_False by done.
    rewrite map_filter_delete, map_size_delete.
    rewrite (map_lookup_filter_Some_2 _ _ u false) by done. simpl.
    assert (size (filter (λ kv : nat * bool, kv.2 = false) (Queue.inFlight s)) ≠ 0%nat).
    { intros H0. apply map_size_empty_inv in H0.
      eapply (map_filter_empty_not_lookup _ _ u false); done. }
    destruct ok; lia.
  - simpl. rewrite map_filter_delete, map_size_delete.
    rewrite (proj2 (map_lookup_filter_None _ _ u)); [done|].
    right. intros b Hb. rewrite Hu in Hb. by injection Hb as <-.
  - done.
Qed.

(** X11.  Every operation the queue has started is accounted for exactly
    once: in every reachable state the number of dispatches equals
    [getStats().totalProcessed] (completed plus failed) plus the number of
    started operations whose outcome has not been tallied yet, and that
    number is at most [activeWorkers]. *)
Theorem X11_started_operations_are_tallied_once s :
  Reachable s →
  length (Queue.dispatched s)
  = (AsyncQueueStats.totalProcessed (QueueApi.getStats maxConcurrent s)
     + untallied s)%nat ∧
  Z.of_nat (untallied s) ≤ Queue.activeWorkers s.
Proof.
  intros Hs. split; [apply (Tallied_Reachable s Hs)|].
  pose proof (QInv_Reachable _ _ s Hs) as (-> & _).
  pose proof (map_size_filter (λ kv : nat * bool, kv.2 = false) (Queue.inFlight s)).
  unfold untallied. lia.
Qed.

(** ** Tasks dropped by clear *)

(** Item [u] was submitted, is not pending and was never started. *)
Definition Dropped (u : nat) (s : State) : Prop :=
  (u < Queue.nextUid s)%nat ∧
  (u ∉ Queue.uid <$> Queue.queue s) ∧
  (u ∉ Queue.dispatched s).

Lemma Dropped_submit u t p i s : Dropped u s → Dropped u (Queue.submit t p i s).
Proof.
  intros (Hlt & Hq & Hd). split_and!; simpl; [lia| |done].
  rewrite insertItem_perm. simpl. apply not_elem_of_cons. split; [lia|done].
Qed.

Lemma Dropped_submits u (l : list (Task * Z * string)) s :
  Dropped u s → Dropped u (foldl (λ s' '(t, p, i), Queue.submit t p i s') s l).
Proof.
  revert s. induction l as [|[[t p] i] l IH]; intros s Hs; [done|].
  simpl. by apply IH, Dropped_submit.
Qed.

Lemma Dropped_start u item rest s :
  Dropped u s → Queue.queue s = item :: rest →
  Dropped u (startTask item (Queue.withQueue (λ _, rest) s)).
Proof.
  intros (Hlt & Hq & Hd) Hqueue. unfold Queue.startTask. apply Dropped_submits.
  rewrite Hqueue in Hq. simpl in Hq. apply not_elem_of_cons in Hq as [Hne Hq].
  split_and!; simpl; [done|done|]. apply not_elem_of_cons. by split.
Qed.

Lemma Dropped_step u e s : Dropped u s → Dropped u (qstep e s).
Proof.
  apply (qstep_preserves (Dropped u)).
  - intros. by apply Dropped_submit.
  - intros. by apply Dropped_start.
  - done.
  - intros u' ok s' H. unfold Queue.settleTask.
    by destruct (Queue.inFlight s' !! u') as [[]|].
  - done.
  - intros s' (Hlt & _ & Hd). split_and!; [done| |done]. simpl. apply not_elem_of_nil.
Qed.

(** X12.  [clear] abandons the pending tasks for good and touches nothing
    else: a task that is pending when [clear] is called is never started,
    whatever is submitted or completes afterwards; the running operations,
    [activeWorkers] and the completed and failed tallies are what they were
    before the call, and nothing is pending right after it. *)
Theorem X12_cleared_tasks_are_never_started h h' item :
  item ∈ Queue.queue (replay h) →
  (Queue.uid item ∉ Queue.dispatched (replay (h' ++ Queue.EvClear :: h))) ∧
  (Queue.uid item ∉ Queue.uid <$> Queue.queue (replay (h' ++ Queue.EvClear :: h))) ∧
  let s := replay h in
  let s' := replay (Queue.EvClear :: h) in
  Queue.queue s' = [] ∧
  Queue.activeWorkers s' = Queue.activeWorkers s ∧
  Queue.inFlight s' = Queue.inFlight s ∧
  Queue.completedTasks s' = Queue.completedTasks s ∧
  Queue.failedTasks s' = Queue.failedTasks s ∧
  Queue.dispatched s' = Queue.dispatched s.
Proof.
  intros Hitem.
  assert (Dropped (Queue.uid item) (replay (h' ++ Queue.EvClear :: h))) as (_ & Hq & Hd).
  { induction h' as [|e h' IH]; [|by apply Dropped_step].
    pose proof (QInv_Reachable _ _ _ (Reachable_replay syncSubmits maxConcurrent h))
      as (_ & Hnd & Hlt & _).
    assert (Queue.uid item ∈ Queue.uid <$> Queue.queue (replay h)) as Hin
      by (by apply list_elem_of_fmap_2).
    split_and!; simpl.
    - apply Hlt. apply elem_of_app. by right.
    - apply not_elem_of_nil.
    - intros Hd. apply NoDup_app in Hnd as (_ & Hdisj & _). by apply (Hdisj _ Hd). }
  by split_and!.
Qed.

(** ** No task is lost without clear *)

Definition isClear (e : QEvent) : Prop :=
  match e with
  | Queue.EvClear => True
  | _ => False
  end.

(** Every item that was submitted is pending or was started. *)
Definition Kept (s : State) : Prop :=
  ∀ u, (u < Queue.nextUid s)%nat →
       u ∈ Queue.dispatched s ∨ u ∈ Queue.uid <$> Queue.queue s.

Lemma Kept_submit t p i s : Kept s → Kept (Queue.submit t p i s).
Proof.
  intros Hk u Hu. simpl in *. rewrite insertItem_perm. simpl.
  destruct (decide (u = Queue.nextUid s)) as [->|Hne]; [right; by left|].
  destruct (Hk u) as [?|?]; [lia|by left|right; by right].
Qed.

Lemma Kept_submits (l : list (Task * Z * string)) s :
  Kept s → Kept (foldl (λ s' '(t, p, i), Queue.submit t p i s') s l).
Proof.
  revert s. induction l as [|[[t p] i] l IH]; intros s Hs; [done|].
  simpl. by apply IH, Kept_submit.
Qed.

Lemma Kept_start item rest s :
  Kept s → Queue.queue s = item :: rest →
  Kept (startTask item (Queue.withQueue (λ _, rest) s)).
Proof.
  intros Hk Hq. unfold Queue.startTask. apply Kept_submits.
  intros u Hu. simpl in *. destruct (Hk u Hu) as [?|Hin]; [left; by right|].
  rewrite Hq in Hin. simpl in Hin.
  apply elem_of_cons in Hin as [->|?]; [left; by left|by right].
Qed.

(** X13.  Without [clear] no task is lost or started twice.  After any
    history of submissions and completions that contains no [clear], every
    item ever submitted (from outside or by a starting task) is either
    still pending or has been started, never both, and the number of items
    submitted is the number pending plus the number started. *)
Theorem X13_no_task_is_lost_without_clear h :
  Forall (λ e, ¬ isClear e) h →
  let s := replay h in
  (∀ u, (u < Queue.nextUid s)%nat ↔
        u ∈ Queue.dispatched s ∨ u ∈ Queue.uid <$> Queue.queue s) ∧
  (∀ u, u ∈ Queue.dispatched s → u ∉ Queue.uid <$> Queue.queue s) ∧
  Queue.nextUid s = (length (Queue.dispatched s) + length (Queue.queue s))%nat.
Proof.
  intros Hh s.
  assert (Kept s) as Hkept.
  { subst s. induction Hh as [|e h He Hh IH]; [by intros u Hu; simpl in Hu; lia|].
    cbn [Queue.replay].
    assert (∀ s', Kept s' → Kept (processQueue s')) as Hproc.
    { apply processQueue_preserves; [|done]. intros. by apply Kept_start. }
    destruct e as [t p i g|u ok|u|]; cbn [Queue.step]; [| | |by destruct He].
    - unfold Queue.enqueue. by apply Hproc, Kept_submit.
    - unfold Queue.settleTask.
      by destruct (Queue.inFlight (replay h) !! u) as [[]|].
    - unfold Queue.finalizeTask.
      destruct (Queue.inFlight (replay h) !! u) as [[]|]; [|done..].
      by apply Hproc. }
  pose proof (QInv_Reachable _ _ _ (Reachable_replay syncSubmits maxConcurrent h))
    as (_ & Hnd & Hlt & _). fold s in Hnd, Hlt.
  split_and!.
  - intros u. split; [apply Hkept|]. intros Hu. apply Hlt. by apply elem_of_app.
  - intros u Hd Hq. apply NoDup_app in Hnd as (_ & Hdisj & _). by apply (Hdisj u).
  - assert (Queue.dispatched s ++ (Queue.uid <$> Queue.queue s)
            ≡ₚ seq 0 (Queue.nextUid s)) as Hperm.
    { apply NoDup_Permutation; [done|apply NoDup_seq|].
      intros u. rewrite elem_of_seq, elem_of_app. split.
      - intros Hu. split; [lia|]. simpl. apply Hlt. by apply elem_of_app.
      - intros [_ Hu]. by apply Hkept. }
    apply Permutation_length in Hperm.
    rewrite length_app, length_fmap, length_seq in Hperm. lia.
Qed.

End QueueAccounting.

(* ===================================================================== *)
(** * The rate limiter: the sweep, Retry-After and the sliding windows *)
(* ===================================================================== *)

Section RateLimitWindows.
Variable config : RateLimit.RateLimitConfig.

Abbreviation isAllowed := (RateLimit.isAllowed config).
Abbreviation cleanup := (RateLimit.cleanup config).
Implicit Types (m : gmap string RateLimit.RateLimitData) (l : list Z).

(** The timestamps of [l] that are within a window of length [W] at [now]. *)
Definition window (W now : Z) l : list Z := filter (λ t, now - t < W) l.

Lemma window_window W t now l :
  t ≤ now → window W now (window W t l) = window W now l.
Proof.
  intros Hle. unfold window. apply list_filter_filter_l. intros x. simpl. lia.
Qed.

Lemma window_app W now l1 l2 :
  window W now (l1 ++ l2) = window W now l1 ++ window W now l2.
Proof. apply filter_app. Qed.

Lemma views_insert ip0 d m now :
  sustained config ip0 now (<[ip0 := d]> m)
  = window (RateLimit.timeWindow config) now (RateLimit.timestamps d) ∧
  burst config ip0 now (<[ip0 := d]> m)
  = window (RateLimit.burstWindow config) now (RateLimit.burstTimestamps d).
Proof. unfold sustained, burst. by rewrite lookup_insert_eq. Qed.

Lemma views_insert_ne ip ip0 d m now :
  ip ≠ ip0 →
  sustained config ip now (<[ip0 := d]> m) = sustained config ip now m ∧
  burst config ip now (<[ip0 := d]> m) = burst config ip now m.
Proof. intros. unfold sustained, burst. by rewrite lookup_insert_ne. Qed.

(** The three outcomes of a check, by the pruned sequences. *)
Lemma isAllowed_cases ip now m :
  let ts := sustained config ip now m in
  let bts := burst config ip now m in
  (RateLimit.burstCapacity config ≤ Z.of_nat (length bts) ∧
   isAllowed ip now m
   = (RateLimit.deny config now (RateLimit.burstWindow config) bts,
      alter (λ _, RateLimit.mkData ts bts) ip m)) ∨
  (Z.of_nat (length bts) < RateLimit.burstCapacity config ∧
   RateLimit.maxRequests config ≤ Z.of_nat (length ts) ∧
   isAllowed ip now m
   = (RateLimit.deny config now (RateLimit.timeWindow config) ts,
      alter (λ _, RateLimit.mkData ts bts) ip m)) ∨
  (Z.of_nat (length bts) < RateLimit.burstCapacity config ∧
   Z.of_nat (length ts) < RateLimit.maxRequests config ∧
   isAllowed ip now m
   = (RateLimit.mkResult true (RateLimit.Finite 0)
        (Z.max 0 (RateLimit.maxRequests config - Z.of_nat (length (ts ++ [now]))))
        (RateLimit.maxRequests config)
        (RateLimit.Finite (now + RateLimit.timeWindow config)),
      <[ip := RateLimit.mkData (ts ++ [now]) (bts ++ [now])]> m)).
Proof.
  intros ts bts. unfold RateLimit.isAllowed.
  fold (sustained config ip now m) (burst config ip now m).
  fold ts bts.
  destruct (Z.geb_spec (Z.of_nat (length bts)) (RateLimit.burstCapacity config));
    [by left|].
  destruct (Z.geb_spec (Z.of_nat (length ts)) (RateLimit.maxRequests config));
    [right; by left|right; by right].
Qed.

(** The pruned sequences after a check, seen at the time of the check or
    later: an allowed check appends its time for its client; nothing else
    is visible. *)
Lemma views_after_check ip0 t m ip now :
  t ≤ now →
  let r := isAllowed ip0 t m in
  sustained config ip now r.2 =
    (if decide (ip = ip0 ∧ RateLimit.allowed r.1 = true)
     then window (RateLimit.timeWindow config) now (sustained config ip0 t m ++ [t])
     else sustained config ip now m) ∧
  burst config ip now r.2 =
    (if decide (ip = ip0 ∧ RateLimit.allowed r.1 = true)
     then window (RateLimit.burstWindow config) now (burst config ip0 t m ++ [t])
     else burst config ip now m).
Proof.
  intros Hle r.
  assert (sustained config ip now (alter (λ _, RateLimit.mkData (sustained config ip0 t m) (burst config ip0 t m)) ip0 m)
          = sustained config ip now m ∧
          burst config ip now (alter (λ _, RateLimit.mkData (sustained config ip0 t m) (burst config ip0 t m)) ip0 m)
          = burst config ip now m) as Hdenied.
  { unfold sustained, burst. rewrite lookup_alter.
    destruct (decide (ip0 = ip)) as [->|]; [|done].
    destruct (m !! ip) as [d|]; [|done]. simpl.
    split; by apply (window_window _ t now). }
  subst r. destruct (isAllowed_cases ip0 t m)
    as [[_ ->]|[(_ & _ & ->)|(_ & _ & ->)]]; cbn [fst snd RateLimit.allowed].
  - rewrite !decide_False by (intros [_ H]; by cbv [RateLimit.deny RateLimit.allowed] in H).
    done.
  - rewrite !decide_False by (intros [_ H]; by cbv [RateLimit.deny RateLimit.allowed] in H).
    done.
  - destruct (decide (ip = ip0)) as [->|Hne].
    + rewrite !decide_True by done. apply views_insert.
    + rewrite !decide_False by (by intros [? _]). by apply views_insert_ne.
Qed.

(** The decision of a check is a function of the two pruned sequences. *)
Lemma isAllowed_result_by_views ip now m1 m2 :
  sustained config ip now m1 = sustained config ip now m2 →
  burst config ip now m1 = burst config ip now m2 →
  (isAllowed ip now m1).1 = (isAllowed ip now m2).1.
Proof.
  intros Hs Hb. unfold RateLimit.isAllowed.
  fold (sustained config ip now m1) (burst config ip now m1).
  fold (sustained config ip now m2) (burst config ip now m2).
  rewrite Hs, Hb. by repeat destruct (_ >=? _).
Qed.

(** ** The sweep is invisible *)

(** Two maps that every check at time [t] or later sees alike. *)
Definition SameView (t : Z) m1 m2 : Prop :=
  ∀ ip now, t ≤ now →
    sustained config ip now m1 = sustained config ip now m2 ∧ burst config ip now m1 = burst config ip now m2.

Lemma SameView_cleanup now m : SameView now (cleanup now m) m.
Proof.
  intros ip now' Hle. unfold sustained, burst, RateLimit.cleanup.
  rewrite lookup_omap. destruct (m !! ip) as [d|]; [|done]. simpl.
  destruct (bool_decide_reflect
              (filter (λ t, now - t < RateLimit.timeWindow config) (RateLimit.timestamps d) = []
               ∧ filter (λ t, now - t < RateLimit.burstWindow config)
                   (RateLimit.burstTimestamps d) = [])) as [[H1 H2]|_]; simpl.
  - split.
    + etrans; [|apply (window_window (RateLimit.timeWindow config) now now' _ Hle)].
      unfold window. by rewrite H1.
    + etrans; [|apply (window_window (RateLimit.burstWindow config) now now' _ Hle)].
      unfold window. by rewrite H2.
  - split; by apply (window_window _ now now').
Qed.

Lemma SameView_check t m1 m2 ip0 t' :
  SameView t m1 m2 → t ≤ t' →
  (isAllowed ip0 t' m1).1 = (isAllowed ip0 t' m2).1 ∧
  SameView t' (isAllowed ip0 t' m1).2 (isAllowed ip0 t' m2).2.
Proof.
  intros Hsame Hle.
  destruct (Hsame ip0 t' Hle) as [Hs Hb].
  pose proof (isAllowed_result_by_views ip0 t' m1 m2 Hs Hb) as Hres.
  split; [done|]. intros ip now Hnow.
  destruct (views_after_check ip0 t' m1 ip now Hnow) as [-> ->].
  destruct (views_after_check ip0 t' m2 ip now Hnow) as [-> ->].
  rewrite Hres, Hs, Hb. destruct (decide _); [done|]. apply Hsame. lia.
Qed.

(** The decisions of a sequence of checks, first check first. *)
Fixpoint decisions (checks : list (string * Z)) m : list RateLimit.RateLimitResult :=
  match checks with
  | [] => []
  | (ip, t) :: rest =>
      let r := isAllowed ip t m in
      r.1 :: decisions rest r.2
  end.

(** The checks happen at [t0] or later, in the order of their times. *)
Fixpoint InOrder (t0 : Z) (checks : list (string * Z)) : Prop :=
  match checks with
  | [] => True
  | (_, t) :: rest => t0 ≤ t ∧ InOrder t rest
  end.

Lemma SameView_decisions checks : ∀ t m1 m2,
  SameView t m1 m2 → InOrder t checks → decisions checks m1 = decisions checks m2.
Proof.
  induction checks as [|[ip t'] rest IH]; intros t m1 m2 Hsame Hord; [done|].
  destruct Hord as [Hle Hord]. simpl.
  destruct (SameView_check t m1 m2 ip t' Hsame Hle) as [-> Hsame'].
  f_equal. by eapply IH.
Qed.

(** X14.  The periodic sweep of the limiter is invisible to its clients:
    for a clock that does not run backwards, any sequence of later checks
    gets exactly the same decisions (allowed, retryAfter, remaining, limit,
    reset) whether or not a sweep ran at time [now].  After the sweep every
    client still on record has a timestamp left in one of its windows, and
    every timestamp on record is inside its window. *)
Theorem X14_sweep_never_changes_a_decision now m (checks : list (string * Z)) :
  InOrder now checks →
  decisions checks (cleanup now m) = decisions checks m ∧
  ∀ ip d, cleanup now m !! ip = Some d →
    (RateLimit.timestamps d ≠ [] ∨ RateLimit.burstTimestamps d ≠ []) ∧
    (∀ t, t ∈ RateLimit.timestamps d → now - t < RateLimit.timeWindow config) ∧
    (∀ t, t ∈ RateLimit.burstTimestamps d → now - t < RateLimit.burstWindow config).
Proof.
  intros Hord. split.
  - eapply SameView_decisions; [apply SameView_cleanup|done].
  - intros ip d. unfold RateLimit.cleanup. rewrite lookup_omap.
    destruct (m !! ip) as [d0|]; [|done]. simpl.
    destruct (bool_decide_reflect
                (filter (λ t, now - t < RateLimit.timeWindow config)
                        (RateLimit.timestamps d0) = []
                 ∧ filter (λ t, now - t < RateLimit.burstWindow config)
                     (RateLimit.burstTimestamps d0) = [])) as [|Hne]; [done|].
    intros [= <-]. simpl. split_and!.
    + destruct (filter _ (RateLimit.timestamps d0)); [|by left].
      destruct (filter _ (RateLimit.burstTimestamps d0)); [|by right].
      by destruct Hne.
    + intros t Ht. by apply list_elem_of_filter in Ht as [? _].
    + intros t Ht. by apply list_elem_of_filter in Ht as [? _].
Qed.

(** ** Retry-After *)

Lemma window_all W now l :
  (∀ x, x ∈ l → now - x < W) → window W now l = l.
Proof.
  induction l as [|x l IH]; [done|]. intros Hall. unfold window.
  rewrite filter_cons, decide_True by (apply Hall; by left).
  f_equal. apply IH. intros y Hy. apply Hall. by right.
Qed.

(** Until the oldest timestamp of a window leaves it, the window keeps all
    its timestamps. *)
Lemma window_still_full W now t l oldest :
  (∀ x, x ∈ window W now l → oldest ≤ x) →
  now ≤ t → t - oldest < W →
  window W t l = window W now l.
Proof.
  intros Hmin Hle Hin. rewrite <- (window_window W now t l Hle).
  apply window_all. intros x Hx. specialize (Hmin x Hx). lia.
Qed.

(** Once the oldest timestamp has left, the window is shorter. *)
Lemma window_oldest_left W now t l oldest :
  oldest ∈ window W now l → now ≤ t → W ≤ t - oldest →
  (length (window W t l) < length (window W now l))%nat.
Proof.
  intros Hin Hle Hout. rewrite <- (window_window W now t l Hle).
  apply (length_filter_lt _ _ oldest); [done|]. lia.
Qed.

Lemma window_elem W now l x : x ∈ window W now l → now - x < W.
Proof. intros Hx. by apply list_elem_of_filter in Hx as [? _]. Qed.

Lemma views_within ip now m :
  WithinLimits config m →
  Z.of_nat (length (sustained config ip now m)) ≤ Z.max 0 (RateLimit.maxRequests config) ∧
  Z.of_nat (length (burst config ip now m)) ≤ Z.max 0 (RateLimit.burstCapacity config).
Proof.
  intros Hw. unfold sustained, burst.
  destruct (m !! ip) as [d|] eqn:Hd; simpl; [|lia].
  destruct (Hw ip d Hd) as [H1 H2].
  pose proof (length_filter_le (λ t, now - t < RateLimit.timeWindow config)
                (RateLimit.timestamps d)).
  pose proof (length_filter_le (λ t, now - t < RateLimit.burstWindow config)
                (RateLimit.burstTimestamps d)).
  lia.
Qed.

(** A check is denied as soon as one of the two windows is full. *)
Lemma isAllowed_denied ip now m :
  RateLimit.burstCapacity config ≤ Z.of_nat (length (burst config ip now m)) ∨
  RateLimit.maxRequests config ≤ Z.of_nat (length (sustained config ip now m)) →
  RateLimit.allowed (isAllowed ip now m).1 = false.
Proof.
  intros Hfull.
  destruct (isAllowed_cases ip now m) as [[_ ->]|[(_ & _ & ->)|(? & ? & _)]];
    [done|done|lia].
Qed.

(** X15.  Retry-After is honest and exact.  With positive limits, after any
    history of checks and sweeps, let a check of client [ip] at time [now] be
    denied.  Then [retryAfter] is a positive whole number [r] of seconds such
    that (1) if nothing else happens in between, a retry of the same client
    at any time from [now] up to [now + 1000 * (r - 1)] milliseconds is
    denied again, and (2) at any time from [now + 1000 * r] on, the limit
    that caused the denial (the burst limit when the burst window was full,
    the sustained limit otherwise) has room again. *)
Theorem X15_retry_after_is_honest_and_exact (h : list RateLimit.Event) ip now :
  0 < RateLimit.maxRequests config →
  0 < RateLimit.burstCapacity config →
  let m := RateLimit.replay config h in
  let res := isAllowed ip now m in
  RateLimit.allowed res.1 = false →
  ∃ r, RateLimit.retryAfter res.1 = RateLimit.Finite r ∧ 0 < r ∧
    (∀ t, now ≤ t ≤ now + 1000 * (r - 1) →
       RateLimit.allowed (isAllowed ip t res.2).1 = false) ∧
    (∀ t, now + 1000 * r ≤ t →
       if decide (RateLimit.burstCapacity config ≤ Z.of_nat (length (burst config ip now m)))
       then Z.of_nat (length (burst config ip t res.2)) < RateLimit.burstCapacity config
       else Z.of_nat (length (sustained config ip t res.2)) < RateLimit.maxRequests config).
Proof.
  intros Hmax Hcap m res Hdenied.
  pose proof (WithinLimits_replay config h) as Hw. fold m in Hw.
  destruct (views_within ip now m Hw) as [Hs Hb].
  assert (∀ t, now ≤ t →
            sustained config ip t res.2 = sustained config ip t m ∧
            burst config ip t res.2 = burst config ip t m) as Hviews.
  { intros t Ht. destruct (views_after_check ip now m ip t Ht) as [H1 H2].
    fold res in H1, H2. rewrite decide_False in H1, H2 by (rewrite Hdenied; by intros [_ ?]).
    done. }
  destruct (isAllowed_cases ip now m) as [[Hfull Heq]|[(Hroom & Hfull & Heq)|(_ & _ & Heq)]];
    fold res in Heq; last (by rewrite Heq in Hdenied).
  - (* the burst window was full *)
    destruct (deny_spec config now (RateLimit.burstWindow config) (burst config ip now m))
      as (_ & _ & _ & oldest & r & Hin & Hmin & Hr & Hceil & Hpos & _).
    { intros Hnil. rewrite Hnil in Hfull. simpl in Hfull. lia. }
    { apply window_elem. }
    exists r. split_and!; [by rewrite Heq|done|..].
    + intros t Ht. apply isAllowed_denied. left.
      destruct (Hviews t ltac:(lia)) as [_ ->].
      pose proof (window_still_full (RateLimit.burstWindow config) now t
                    (RateLimit.burstTimestamps (default (RateLimit.mkData [] []) (m !! ip)))
                    oldest Hmin ltac:(lia) ltac:(lia)) as Hsame.
      unfold window in Hsame. unfold burst in *. by rewrite Hsame.
    + intros t Ht. rewrite decide_True by done.
      destruct (Hviews t ltac:(lia)) as [_ ->].
      pose proof (window_oldest_left (RateLimit.burstWindow config) now t
                    (RateLimit.burstTimestamps (default (RateLimit.mkData [] []) (m !! ip)))
                    oldest Hin ltac:(lia) ltac:(lia)) as Hlt.
      unfold burst in *. unfold window in Hlt. lia.
  - (* the sustained window was full *)
    destruct (deny_spec config now (RateLimit.timeWindow config) (sustained config ip now m))
      as (_ & _ & _ & oldest & r & Hin & Hmin & Hr & Hceil & Hpos & _).
    { intros Hnil. rewrite Hnil in Hfull. simpl in Hfull. lia. }
    { apply window_elem. }
    exists r. split_and!; [by rewrite Heq|done|..].
    + intros t Ht. apply isAllowed_denied. right.
      destruct (Hviews t ltac:(lia)) as [-> _].
      pose proof (window_still_full (RateLimit.timeWindow config) now t
                    (RateLimit.timestamps (default (RateLimit.mkData [] []) (m !! ip)))
                    oldest Hmin ltac:(lia) ltac:(lia)) as Hsame.
      unfold window in Hsame. unfold sustained in *. by rewrite Hsame.
    + intros t Ht. rewrite decide_False by lia.
      destruct (Hviews t ltac:(lia)) as [-> _].
      pose proof (window_oldest_left (RateLimit.timeWindow config) now t
                    (RateLimit.timestamps (default (RateLimit.mkData [] []) (m !! ip)))
                    oldest Hin ltac:(lia) ltac:(lia)) as Hlt.
      unfold sustained in *. unfold window in Hlt. lia.
Qed.

(** ** The sliding windows *)

Definition timeOf (e : RateLimit.Event) : Z :=
  match e with
  | RateLimit.EvCheck _ now => now
  | RateLimit.EvCleanup now => now
  end.

(** The clock reads of a history (latest first) never go backwards. *)
Fixpoint Chronological (h : list RateLimit.Event) : Prop :=
  match h with
  | [] => True
  | e :: h' => (∀ e', e' ∈ h' → timeOf e' ≤ timeOf e) ∧ Chronological h'
  end.

(** The times of the checks of client [ip] that were allowed, oldest
    first. *)
Fixpoint allowedTimes (ip : string) (h : list RateLimit.Event) : list Z :=
  match h with
  | [] => []
  | RateLimit.EvCheck ip0 now :: h' =>
      if decide (ip = ip0 ∧
                 RateLimit.allowed (isAllowed ip0 now (RateLimit.replay config h')).1 = true)
      then allowedTimes ip h' ++ [now]
      else allowedTimes ip h'
  | RateLimit.EvCleanup _ :: h' => allowedTimes ip h'
  end.

Lemma allowedTimes_elem ip h t :
  t ∈ allowedTimes ip h → ∃ e, e ∈ h ∧ timeOf e = t.
Proof.
  induction h as [|[ip0 now|now] h IH]; simpl; [by intros ?%elem_of_nil| |].
  - destruct (decide _).
    + intros [Ht| ->%list_elem_of_singleton]%elem_of_app.
      * destruct (IH Ht) as (e & ? & ?). exists e. split; [by right|done].
      * eexists. split; [by left|done].
    + intros Ht. destruct (IH Ht) as (e & ? & ?). exists e. split; [by right|done].
  - intros Ht. destruct (IH Ht) as (e & ? & ?). exists e. split; [by right|done].
Qed.

(** At any time not before the last event, the pruned sequences of a client
    are its allowed checks that are still inside the window. *)
Lemma views_are_allowed_checks h : ∀ ip now,
  Chronological h → (∀ e, e ∈ h → timeOf e ≤ now) →
  sustained config ip now (RateLimit.replay config h)
  = window (RateLimit.timeWindow config) now (allowedTimes ip h) ∧
  burst config ip now (RateLimit.replay config h)
  = window (RateLimit.burstWindow config) now (allowedTimes ip h).
Proof.
  induction h as [|[ip0 t|t] h IH]; intros ip now Hchr Hnow.
  - unfold sustained, burst. simpl. by rewrite lookup_empty.
  - destruct Hchr as [Hlast Hchr].
    assert (t ≤ now) as Hle by (apply (Hnow (RateLimit.EvCheck ip0 t)); by left).
    cbn [RateLimit.replay RateLimit.step allowedTimes].
    destruct (views_after_check ip0 t (RateLimit.replay config h) ip now Hle) as [-> ->].
    destruct (decide _) as [[-> _]|_].
    + destruct (IH ip0 t Hchr Hlast) as [-> ->].
      rewrite !window_app, !window_window by done. done.
    + apply IH; [done|]. intros e He. apply Hnow. by right.
  - destruct Hchr as [Hlast Hchr].
    assert (t ≤ now) as Hle by (apply (Hnow (RateLimit.EvCleanup t)); by left).
    cbn [RateLimit.replay RateLimit.step allowedTimes].
    destruct (SameView_cleanup t (RateLimit.replay config h) ip now Hle) as [-> ->].
    apply IH; [done|]. intros e He. apply Hnow. by right.
Qed.

(** The allowed checks of [ip] with a time in the window of length [W]
    that ends at [now]. *)
Definition allowedWithin (W now : Z) (ip : string) (h : list RateLimit.Event) : list Z :=
  filter (λ t, now - t < W ∧ t ≤ now) (allowedTimes ip h).

Lemma filter_iff_on (P1 P2 : Z → Prop)
    `{!∀ x, Decision (P1 x), !∀ x, Decision (P2 x)} l :
  (∀ x, x ∈ l → P1 x ↔ P2 x) → filter P1 l = filter P2 l.
Proof.
  induction l as [|x l IH]; [done|]. intros Hiff. rewrite !filter_cons.
  rewrite IH by (intros y Hy; apply Hiff; by right).
  destruct (decide (P1 x)) as [H1|H1], (decide (P2 x)) as [H2|H2]; try done;
    exfalso; apply (Hiff x) in H1 || apply (Hiff x) in H2; try done; by left.
Qed.

Lemma allowedWithin_past W now ip h :
  (∀ e, e ∈ h → timeOf e ≤ now) →
  allowedWithin W now ip h = window W now (allowedTimes ip h).
Proof.
  intros Hnow. unfold allowedWithin, window. apply filter_iff_on.
  intros t Ht. destruct (allowedTimes_elem ip h t Ht) as (e & He & <-).
  specialize (Hnow e He). split; [by intros [? _]|done].
Qed.

(** X16.  The guarantee of the limiter.  For every history of checks and
    sweeps on a fresh limiter whose clock reads do not go backwards, for
    every client and every instant [now] (inside or after the history), the
    number of this client's checks that were allowed with a time in the
    [timeWindow] milliseconds ending at [now] is at most [maxRequests], and
    the number allowed in the [burstWindow] milliseconds ending at [now] is
    at most [burstCapacity] (nothing is ever allowed when a limit is zero
    or negative). *)
Theorem X16_allowed_requests_fit_every_window (h : list RateLimit.Event) ip now :
  Chronological h →
  Z.of_nat (length (allowedWithin (RateLimit.timeWindow config) now ip h))
    ≤ Z.max 0 (RateLimit.maxRequests config) ∧
  Z.of_nat (length (allowedWithin (RateLimit.burstWindow config) now ip h))
    ≤ Z.max 0 (RateLimit.burstCapacity config).
Proof.
  induction h as [|e h IH]; intros Hchr; [simpl; lia|].
  destruct (decide (timeOf e ≤ now)) as [Hle|Hgt].
  - assert (∀ e', e' ∈ e :: h → timeOf e' ≤ now) as Hnow.
    { intros e' [->|He']%elem_of_cons; [done|].
      destruct Hchr as [Hlast _]. specialize (Hlast e' He'). lia. }
    rewrite !allowedWithin_past by done.
    destruct (views_are_allowed_checks (e :: h) ip now Hchr Hnow) as [<- <-].
    apply views_within, WithinLimits_replay.
  - destruct Hchr as [_ Hchr]. specialize (IH Hchr).
    assert (∀ W, allowedWithin W now ip (e :: h) = allowedWithin W now ip h) as Heq.
    { intros W. unfold allowedWithin. destruct e as [ip0 t|t]; simpl in *; [|done].
      destruct (decide _); [|done].
      rewrite filter_app, filter_cons, decide_False by lia. by rewrite app_nil_r. }
    by rewrite !Heq.
Qed.

End RateLimitWindows.

(* ===================================================================== *)
(** * The concurrent manager of the user service *)
(* ===================================================================== *)

(** [createConcurrentManager] (services/UserService.ts).  A call of
    [execute] on a key that is not registered invokes [fn] inside an async
    function, whose body runs up to its first [await] before the call of
    the async function returns: when [fn] throws instead of returning a
    promise, the [finally] block runs there, before
    [pendingRequests.set(key, promise)].  When [fn] returns a promise, the
    [finally] block runs when that promise settles. *)
Module ConcurrentManager.
Section WithResult.
Context {T E : Type}.

Inductive Outcome :=
| Fulfilled (value : T)
| Rejected (reason : E).

(** How the call [fn()] ends. *)
Inductive Call :=
| Throws (reason : E)
| ReturnsPromise.

(** One promise made by [execute]: the key its closure captured, its
    state, and whether [fn] threw instead of returning. *)
Record Execution := mkExecution {
  execKey : string;
  execOutcome : option Outcome;
  execThrew : bool;
}.

Record State := mkState {
  pendingRequests : gmap string nat;
  executions : list Execution;
}.

Definition init : State := mkState ∅ [].

(** [execute], up to its [return]: the promise handed back. *)
Definition execute (key : string) (call : Call) (s : State) : nat * State :=
  match pendingRequests s !! key with
  | Some p => (p, s)
  | None =>
      let p := length (executions s) in
      match call with
      | Throws e =>
          (p, mkState (<[key := p]> (delete key (pendingRequests s)))
                      (executions s ++ [mkExecution key (Some (Rejected e)) true]))
      | ReturnsPromise =>
          (p, mkState (<[key := p]> (pendingRequests s))
                      (executions s ++ [mkExecution key None false]))
      end
  end.

(** The promise returned by [fn] settles: the async function leaves the
    [try] block through [finally].  A settled promise stays as it is. *)
Definition settle (p : nat) (o : Outcome) (s : State) : State :=
  match executions s !! p with
  | Some x =>
      match execOutcome x with
      | Some _ => s
      | None =>
          mkState (delete (execKey x) (pendingRequests s))
                  (<[p := mkExecution (execKey x) (Some o) false]> (executions s))
      end
  | None => s
  end.

Definition getPendingCount (s : State) : nat := size (pendingRequests s).

Definition clear (s : State) : State := mkState ∅ (executions s).

(** What a caller that holds promise [p] observes. *)
Definition observe (p : nat) (s : State) : option Outcome :=
  x ← executions s !! p; execOutcome x.

(** Number of invocations of [fn] made so far for [key]. *)
Definition fnCalls (key : string) (s : State) : nat :=
  length (filter (λ x, execKey x = key) (executions s)).

Inductive Event :=
| EvExecute (key : string) (call : Call)
| EvSettle (p : nat) (o : Outcome)
| EvClear.

Definition step (e : Event) (s : State) : State :=
  match e with
  | EvExecute key call => (execute key call s).2
  | EvSettle p o => settle p o s
  | EvClear => clear s
  end.

(** The state after a list of events, first event first. *)
Definition runEvents (es : list Event) (s : State) : State :=
  foldl (λ s e, step e s) s es.

End WithResult.
End ConcurrentManager.

Section ManagerTheory.
Context {T E : Type}.
Implicit Types (s : ConcurrentManager.State (T := T) (E := E)).
Implicit Types (x : ConcurrentManager.Execution (T := T) (E := E)).
Implicit Types (es : list (ConcurrentManager.Event (T := T) (E := E))).

Abbreviation pendingRequests := ConcurrentManager.pendingRequests.
Abbreviation executions := ConcurrentManager.executions.
Abbreviation execKey := ConcurrentManager.execKey.
Abbreviation execOutcome := ConcurrentManager.execOutcome.
Abbreviation execThrew := ConcurrentManager.execThrew.

(** An execution that keeps its key registered: [fn]'s promise has not
    settled, or [fn] threw. *)
Definition holds x : Prop := execOutcome x = None ∨ execThrew x = true.

Global Instance holds_dec x : Decision (holds x).
Proof. unfold holds. apply _. Defined.

(** The registrations are exactly the executions that hold their key. *)
Definition MInv s : Prop :=
  (∀ key p, pendingRequests s !! key = Some p →
     ∃ x, executions s !! p = Some x ∧ execKey x = key ∧ holds x) ∧
  (∀ p x, executions s !! p = Some x → holds x →
     pendingRequests s !! execKey x = Some p) ∧
  (∀ p x, executions s !! p = Some x → execThrew x = true → execOutcome x ≠ None).

Definition isManagerClear (e : ConcurrentManager.Event (T := T) (E := E)) : Prop :=
  e = ConcurrentManager.EvClear.

Lemma runEvents_snoc es e s :
  ConcurrentManager.runEvents (es ++ [e]) s
  = ConcurrentManager.step e (ConcurrentManager.runEvents es s).
Proof. unfold ConcurrentManager.runEvents. by rewrite foldl_app. Qed.

Lemma MInv_init : MInv ConcurrentManager.init.
Proof.
  split_and!; simpl.
  - intros key p. by rewrite lookup_empty.
  - intros p x. by rewrite lookup_nil.
  - intros p x. by rewrite lookup_nil.
Qed.

Lemma execute_registered key call s p :
  pendingRequests s !! key = Some p →
  ConcurrentManager.execute key call s = (p, s).
Proof. intros H. unfold ConcurrentManager.execute. by rewrite H. Qed.

Lemma execute_fresh key call s :
  pendingRequests s !! key = None →
  ConcurrentManager.execute key call s
  = (length (executions s),
     ConcurrentManager.mkState
       (<[key := length (executions s)]> (pendingRequests s))
       (executions s ++
          [match call with
           | ConcurrentManager.Throws e =>
               ConcurrentManager.mkExecution key (Some (ConcurrentManager.Rejected e)) true
           | ConcurrentManager.ReturnsPromise =>
               ConcurrentManager.mkExecution key None false
           end])).
Proof.
  intros H. unfold ConcurrentManager.execute. rewrite H.
  destruct call; [|done]. by rewrite delete_id.
Qed.

Lemma MInv_execute key call s : MInv s → MInv (ConcurrentManager.execute key call s).2.
Proof.
  intros (Hreg & Hheld & Hthrew).
  destruct (pendingRequests s !! key) as [p|] eqn:Hk.
  { by rewrite (execute_registered key call s p). }
  rewrite execute_fresh by done. cbn [snd].
  set (new := match call with
              | ConcurrentManager.Throws e => _
              | ConcurrentManager.ReturnsPromise => _ end).
  assert (execKey new = key ∧ holds new ∧ (execThrew new = true → execOutcome new ≠ None))
    as (Hnk & Hnh & Hnt).
  { subst new. destruct call; simpl; split_and!; try done; [by right|by left]. }
  split_and!; simpl.
  - intros key' p. rewrite lookup_insert. destruct (decide (key = key')) as [<-|Hne].
    + intros [= <-]. exists new. by rewrite list_lookup_middle.
    + intros Hp. destruct (Hreg key' p Hp) as (x & Hx & ? & ?).
      exists x. split_and!; [|done..]. by apply lookup_app_l_Some.
  - intros p x Hx Hh. apply lookup_snoc_Some in Hx as [[Hlt Hx]|[<- <-]].
    + pose proof (Hheld p x Hx Hh) as Hp. rewrite lookup_insert_ne; [done|].
      intros Heq. rewrite <- Heq in Hp. by rewrite Hk in Hp.
    + rewrite Hnk. by rewrite lookup_insert_eq.
  - intros p x Hx. apply lookup_snoc_Some in Hx as [[_ Hx]|[_ <-]]; [by eapply Hthrew|done].
Qed.

Lemma settle_cases p o s :
  (∃ x, executions s !! p = Some x ∧ execOutcome x = None ∧
        ConcurrentManager.settle p o s
        = ConcurrentManager.mkState (delete (execKey x) (pendingRequests s))
            (<[p := ConcurrentManager.mkExecution (execKey x) (Some o) false]> (executions s))) ∨
  ((∀ x, executions s !! p = Some x → execOutcome x ≠ None) ∧
   ConcurrentManager.settle p o s = s).
Proof.
  unfold ConcurrentManager.settle.
  destruct (executions s !! p) as [x|] eqn:Hx; [|by right].
  destruct (execOutcome x) as [o'|] eqn:Ho.
  - right. split; [|done]. intros x' [= <-]. by rewrite Ho.
  - left. by exists x.
Qed.

Lemma MInv_settle p o s : MInv s → MInv (ConcurrentManager.settle p o s).
Proof.
  intros (Hreg & Hheld & Hthrew).
  destruct (settle_cases p o s) as [(x & Hx & Ho & ->)|[_ ->]]; [|done].
  assert (pendingRequests s !! execKey x = Some p) as Hxp by (apply Hheld; [done|by left]).
  assert (p < length (executions s))%nat as Hlt by (by eapply lookup_lt_Some).
  split_and!; simpl.
  - intros key q. rewrite lookup_delete_Some. intros [Hne Hq].
    destruct (Hreg key q Hq) as (y & Hy & Hyk & Hyh).
    exists y. split_and!; [|done..].
    rewrite list_lookup_insert_ne; [done|]. intros <-. congruence.
  - intros q y Hy Hh. destruct (decide (p = q)) as [<-|Hne].
    + rewrite list_lookup_insert_eq in Hy by done. injection Hy as <-.
      by destruct Hh.
    + rewrite list_lookup_insert_ne in Hy by done.
      pose proof (Hheld q y Hy Hh) as Hq.
      rewrite lookup_delete_ne; [done|]. intros Heq. rewrite Heq in Hxp. congruence.
  - intros q y Hy. destruct (decide (p = q)) as [<-|Hne].
    + rewrite list_lookup_insert_eq in Hy by done. by injection Hy as <-.
    + rewrite list_lookup_insert_ne in Hy by done. by eapply Hthrew.
Qed.

Lemma MInv_run es : ∀ s,
  Forall (λ e, ¬ isManagerClear e) es → MInv s → MInv (ConcurrentManager.runEvents es s).
Proof.
  induction es as [|e es IH]; intros s Hnc Hinv; [done|].
  apply Forall_cons in Hnc as [He Hnc]. simpl. apply IH; [done|].
  destruct e as [key call|p o|]; simpl.
  - by apply MInv_execute.
  - by apply MInv_settle.
  - by destruct He.
Qed.

Lemma filter_length_insert_same `(P : A → Prop) `{!∀ a, Decision (P a)}
    (l : list A) (p : nat) (a b : A) :
  l !! p = Some a → (P a ↔ P b) →
  length (filter P (<[p := b]> l)) = length (filter P l).
Proof.
  revert p. induction l as [|c l IH]; intros [|p] Hp Hiff; simplify_eq/=.
  - rewrite !filter_cons.
    destruct (decide (P b)), (decide (P a)); simpl; tauto || done.
  - rewrite !filter_cons. destruct (decide (P c)); simpl; by rewrite IH.
Qed.

Lemma filter_length_insert_out `(P : A → Prop) `{!∀ a, Decision (P a)}
    (l : list A) (p : nat) (a b : A) :
  l !! p = Some a → P a → ¬ P b →
  S (length (filter P (<[p := b]> l))) = length (filter P l).
Proof.
  revert p. induction l as [|c l IH]; intros [|p] Hp Ha Hb; simplify_eq/=.
  - by rewrite !filter_cons, decide_False, decide_True.
  - rewrite !filter_cons. destruct (decide (P c)); simpl; by rewrite IH.
Qed.

(** The number of registrations is the number of executions that hold
    their key. *)
Definition Counted s : Prop :=
  ConcurrentManager.getPendingCount s = length (filter holds (executions s)).

Lemma Counted_execute key call s :
  Counted s → Counted (ConcurrentManager.execute key call s).2.
Proof.
  unfold Counted, ConcurrentManager.getPendingCount. intros Hc.
  destruct (pendingRequests s !! key) as [p|] eqn:Hk.
  { by rewrite (execute_registered key call s p). }
  rewrite execute_fresh by done. cbn [snd]. simpl.
  rewrite map_size_insert_None, filter_app, length_app, Hc by done.
  rewrite filter_cons, decide_True; [simpl; lia|].
  destruct call; [by right|by left].
Qed.

Lemma Counted_settle p o s :
  MInv s → Counted s → Counted (ConcurrentManager.settle p o s).
Proof.
  unfold Counted, ConcurrentManager.getPendingCount. intros (_ & Hheld & _) Hc.
  destruct (settle_cases p o s) as [(x & Hx & Ho & ->)|[_ ->]]; [|done]. simpl.
  assert (holds x) as Hh by (by left).
  rewrite map_size_delete_Some by (rewrite (Hheld p x Hx Hh); by eexists).
  rewrite Hc, <- (filter_length_insert_out holds (executions s) p x
                    (ConcurrentManager.mkExecution (execKey x) (Some o) false) Hx Hh).
  - done.
  - by intros [?|?].
Qed.

Lemma Counted_run es : ∀ s,
  Forall (λ e, ¬ isManagerClear e) es → MInv s → Counted s →
  Counted (ConcurrentManager.runEvents es s).
Proof.
  induction es as [|e es IH]; intros s Hnc Hinv Hc; [done|].
  apply Forall_cons in Hnc as [He Hnc]. simpl.
  destruct e as [key call|p o|]; simpl.
  - apply IH; [done|by apply MInv_execute|by apply Counted_execute].
  - apply IH; [done|by apply MInv_settle|by apply Counted_settle].
  - by destruct He.
Qed.

(** X17.  Single flight in the concurrent manager.  In every state reached
    from a fresh manager by calls of [execute] and settlements, with no
    [clear]: [getPendingCount] is the number of executions whose [fn] has
    not settled (or threw); no two such executions have the same key; while
    an execution of a key holds it, [execute] on that key hands back its
    promise, invokes nothing and changes nothing; and when the promise of a
    running execution settles, the key is free again and the holders of
    the promise observe that outcome. *)
Theorem X17_manager_runs_one_function_per_key es :
  Forall (λ e, ¬ isManagerClear e) es →
  let s := ConcurrentManager.runEvents es ConcurrentManager.init in
  ConcurrentManager.getPendingCount s = length (filter holds (executions s)) ∧
  (∀ p q x y, executions s !! p = Some x → executions s !! q = Some y →
     holds x → holds y → execKey x = execKey y → p = q) ∧
  (∀ p x call, executions s !! p = Some x → holds x →
     ConcurrentManager.execute (execKey x) call s = (p, s)) ∧
  (∀ p x o, executions s !! p = Some x → execOutcome x = None →
     let s' := ConcurrentManager.settle p o s in
     pendingRequests s' !! execKey x = None ∧
     ConcurrentManager.observe p s' = Some o ∧
     ConcurrentManager.getPendingCount s' = pred (ConcurrentManager.getPendingCount s)).
Proof.
  intros Hnc s.
  pose proof (MInv_run es _ Hnc MInv_init) as Hinv. fold s in Hinv.
  assert (Counted s) as Hc.
  { apply Counted_run; [done|apply MInv_init|].
    unfold Counted, ConcurrentManager.getPendingCount. simpl. by rewrite map_size_empty. }
  destruct Hinv as (Hreg & Hheld & Hthrew). split_and!.
  - done.
  - intros p q x y Hx Hy Hhx Hhy Hk.
    pose proof (Hheld p x Hx Hhx) as Hp. pose proof (Hheld q y Hy Hhy) as Hq.
    rewrite Hk in Hp. congruence.
  - intros p x call Hx Hh. apply execute_registered. by apply Hheld.
  - intros p x o Hx Ho s'. subst s'.
    assert (holds x) as Hh by (by left).
    unfold ConcurrentManager.settle, ConcurrentManager.observe,
      ConcurrentManager.getPendingCount. rewrite Hx, Ho. simpl.
    rewrite lookup_delete_eq, list_lookup_insert_eq by (by eapply lookup_lt_Some).
    split_and!; [done|done|].
    apply map_size_delete_Some. rewrite (Hheld p x Hx Hh). by eexists.
Qed.

(** A key that is stuck: registered to the promise of an execution whose
    [fn] threw. *)
Definition Stuck (key : string) (p : nat) (e : E) s : Prop :=
  pendingRequests s !! key = Some p ∧
  executions s !! p
  = Some (ConcurrentManager.mkExecution key (Some (ConcurrentManager.Rejected e)) true).

Lemma Stuck_step key p e ev s :
  ¬ isManagerClear ev → MInv s → Stuck key p e s →
  Stuck key p e (ConcurrentManager.step ev s) ∧
  ConcurrentManager.fnCalls key (ConcurrentManager.step ev s)
  = ConcurrentManager.fnCalls key s.
Proof.
  intros Hev (Hreg & Hheld & Hthrew) [Hk Hp].
  destruct ev as [key' call|q o|]; simpl; [| |by destruct Hev].
  - destruct (pendingRequests s !! key') as [p'|] eqn:Hk'.
    { by rewrite (execute_registered key' call s p'). }
    rewrite execute_fresh by done. cbn [snd].
    assert (key' ≠ key) as Hne by (intros ->; congruence).
    split; [split; simpl|].
    + by rewrite lookup_insert_ne.
    + by apply lookup_app_l_Some.
    + unfold ConcurrentManager.fnCalls. simpl.
      rewrite filter_app, length_app, filter_cons, decide_False; [simpl; lia|].
      by destruct call.
  - destruct (settle_cases q o s) as [(x & Hx & Ho & ->)|[_ ->]]; [|done].
    assert (pendingRequests s !! execKey x = Some q) as Hxq
      by (apply Hheld; [done|by left]).
    assert (q ≠ p) as Hqp by (intros ->; rewrite Hp in Hx; by injection Hx as <-).
    assert (execKey x ≠ key) as Hne by (intros Heq; rewrite Heq in Hxq; congruence).
    split; [split; simpl|].
    + by rewrite lookup_delete_ne.
    + by rewrite list_lookup_insert_ne.
    + unfold ConcurrentManager.fnCalls. simpl.
      by apply filter_length_insert_same with (a := x).
Qed.

Lemma Stuck_run key p e es : ∀ s,
  Forall (λ ev, ¬ isManagerClear ev) es → MInv s → Stuck key p e s →
  Stuck key p e (ConcurrentManager.runEvents es s) ∧
  ConcurrentManager.fnCalls key (ConcurrentManager.runEvents es s)
  = ConcurrentManager.fnCalls key s.
Proof.
  induction es as [|ev es IH]; intros s Hnc Hinv Hs; [done|].
  apply Forall_cons in Hnc as [Hev Hnc]. simpl.
  destruct (Stuck_step key p e ev s Hev Hinv Hs) as [Hs' <-].
  apply IH; [done| |done].
  apply (MInv_run [ev]); [by apply Forall_singleton|done].
Qed.

(** X18.  A function that throws leaves its key registered.  Let the
    manager be in a state reached without [clear], with [key] not
    registered, and let [execute key fn] be called with an [fn] that
    throws instead of returning a promise: the [finally] block runs before
    the promise is registered, so the registration is never removed.
    Whatever calls and settlements follow (short of [clear]), the key stays
    registered to that rejected promise, every later [execute] on the key
    hands back the rejected promise without invoking its function, and the
    pending count never returns to zero. *)
Theorem X18_throwing_function_blocks_its_key es1 es2 key (e : E) call :
  Forall (λ ev, ¬ isManagerClear ev) es1 →
  Forall (λ ev, ¬ isManagerClear ev) es2 →
  let s0 := ConcurrentManager.runEvents es1 ConcurrentManager.init in
  pendingRequests s0 !! key = None →
  let r := ConcurrentManager.execute key (ConcurrentManager.Throws e) s0 in
  let s := ConcurrentManager.runEvents es2 r.2 in
  pendingRequests s !! key = Some r.1 ∧
  ConcurrentManager.observe r.1 s = Some (ConcurrentManager.Rejected e) ∧
  ConcurrentManager.execute key call s = (r.1, s) ∧
  ConcurrentManager.fnCalls key s = ConcurrentManager.fnCalls key r.2 ∧
  (0 < ConcurrentManager.getPendingCount s)%nat.
Proof.
  intros Hnc1 Hnc2 s0 Hk r s.
  pose proof (MInv_run es1 _ Hnc1 MInv_init) as Hinv0. fold s0 in Hinv0.
  pose proof (MInv_execute key (ConcurrentManager.Throws e) s0 Hinv0) as Hinv1. fold r in Hinv1.
  assert (Stuck key r.1 e r.2) as Hstuck.
  { subst r. rewrite execute_fresh by done. split; simpl.
    - by rewrite lookup_insert_eq.
    - by rewrite list_lookup_middle. }
  destruct (Stuck_run key r.1 e es2 r.2 Hnc2 Hinv1 Hstuck) as [[Hreg Hp] Hcalls].
  fold s in Hreg, Hp, Hcalls. split_and!.
  - done.
  - unfold ConcurrentManager.observe. by rewrite Hp.
  - by apply execute_registered.
  - done.
  - unfold ConcurrentManager.getPendingCount.
    destruct (decide (size (pendingRequests s) = 0%nat)) as [Hz|]; [|lia].
    apply map_size_empty_inv in Hz. rewrite Hz in Hreg. by rewrite lookup_empty in Hreg.
Qed.

End ManagerTheory.

(* ===================================================================== *)
(** * The user service: the store, the cache and the task bodies *)
(* ===================================================================== *)

(** The operations that [createUser], [updateUser] and [deleteUser]
    (services/UserService.ts) hand to the queue.  The body of the update and
    of the delete operation has no [await]; the body of the create
    operation has one, at its start, so what follows the delay runs without
    interruption.  Dates are clock reads in milliseconds. *)
Module UserService.

Record User := mkUser {
  id : Z;
  name : string;
  email : string;
  createdAt : option Z;
  updatedAt : option Z;
}.

Record CreateUserDTO := mkCreateUserDTO {
  dtoName : string;
  dtoEmail : string;
}.

(** [Partial<User>]: each property is absent or present. *)
Record UserUpdates := mkUserUpdates {
  newId : option Z;
  newName : option string;
  newEmail : option string;
  newCreatedAt : option Z;
  newUpdatedAt : option Z;
}.

(** The options the service passes to [createLRUCache]. *)
Definition config : CacheOptions.t := CacheOptions.mk 100 60000 10000.

(** The template literal [`user:${id}`], for an integer [id] that prints
    in decimal digits. *)
Definition cacheKey (id : Z) : string := "user:" +:+ pretty id.

Section WithSize.
Variable calculateSize : User → Z.

Record State := mkState {
  cache : Cache.State (T := User);
  mockUsers : gmap Z User;
  nextId : Z;
  responseTimes : list Z;
}.

(** The service when the module has been loaded; [clock n] is the [n]-th
    [new Date()] of the initialiser of [mockUsers]. *)
Definition init (clock : nat → Z) : State :=
  mkState Cache.init
    (<[3 := mkUser 3 "Alice Johnson" "alice@example.com" (Some (clock 4%nat)) (Some (clock 5%nat))]>
       (<[2 := mkUser 2 "Jane Smith" "jane@example.com" (Some (clock 2%nat)) (Some (clock 3%nat))]>
          (<[1 := mkUser 1 "John Doe" "john@example.com" (Some (clock 0%nat)) (Some (clock 1%nat))]>
             ∅)))
    4 [].

(** The operation of [createUser], after its delay. *)
Definition createUserTask (userData : CreateUserDTO)
    (start nowCreated nowUpdated nowEnd : Z) (s : State) : User * State :=
  let newUser :=
    mkUser (nextId s) (dtoName userData) (dtoEmail userData)
           (Some nowCreated) (Some nowUpdated) in
  (newUser,
   mkState (Cache.deleteFn (cacheKey (id newUser)) (cache s)).2
           (<[id newUser := newUser]> (mockUsers s))
           (nextId s + 1)
           (responseTimes s ++ [nowEnd - start])).

(** [{ ...user, ...updates, updatedAt: new Date() }] *)
Definition merge (user : User) (updates : UserUpdates) (nowUpdated : Z) : User :=
  mkUser (default (id user) (newId updates))
         (default (name user) (newName updates))
         (default (email user) (newEmail updates))
         (match newCreatedAt updates with Some d => Some d | None => createdAt user end)
         (Some nowUpdated).

(** The operation of [updateUser]; [None] is [null]. *)
Definition updateUserTask (id : Z) (updates : UserUpdates)
    (start nowUpdated nowSet nowEnd : Z) (s : State) : option User * State :=
  match mockUsers s !! id with
  | None => (None, s)
  | Some user =>
      let updatedUser := merge user updates nowUpdated in
      (Some updatedUser,
       mkState (Cache.set calculateSize config (cacheKey id) updatedUser None None
                  nowSet (cache s))
               (<[id := updatedUser]> (mockUsers s))
               (nextId s)
               (responseTimes s ++ [nowEnd - start]))
  end.

(** The operation of [deleteUser]. *)
Definition deleteUserTask (id : Z) (start nowEnd : Z) (s : State) : bool * State :=
  let existed := bool_decide (is_Some (mockUsers s !! id)) in
  (existed,
   mkState (Cache.deleteFn (cacheKey id) (cache s)).2
           (delete id (mockUsers s))
           (nextId s)
           (responseTimes s ++ [nowEnd - start])).

Definition getUserCount (s : State) : nat := size (mockUsers s).

Definition withCache (f : Cache.State (T := User) → Cache.State (T := User))
    (s : State) : State :=
  mkState (f (cache s)) (mockUsers s) (nextId s) (responseTimes s).

(** What happens to the service between two task bodies: a task body, the
    sweep of the cache timer, or the [cache.get] that [getUserById] makes
    through [getOrSet]. *)
Inductive Event :=
| EvCreate (userData : CreateUserDTO) (start nowCreated nowUpdated nowEnd : Z)
| EvUpdate (id : Z) (updates : UserUpdates) (start nowUpdated nowSet nowEnd : Z)
| EvDelete (id : Z) (start nowEnd : Z)
| EvSweep (now : Z)
| EvCacheGet (id : Z) (nowCheck nowTouch : Z).

Definition step (e : Event) (s : State) : State :=
  match e with
  | EvCreate userData start nowCreated nowUpdated nowEnd =>
      (createUserTask userData start nowCreated nowUpdated nowEnd s).2
  | EvUpdate id updates start nowUpdated nowSet nowEnd =>
      (updateUserTask id updates start nowUpdated nowSet nowEnd s).2
  | EvDelete id start nowEnd => (deleteUserTask id start nowEnd s).2
  | EvSweep now => withCache (Cache.cleanupStaleEntries now) s
  | EvCacheGet id nowCheck nowTouch =>
      withCache (λ c, (Cache.get (cacheKey id) nowCheck nowTouch c).2) s
  end.

(** The service after a history of events, latest first. *)
Fixpoint replay (clock : nat → Z) (h : list Event) : State :=
  match h with
  | [] => init clock
  | e :: h' => step e (replay clock h')
  end.

End WithSize.
End UserService.

Section UserServiceTheory.
Variable calculateSize : UserService.User → Z.
Variable clock : nat → Z.

Abbreviation cacheKey := UserService.cacheKey.
Abbreviation mockUsers := UserService.mockUsers.
Abbreviation nextId := UserService.nextId.
Abbreviation userCache := UserService.cache.
Abbreviation serviceReplay := (UserService.replay calculateSize clock).
Implicit Types (s : UserService.State) (h : list UserService.Event).
Implicit Types (c : Cache.State (T := UserService.User)).

Lemma cacheKey_inj id1 id2 : cacheKey id1 = cacheKey id2 → id1 = id2.
Proof.
  unfold UserService.cacheKey. intros H. simpl in H. simplify_eq.
  by apply (inj pretty).
Qed.

(** ** The store *)

(** Every stored user has a positive key below [nextId]. *)
Definition FreshIds s : Prop :=
  0 < nextId s ∧ ∀ k u, mockUsers s !! k = Some u → 0 < k < nextId s.

(** An update that carries no [id] property. *)
Definition keepsId (e : UserService.Event) : Prop :=
  match e with
  | UserService.EvUpdate _ updates _ _ _ _ => UserService.newId updates = None
  | _ => True
  end.

(** Every stored user is stored under its own id. *)
Definition KeyedById s : Prop :=
  ∀ k u, mockUsers s !! k = Some u → UserService.id u = k.

Lemma FreshIds_init : FreshIds (UserService.init clock).
Proof.
  split; [done|]. intros k u. simpl.
  rewrite !lookup_insert_Some, lookup_empty. intros [[<- _]|[_ [[<- _]|[_ [[<- _]|[_ ?]]]]]];
    done.
Qed.

Lemma KeyedById_init : KeyedById (UserService.init clock).
Proof.
  intros k u. simpl.
  rewrite !lookup_insert_Some, lookup_empty.
  intros [[<- <-]|[_ [[<- <-]|[_ [[<- <-]|[_ ?]]]]]]; done.
Qed.

Lemma FreshIds_step e s : FreshIds s → FreshIds (UserService.step calculateSize e s).
Proof.
  intros [Hpos Hf]. destruct e as [dto ? ? ? ?|k0 upd ? ? ? ?|k0 ? ?|now|k0 ? ?]; simpl;
    [| | |done|done].
  - split; simpl; [lia|]. intros k u; simpl. rewrite lookup_insert.
    destruct (decide _) as [<-|_].
    + intros _. lia.
    + intros Hk. specialize (Hf k u Hk). lia.
  - unfold UserService.updateUserTask.
    destruct (mockUsers s !! k0) as [user|] eqn:Hk0; [|done]. simpl.
    split; simpl; [done|].
    intros k u; simpl. rewrite lookup_insert. destruct (decide _) as [<-|_]; [|apply Hf].
    intros _. by apply (Hf k0 user).
  - split; simpl; [done|].
    intros k u; simpl. rewrite lookup_delete_Some. intros [_ Hk]. by apply (Hf k u).
Qed.

Lemma FreshIds_replay h : FreshIds (serviceReplay h).
Proof.
  induction h as [|e h IH]; [apply FreshIds_init|]. by apply FreshIds_step.
Qed.

Lemma KeyedById_step e s :
  keepsId e → KeyedById s → KeyedById (UserService.step calculateSize e s).
Proof.
  intros He Hk. destruct e as [dto ? ? ? ?|k0 upd ? ? ? ?|k0 ? ?|now|k0 ? ?]; simpl;
    [| | |done|done].
  - intros k u; simpl. rewrite lookup_insert. destruct (decide _) as [<-|_]; [|apply Hk].
    by intros [= <-].
  - unfold UserService.updateUserTask.
    destruct (mockUsers s !! k0) as [user|] eqn:Hk0; [|done]. simpl.
    intros k u; simpl. rewrite lookup_insert. destruct (decide _) as [<-|_]; [|apply Hk].
    intros [= <-]. simpl in *. rewrite He. simpl. by apply Hk.
  - intros k u; simpl. rewrite lookup_delete_Some. intros [_ Hu]. by apply Hk.
Qed.

Lemma KeyedById_replay h : Forall keepsId h → KeyedById (serviceReplay h).
Proof.
  induction h as [|e h IH]; intros Hkeep; [apply KeyedById_init|].
  apply Forall_cons in Hkeep as [He Hkeep]. simpl.
  apply KeyedById_step; [done|]. by apply IH.
Qed.

(** X19.  User ids are never reused.  After any history of create, update
    and delete operations, cache sweeps and cache reads on the loaded
    service, every stored user has a positive key below [nextId].  So the
    operation of [createUser] stores its user under a key that no user had:
    it overwrites nobody, the user count grows by one, every other user is
    kept, the id it returns is larger than every key in use, and the cache
    has no entry for the new user.  And as long as no update carried an
    [id] property, every user is stored under its own id. *)
Theorem X19_created_ids_are_fresh h userData start nowCreated nowUpdated nowEnd :
  let s := serviceReplay h in
  let r := UserService.createUserTask userData start nowCreated nowUpdated nowEnd s in
  (∀ k u, mockUsers s !! k = Some u → 0 < k < UserService.id r.1) ∧
  mockUsers s !! UserService.id r.1 = None ∧
  mockUsers r.2 !! UserService.id r.1 = Some r.1 ∧
  (∀ k, k ≠ UserService.id r.1 → mockUsers r.2 !! k = mockUsers s !! k) ∧
  UserService.getUserCount r.2 = S (UserService.getUserCount s) ∧
  nextId r.2 = UserService.id r.1 + 1 ∧
  Cache.cache (userCache r.2) !! cacheKey (UserService.id r.1) = None ∧
  (Forall keepsId h → KeyedById s ∧ KeyedById r.2).
Proof.
  intros s r. destruct (FreshIds_replay h) as [Hpos Hf]. fold s in Hpos, Hf.
  assert (mockUsers s !! nextId s = None) as Hnone.
  { destruct (mockUsers s !! nextId s) as [u|] eqn:Hu; [|done].
    specialize (Hf _ _ Hu). lia. }
  subst r. simpl. split_and!.
  - done.
  - done.
  - by rewrite lookup_insert_eq.
  - intros k Hk. by rewrite lookup_insert_ne.
  - unfold UserService.getUserCount. simpl. by rewrite map_size_insert_None.
  - done.
  - unfold Cache.deleteFn. rewrite deleteEntry_cache. apply lookup_delete_eq.
  - intros Hkeep.
    pose proof (KeyedById_replay h Hkeep) as Hkeyed. fold s in Hkeyed.
    split; [done|].
    apply (KeyedById_step
             (UserService.EvCreate userData start nowCreated nowUpdated nowEnd) s I Hkeyed).
Qed.

(** ** The cache follows the store *)

(** Whatever the cache holds for a user is what the store holds. *)
Definition Coherent s : Prop :=
  ∀ k entry, Cache.cache (userCache s) !! cacheKey k = Some entry →
    mockUsers s !! k = Some (CacheEntry.data entry).

(** [c'] holds nothing that [c] did not hold. *)
Definition Shrinks c c' : Prop :=
  ∀ key entry, Cache.cache c' !! key = Some entry → Cache.cache c !! key = Some entry.

Lemma Shrinks_deleteEntry key c : Shrinks c (Cache.deleteEntry key c).2.
Proof.
  intros k e. rewrite deleteEntry_cache, lookup_delete_Some. by intros [_ ?].
Qed.

Lemma Shrinks_evictLRU c : Shrinks c (Cache.evictLRU c).
Proof.
  intros k e. unfold Cache.evictLRU. destruct (last _) as [lruKey|]; [|done].
  cache_simpl. destruct (Cache.cache c !! lruKey); cache_simpl; [|done].
  rewrite lookup_delete_Some. by intros [_ ?].
Qed.

Lemma Shrinks_afterCapacityCheck key c :
  Shrinks c (afterCapacityCheck UserService.config key c).
Proof.
  unfold afterCapacityCheck. destruct (_ && _); [apply Shrinks_evictLRU|by intros ??].
Qed.

Lemma Shrinks_cleanup now c : Shrinks c (Cache.cleanupStaleEntries now c).
Proof.
  apply (cleanup_preserves (Shrinks c)).
  - intros key c' Hc' k e He. apply Hc'. by apply Shrinks_deleteEntry in He.
  - intros n c' Hc' k e. cache_simpl. apply Hc'.
  - by intros ??.
Qed.

Lemma Coherent_step e s :
  FreshIds s → Coherent s → Coherent (UserService.step calculateSize e s).
Proof.
  intros [_ Hf] Hc.
  destruct e as [dto ? ? ? ?|k0 upd ? ? nowSet ?|k0 ? ?|now|k0 nowCheck nowTouch]; simpl.
  - intros k entry. simpl. unfold Cache.deleteFn.
    rewrite deleteEntry_cache, lookup_delete_Some. intros [_ Hk].
    pose proof (Hc k entry Hk) as Hu. rewrite lookup_insert_ne; [done|].
    intros <-. specialize (Hf _ _ Hu). lia.
  - unfold UserService.updateUserTask.
    destruct (mockUsers s !! k0) as [user|] eqn:Hk0; [|done].
    intros k entry. simpl. rewrite set_cache, lookup_insert.
    destruct (decide (cacheKey k0 = cacheKey k)) as [Heq|Hne].
    + apply cacheKey_inj in Heq as <-. intros [= <-]. by rewrite lookup_insert_eq.
    + intros Hk%Shrinks_afterCapacityCheck.
      rewrite lookup_insert_ne by (by intros <-). by apply Hc.
  - intros k entry. simpl. unfold Cache.deleteFn.
    rewrite deleteEntry_cache, lookup_delete_Some. intros [Hne Hk].
    rewrite lookup_delete_ne by (by intros <-). by apply Hc.
  - intros k entry. simpl. intros Hk%Shrinks_cleanup. by apply Hc.
  - intros k entry. simpl.
    destruct (get_cases (cacheKey k0) nowCheck nowTouch (userCache s))
      as [[_ ->]|[(entry0 & _ & _ & ->)|(entry0 & Hk0 & _ & ->)]]; cache_norm.
    + apply Hc.
    + rewrite deleteEntry_cache, lookup_delete_Some. intros [_ Hk]. by apply Hc.
    + rewrite lookup_insert. destruct (decide (cacheKey k0 = cacheKey k)) as [Heq|_].
      * apply cacheKey_inj in Heq as <-. intros [= <-]. simpl. by apply Hc.
      * apply Hc.
Qed.

(** X20.  The cache never contradicts the store.  After any history of
    create, update and delete operations, cache sweeps and cache reads on
    the loaded service, an entry that the cache holds under [`user:${k}`]
    carries exactly the user that the store holds under [k]: a user that
    was deleted, or never created, has no entry, and an updated user has
    no entry older than its update. *)
Theorem X20_cache_agrees_with_the_store h k :
  let s := serviceReplay h in
  match Cache.cache (userCache s) !! cacheKey k with
  | Some entry => mockUsers s !! k = Some (CacheEntry.data entry)
  | None => True
  end ∧
  (mockUsers s !! k = None → Cache.cache (userCache s) !! cacheKey k = None).
Proof.
  intros s.
  assert (Coherent s) as Hc.
  { subst s. induction h as [|e h IH]; simpl.
    - intros k' entry. simpl. by rewrite lookup_empty.
    - apply Coherent_step; [apply FreshIds_replay|done]. }
  split.
  - destruct (Cache.cache (userCache s) !! cacheKey k) as [entry|] eqn:Hk; [|done].
    by apply Hc.
  - intros Hnone.
    destruct (Cache.cache (userCache s) !! cacheKey k) as [entry|] eqn:Hk; [|done].
    apply Hc in Hk. congruence.
Qed.

(** X21.  [updateUser] writes through.  When the store has no user
    [k], the operation returns [null] and changes nothing: not the store,
    not the cache, not the recorded response times.  When it has one, the
    operation returns the merged user with the new [updatedAt], stores it
    under [k] whatever [id] the update carries, leaves every other user
    alone, and puts it in the cache: for the next 60000 milliseconds a
    [cache.get] of the user's key is a hit that returns the stored user. *)
Theorem X21_update_writes_through
    k updates start nowUpdated nowSet nowEnd nowCheck nowTouch s :
  nowCheck ≤ nowSet + 60000 →
  let r := UserService.updateUserTask calculateSize k updates start nowUpdated nowSet nowEnd s in
  match mockUsers s !! k with
  | None => r = (None, s)
  | Some user =>
      let u := UserService.merge user updates nowUpdated in
      r.1 = Some u ∧
      UserService.updatedAt u = Some nowUpdated ∧
      mockUsers r.2 !! k = Some u ∧
      (∀ k', k' ≠ k → mockUsers r.2 !! k' = mockUsers s !! k') ∧
      nextId r.2 = nextId s ∧
      UserService.getUserCount r.2 = UserService.getUserCount s ∧
      (Cache.get (cacheKey k) nowCheck nowTouch (userCache r.2)).1 = Some u ∧
      CacheStats.hits (Cache.stats (Cache.get (cacheKey k) nowCheck nowTouch (userCache r.2)).2)
      = S (CacheStats.hits (Cache.stats (userCache r.2)))
  end.
Proof.
  intros Hlive r. subst r. unfold UserService.updateUserTask.
  destruct (mockUsers s !! k) as [user|] eqn:Hk; [|done]. simpl.
  set (u := UserService.merge user updates nowUpdated).
  set (c' := Cache.set calculateSize UserService.config (cacheKey k) u None None nowSet
               (userCache s)).
  assert (Cache.cache c' !! cacheKey k
          = Some (Cache.newEntry calculateSize UserService.config u None None nowSet)) as Hc'.
  { subst c'. rewrite set_cache. apply lookup_insert_eq. }
  split_and!.
  - done.
  - done.
  - by rewrite lookup_insert_eq.
  - intros k' Hne. by rewrite lookup_insert_ne.
  - done.
  - unfold UserService.getUserCount. simpl. apply map_size_insert_Some. by eexists.
  - by rewrite (get_live _ nowCheck nowTouch c' _ Hc' Hlive).
  - rewrite (get_live _ nowCheck nowTouch c' _ Hc' Hlive). by cache_norm.
Qed.

End UserServiceTheory.

(* ===================================================================== *)
(** * Instances *)
(* ===================================================================== *)

Module ManagerRuns.

(** A manager of functions that yield numbers and fail with a message:
    "k" is executed twice while its first promise is pending, then that
    promise is fulfilled. *)
Definition twoCallers : list (ConcurrentManager.Event (T := nat) (E := string)) :=
  [ConcurrentManager.EvExecute "k" ConcurrentManager.ReturnsPromise;
   ConcurrentManager.EvExecute "k" ConcurrentManager.ReturnsPromise;
   ConcurrentManager.EvSettle 0 (ConcurrentManager.Fulfilled 7%nat)].

(** "j" is being executed. *)
Definition before : list (ConcurrentManager.Event (T := nat) (E := string)) :=
  [ConcurrentManager.EvExecute "j" ConcurrentManager.ReturnsPromise].

(** "k" is executed again, and the promise of "j" is fulfilled. *)
Definition after : list (ConcurrentManager.Event (T := nat) (E := string)) :=
  [ConcurrentManager.EvExecute "k" ConcurrentManager.ReturnsPromise;
   ConcurrentManager.EvSettle 0 (ConcurrentManager.Fulfilled 1%nat)].

End ManagerRuns.

Module ServiceRuns.

Definition calculateSize (u : UserService.User) : Z := 2.
Definition clock (n : nat) : Z := 0.

(** [{ name: "Johnny" }] *)
Definition rename : UserService.UserUpdates :=
  UserService.mkUserUpdates None (Some "Johnny") None None None.

End ServiceRuns.

(** An instance of X4: in the cache of the scenario, which holds "a" and
    "b", deleting "a" answers true and leaves the entry of "b" alone. *)
Lemma X4_witness_delete_a :
  let s := Cache.replay CacheRuns.calculateSize CacheRuns.two CacheRuns.scenario in
  let d := Cache.deleteFn "a" s in
  Inv s ∧
  d.1 = bool_decide (is_Some (Cache.cache s !! "a")) ∧
  Cache.cache d.2 !! "b" = Cache.cache s !! "b".
Proof.
  intros s d.
  assert (Inv s) as HI by apply Inv_replay.
  destruct (X4_single_key_operations_frame "a" 5 5 s HI)
    as (Hframe & _ & _ & _ & Hd & _).
  split; [exact HI|]. split; [exact Hd|].
  destruct (Hframe "b") as (_ & _ & Hb); [intros H; discriminate H|exact Hb].
Defined.

(** An instance of X5: 7 is stored under "a" at time 0 with the default
    TTL and read back at time 5. *)
Lemma X5_witness_read_back :
  let s' := Cache.set CacheRuns.calculateSize CacheRuns.config "a" 7%nat None None 0
              Cache.init in
  5 ≤ 0 + js_or None (CacheOptions.ttl CacheRuns.config) ∧
  (Cache.get "a" 5 5 s').1 = Some 7%nat.
Proof.
  intros s'.
  assert (5 ≤ 0 + js_or None (CacheOptions.ttl CacheRuns.config)) as Hlive
    by (intros H; discriminate H).
  destruct (X5_set_then_get_round_trip CacheRuns.calculateSize CacheRuns.config
              "a" 7%nat None None 0 5 5 Cache.init Hlive)
    as (_ & _ & _ & _ & Hget & _).
  split; [exact Hlive|exact Hget].
Defined.

(** An instance of X7: fetch 0 for "k" yields 7 at time 3; a call at time 4
    is answered from the cache. *)
Lemma X7_witness_served :
  let w := (Cache.getOrSet CacheRuns.isNull "k" None Cache.ReturnsPromise 0 0 0 0
              (Cache.initWorld (T:=nat) (E:=string))).2 in
  let f := Cache.mkFetch (T:=nat) (E:=string) "k" None 0 None false in
  let w' := Cache.settleFetch CacheRuns.calculateSize CacheRuns.config 0
              (Cache.Fulfilled 7%nat) 3 w in
  Cache.fetches w !! 0%nat = Some f ∧
  CacheRuns.isNull 7%nat = false ∧
  (Cache.getOrSet CacheRuns.isNull "k" None Cache.ReturnsPromise 4 4 4 5 w').1 = Cache.Returned 7%nat.
Proof.
  intros w f w'.
  assert (Cache.fetches w !! 0%nat = Some f) as Hf by reflexivity.
  assert (Cache.fetchOutcome f = None) as Ho by reflexivity.
  assert (CacheRuns.isNull 7%nat = false) as Hnull by reflexivity.
  assert (4 ≤ 3 + js_or (Cache.fetchTtl f) (CacheOptions.ttl CacheRuns.config)) as Hlive
    by (intros H; discriminate H).
  destruct (X7_fetched_value_is_served_from_cache CacheRuns.calculateSize CacheRuns.isNull
              CacheRuns.config w 0 f 7%nat 3 None Cache.ReturnsPromise 4 4 4 5 Hf Ho Hnull Hlive)
    as (_ & _ & _ & Hret & _).
  split; [exact Hf|]. split; [exact Hnull|exact Hret].
Defined.

(** An instance of X8: in a cache for which 0 counts as null, fetch 0 for
    "k" yields 0 at time 3; a call at time 4 starts fetch 1. *)
Lemma X8_witness_fetched_again :
  let isNull := Nat.eqb 0 in
  let w := (Cache.getOrSet isNull "k" None Cache.ReturnsPromise 0 0 0 0
              (Cache.initWorld (T:=nat) (E:=string))).2 in
  let f := Cache.mkFetch (T:=nat) (E:=string) "k" None 0 None false in
  let w' := Cache.settleFetch CacheRuns.calculateSize CacheRuns.config 0
              (Cache.Fulfilled 0%nat) 3 w in
  Cache.fetches w !! 0%nat = Some f ∧
  isNull 0%nat = true ∧
  (Cache.getOrSet isNull "k" None Cache.ReturnsPromise 4 4 4 5 w').1 = Cache.Awaits (length (Cache.fetches w')).
Proof.
  intros isNull w f w'.
  assert (Cache.fetches w !! 0%nat = Some f) as Hf by reflexivity.
  assert (Cache.fetchOutcome f = None) as Ho by reflexivity.
  assert (isNull 0%nat = true) as Hnull by reflexivity.
  assert (4 ≤ 3 + js_or (Cache.fetchTtl f) (CacheOptions.ttl CacheRuns.config)) as Hlive
    by (intros H; discriminate H).
  destruct (X8_null_result_is_fetched_again CacheRuns.calculateSize isNull
              CacheRuns.config w 0 f 0%nat 3 None Cache.ReturnsPromise 4 4 4 5 Hf Ho Hnull Hlive)
    as (_ & Hret & _).
  split; [exact Hf|]. split; [exact Hnull|exact Hret].
Defined.

(** An instance of X9: the cache is cleared while fetch 0 for "k" is in
    flight; when the fetch yields 7 its caller still receives 7. *)
Lemma X9_witness_cleared_in_flight :
  let w := (Cache.getOrSet CacheRuns.isNull "k" None Cache.ReturnsPromise 0 0 0 0
              (Cache.initWorld (T:=nat) (E:=string))).2 in
  let f := Cache.mkFetch (T:=nat) (E:=string) "k" None 0 None false in
  let cleared := Cache.step CacheRuns.calculateSize CacheRuns.isNull CacheRuns.config
                   (Cache.EvOp Cache.OpClear) w in
  let w' := Cache.settleFetch CacheRuns.calculateSize CacheRuns.config 0
              (Cache.Fulfilled 7%nat) 3 cleared in
  Cache.fetches w !! 0%nat = Some f ∧
  Cache.observe (Cache.Awaits 0) w' = Some (Cache.Fulfilled 7%nat) ∧
  Cache.accessOrder (Cache.st w') = ["k"].
Proof.
  intros w f cleared w'.
  assert (Cache.fetches w !! 0%nat = Some f) as Hf by reflexivity.
  assert (Cache.fetchOutcome f = None) as Ho by reflexivity.
  destruct (X9_clear_does_not_cancel_a_fetch CacheRuns.calculateSize CacheRuns.isNull
              CacheRuns.config w 0 f 7%nat 3 Hf Ho)
    as (_ & _ & _ & Hobs & _ & Horder).
  split; [exact Hf|]. split; [exact Hobs|exact Horder].
Defined.

(** An instance of X11: after the five submissions one operation was
    started and none is counted yet. *)
Lemma X11_witness_five_submissions :
  let s := QueueRuns.replay QueueRuns.submissions in
  Reachable QueueRuns.syncSubmits QueueRuns.maxConcurrent s ∧
  length (Queue.dispatched s)
  = (AsyncQueueStats.totalProcessed (QueueApi.getStats QueueRuns.maxConcurrent s)
     + untallied s)%nat.
Proof.
  intros s.
  assert (Reachable QueueRuns.syncSubmits QueueRuns.maxConcurrent s) as Hreach
    by apply Reachable_replay.
  destruct (X11_started_operations_are_tallied_once QueueRuns.syncSubmits
              QueueRuns.maxConcurrent s Hreach) as [Htally _].
  split; [exact Hreach|exact Htally].
Defined.

(** An instance of X12: the first of the four items that wait after the
    five submissions is not started once the queue has been cleared. *)
Lemma X12_witness_five_submissions :
  let h := QueueRuns.submissions in
  match Queue.queue (Queue.replay QueueRuns.syncSubmits QueueRuns.maxConcurrent h) with
  | item :: rest =>
      Queue.uid item
      ∉ Queue.dispatched
          (Queue.replay QueueRuns.syncSubmits QueueRuns.maxConcurrent (Queue.EvClear :: h))
  | [] => False
  end.
Proof.
  intros h.
  pose proof (λ item, X12_cleared_tasks_are_never_started QueueRuns.syncSubmits
                        QueueRuns.maxConcurrent h [] item) as Hnever.
  destruct (Queue.queue (Queue.replay QueueRuns.syncSubmits QueueRuns.maxConcurrent h))
    as [|item rest] eqn:Hq.
  - vm_compute in Hq. discriminate Hq.
  - assert (item ∈ item :: rest) as Hin by apply list_elem_of_here.
    exact (proj1 (Hnever item Hin)).
Defined.

(** An instance of X13: the five submissions contain no [clear]; each of
    the five items is waiting or was started. *)
Lemma X13_witness_five_submissions :
  let s := QueueRuns.replay QueueRuns.submissions in
  Forall (λ e, ¬ isClear e) QueueRuns.submissions ∧
  Queue.nextUid s = (length (Queue.dispatched s) + length (Queue.queue s))%nat.
Proof.
  intros s.
  assert (Forall (λ e, ¬ isClear e) QueueRuns.submissions) as Hnc.
  { repeat constructor; intros H; exact H. }
  destruct (X13_no_task_is_lost_without_clear QueueRuns.syncSubmits
              QueueRuns.maxConcurrent QueueRuns.submissions Hnc) as (_ & _ & Hcount).
  split; [exact Hnc|exact Hcount].
Defined.

(** An instance of X14: after the five checks, a sweep at 500 ms changes
    nothing in the decisions of two checks at 600 ms and 700 ms. *)
Lemma X14_witness_sweep_at_500 :
  let m := RateLimit.replay RateLimitRuns.config RateLimitRuns.fiveChecks in
  let checks := [("client", 600); ("client", 700)] in
  InOrder 500 checks ∧
  decisions RateLimitRuns.config checks (RateLimit.cleanup RateLimitRuns.config 500 m)
  = decisions RateLimitRuns.config checks m.
Proof.
  intros m checks.
  assert (InOrder 500 checks) as Hord.
  { split; [intros H; discriminate H|]. split; [intros H; discriminate H|exact I]. }
  destruct (X14_sweep_never_changes_a_decision RateLimitRuns.config 500 m checks Hord)
    as [Hsame _].
  split; [exact Hord|exact Hsame].
Defined.

(** An instance of X15: after the five checks, a sixth at 500 ms is
    denied with a positive [retryAfter]. *)
Lemma X15_witness_sixth_request :
  let m := RateLimit.replay RateLimitRuns.config RateLimitRuns.fiveChecks in
  let res := RateLimit.isAllowed RateLimitRuns.config "client" 500 m in
  RateLimit.allowed res.1 = false ∧
  ∃ r, RateLimit.retryAfter res.1 = RateLimit.Finite r ∧ 0 < r.
Proof.
  intros m res.
  assert (0 < RateLimit.maxRequests RateLimitRuns.config) as Hmax by reflexivity.
  assert (0 < RateLimit.burstCapacity RateLimitRuns.config) as Hcap by reflexivity.
  assert (RateLimit.allowed res.1 = false) as Hdenied by reflexivity.
  destruct (X15_retry_after_is_honest_and_exact RateLimitRuns.config
              RateLimitRuns.fiveChecks "client" 500 Hmax Hcap Hdenied)
    as (r & Hr & Hpos & _).
  split; [exact Hdenied|]. exists r. split; [exact Hr|exact Hpos].
Defined.

(** An instance of X16: the five checks are in the order of their times;
    at most five of them fall in the burst window that ends at 450 ms. *)
Lemma X16_witness_five_checks :
  Chronological RateLimitRuns.fiveChecks ∧
  Z.of_nat (length (allowedWithin RateLimitRuns.config
                      (RateLimit.burstWindow RateLimitRuns.config) 450 "client"
                      RateLimitRuns.fiveChecks))
  ≤ Z.max 0 (RateLimit.burstCapacity RateLimitRuns.config).
Proof.
  assert (Chronological RateLimitRuns.fiveChecks) as Hchr.
  { repeat split; intros e' He';
      repeat (apply elem_of_cons in He' as [->|He']; [intros H; discriminate H|]);
      by apply elem_of_nil in He'. }
  destruct (X16_allowed_requests_fit_every_window RateLimitRuns.config
              RateLimitRuns.fiveChecks "client" 450 Hchr) as [_ Hburst].
  split; [exact Hchr|exact Hburst].
Defined.

(** An instance of X17: after two calls for "k" and the settlement of the
    promise, the pending count is the number of executions that hold a
    key. *)
Lemma X17_witness_two_callers :
  let s := ConcurrentManager.runEvents ManagerRuns.twoCallers ConcurrentManager.init in
  Forall (λ e, ¬ isManagerClear e) ManagerRuns.twoCallers ∧
  ConcurrentManager.getPendingCount s
  = length (filter holds (ConcurrentManager.executions s)).
Proof.
  intros s.
  assert (Forall (λ e, ¬ isManagerClear e) ManagerRuns.twoCallers) as Hnc.
  { repeat constructor; intros H; discriminate H. }
  destruct (X17_manager_runs_one_function_per_key ManagerRuns.twoCallers Hnc)
    as [Hcount _].
  split; [exact Hnc|exact Hcount].
Defined.

(** An instance of X18: while "j" is running, the function executed for
    "k" throws "boom"; a later call for "k" gets the rejected promise 1. *)
Lemma X18_witness_boom :
  let s0 := ConcurrentManager.runEvents ManagerRuns.before ConcurrentManager.init in
  let r := ConcurrentManager.execute "k" (ConcurrentManager.Throws "boom") s0 in
  let s := ConcurrentManager.runEvents ManagerRuns.after r.2 in
  ConcurrentManager.pendingRequests s0 !! "k" = None ∧
  ConcurrentManager.pendingRequests s !! "k" = Some r.1 ∧
  ConcurrentManager.observe r.1 s = Some (ConcurrentManager.Rejected "boom").
Proof.
  intros s0 r s.
  assert (Forall (λ e, ¬ isManagerClear e) ManagerRuns.before) as Hnc1.
  { repeat constructor; intros H; discriminate H. }
  assert (Forall (λ e, ¬ isManagerClear e) ManagerRuns.after) as Hnc2.
  { repeat constructor; intros H; discriminate H. }
  assert (ConcurrentManager.pendingRequests s0 !! "k" = None) as Hfree by reflexivity.
  destruct (X18_throwing_function_blocks_its_key ManagerRuns.before ManagerRuns.after
              "k" "boom" ConcurrentManager.ReturnsPromise Hnc1 Hnc2 Hfree)
    as (Hreg & Hobs & _).
  split; [exact Hfree|]. split; [exact Hreg|exact Hobs].
Defined.

(** An instance of X21: user 1 of the loaded service is renamed at time
    10; at time 20 the cache returns the user that the operation
    returned. *)
Lemma X21_witness_rename :
  let s := UserService.init ServiceRuns.clock in
  let r := UserService.updateUserTask ServiceRuns.calculateSize 1 ServiceRuns.rename
             0 10 10 11 s in
  20 ≤ 10 + 60000 ∧
  (Cache.get (UserService.cacheKey 1) 20 20 (UserService.cache r.2)).1 = r.1.
Proof.
  intros s r.
  assert (20 ≤ 10 + 60000) as Hlive by (intros H; discriminate H).
  pose proof (X21_update_writes_through ServiceRuns.calculateSize 1 ServiceRuns.rename
                0 10 10 11 20 20 s Hlive) as Hw.
  cbv zeta in Hw. fold r in Hw.
  destruct (UserService.mockUsers s !! 1) as [user|] eqn:Hk.
  - destruct Hw as (Hret & _ & _ & _ & _ & _ & Hget & _).
    split; [exact Hlive|]. exact (eq_trans Hget (eq_sym Hret)).
  - vm_compute in Hk. discriminate Hk.
Defined.

(** An instance of X22: on a fresh cache the supplier of the first call
    for "k" throws "boom"; a second call for "k" and a settlement of its
    promise follow; "k" is still registered to the rejected promise 0. *)
Lemma X22_witness_boom :
  let w := Cache.initWorld (T:=nat) (E:=string) in
  let es := [Cache.EvGetOrSet "k" None Cache.ReturnsPromise 1 1 1 1;
             Cache.EvSettle 0 (Cache.Fulfilled 5%nat) 2] in
  let first := Cache.getOrSet CacheRuns.isNull "k" None (Cache.Throws "boom") 0 0 0 0 w in
  let w' := CacheRuns.run es first.2 in
  Cache.pendingFetches (Cache.st w) !! "k" = None ∧
  Cache.pendingFetches (Cache.st w') !! "k" = Some 0%nat ∧
  Cache.observe (Cache.Awaits 0) w' = Some (Cache.Rejected "boom") ∧
  Cache.supplierRuns "k" w' = 1%nat.
Proof.
  intros w es first w'.
  assert (Cache.pendingFetches (Cache.st w) !! "k" = None) as Hp by reflexivity.
  assert (NoFetchInFlight "k" w) as Hnone.
  { intros q f Hf. destruct q; discriminate Hf. }
  assert (NoLiveEntry "k" 0 (Cache.st w)) as Hlive.
  { intros entry Hentry. discriminate Hentry. }
  assert (Forall (λ e, e ≠ Cache.EvOp Cache.OpClear) es) as Hes.
  { repeat constructor; intros H; discriminate H. }
  destruct (X22_throwing_supplier_blocks_its_key CacheRuns.calculateSize CacheRuns.isNull
              CacheRuns.config "k" None "boom" 0 0 0 0 w es Hp Hnone Hlive Hes)
    as (_ & _ & Hreg & Hobs & Hruns & _).
  split; [exact Hp|]. split; [exact Hreg|]. split; [exact Hobs|exact Hruns].
Defined.
